(** * BTreePMACC7: a packed memory array behind a static separator index

    Shallow embedding of [src/pma/btree/btreepmacc7.cpp].

    Conventions of the embedding.
    - Every C++ integer ([size_t], [int64_t], [ssize_t], [uint16_t], [int])
      is a [Z].  Where the source relies on a conversion between signed
      and unsigned 64-bit values the wrap-around is written out
      ([u64], [i64]).
    - The raw arrays [m_keys], [m_values], [m_segment_sizes] are [list Z],
      read with [get] and written with [set] / [memcpy].  Reading outside
      the list yields [0] and writing outside it leaves the list as it is
      (the source has undefined behaviour there).
    - [double] densities are exact rationals ([Q]).
    - Loops are [Fixpoint]s over a trip-count bound that is computed from
      the loop's own termination measure.
    - Allocation never fails. *)

From Stdlib Require Import ZArith List Bool Lia QArith Qround Lqa Permutation.
Import ListNotations.
Local Open Scope Z_scope.

(* ===================================================================== *)
(** * Arrays                                                              *)
(* ===================================================================== *)

Definition len {A} (l : list A) : Z := Z.of_nat (length l).

Definition get (l : list Z) (i : Z) : Z :=
  if i <? 0 then 0 else nth (Z.to_nat i) l 0.

Fixpoint set_nth (l : list Z) (n : nat) (x : Z) : list Z :=
  match l, n with
  | [], _ => []
  | _ :: t, O => x :: t
  | h :: t, S n' => h :: set_nth t n' x
  end.

Definition set (l : list Z) (i : Z) (x : Z) : list Z :=
  if i <? 0 then l else set_nth l (Z.to_nat i) x.

(** [zrange a n] is [a; a+1; ...; a+n-1]. *)
Fixpoint zrange (a : Z) (n : nat) : list Z :=
  match n with
  | O => []
  | S n' => a :: zrange (a + 1) n'
  end.

(** [slice l a n]: the [n] cells of [l] from position [a] on. *)
Definition slice (l : list Z) (a n : Z) : list Z :=
  map (get l) (zrange a (Z.to_nat n)).

(** [blit dst d xs]: write the cells [xs] into [dst] from position [d]. *)
Fixpoint blit (dst : list Z) (d : Z) (xs : list Z) : list Z :=
  match xs with
  | [] => dst
  | x :: r => blit (set dst d x) (d + 1) r
  end.

(** [memcpy dst d src s n]: the [n] cells of [src] from [s] are read first
    and then written into [dst] from [d]. *)
Definition memcpy (dst : list Z) (d : Z) (src : list Z) (s n : Z) : list Z :=
  blit dst d (slice src s n).

Definition b2z (b : bool) : Z := if b then 1 else 0.

Definition u64 (x : Z) : Z := x mod 2 ^ 64.
Definition i64 (x : Z) : Z := (x + 2 ^ 63) mod 2 ^ 64 - 2 ^ 63.

Definition int64_min : Z := - 2 ^ 63.
Definition int64_max : Z := 2 ^ 63 - 1.
Definition uint16_max : Z := 65535.

(* ===================================================================== *)
(** * Collaborators that are not part of the translation unit            *)
(* ===================================================================== *)

(** Modelled from the spec: [hyperceil] (miscellaneous.hpp is missing),
    "the smallest power of two >= n". *)
Definition hyperceil (n : Z) : Z := 2 ^ Z.log2_up n.

(** The platform: the size of a virtual memory page, as returned by
    [get_memory_page_size()], and the content of memory that was allocated
    and never written. *)
Record Platform := {
  memory_page_size : Z;
  uninit : Z -> Z
}.

Definition fresh (pf : Platform) (n : Z) : list Z :=
  map (uninit pf) (zrange 0 (Z.to_nat n)).

(** Modelled from the spec: the density calibrator (density_bounds.hpp is
    missing).  [thresholds tree_height node_height] is the pair
    (rho, theta) of the lower and the upper density of a window at
    [node_height] in a calibrator tree of [tree_height]. *)
Record DensityBounds := {
  thresholds : Z -> Z -> Q * Q;
  get_upper_threshold_leaves : Q;
  get_upper_threshold_root : Q
}.

(** Modelled from the spec: [BufferedRewiredMemory] (rewired_memory.hpp is
    missing), section 4.1.  Only the extent size in bytes and the number
    of scratch buffers that are handed out are kept; the bytes themselves
    live in [m_keys] / [m_values] and in the scratch buffers. *)
Record RewiredMemory := {
  get_extent_size : Z;
  get_used_buffers : Z
}.

Definition acquire_buffer (m : RewiredMemory) : RewiredMemory :=
  {| get_extent_size := get_extent_size m;
     get_used_buffers := get_used_buffers m + 1 |}.

Definition swap_and_release (m : RewiredMemory) : RewiredMemory :=
  {| get_extent_size := get_extent_size m;
     get_used_buffers := get_used_buffers m - 1 |}.

Definition on_memory (f : RewiredMemory -> RewiredMemory)
  (m : option RewiredMemory) : option RewiredMemory :=
  match m with
  | Some r => Some (f r)
  | None => None
  end.

(** Modelled from the spec: [StaticIndex] (pma/generic/static_index.hpp is
    missing), section 4.3: one separator key per segment. *)
Definition StaticIndex := list Z.

Definition set_separator_key (ix : StaticIndex) (segment_id key : Z) : StaticIndex :=
  set ix segment_id key.

Definition get_separator_key (ix : StaticIndex) (segment_id : Z) : Z :=
  get ix segment_id.

(** "reset to S segments (contents become undefined until set)" *)
Definition rebuild (pf : Platform) (num_segments : Z) : StaticIndex :=
  fresh pf num_segments.

(** "the unique segment whose separator <= key and (next separator > key,
    or this is the last segment).  Returns 0 for keys below the minimum." *)
Fixpoint index_find_from (seps : list Z) (i : Z) (key : Z) : Z :=
  match seps with
  | [] => 0
  | s :: rest =>
      match rest with
      | [] => if s <=? key then i else 0
      | s' :: _ =>
          if (s <=? key) && (key <? s') then i
          else index_find_from rest (i + 1) key
      end
  end.

Definition index_find (ix : StaticIndex) (key : Z) : Z :=
  index_find_from ix 0 key.

(** "leftmost candidate segment intersecting [key, oo)": the first segment
    that is the last one or whose successor's separator is not below
    [key]. *)
Fixpoint index_find_first_from (seps : list Z) (i : Z) (key : Z) : Z :=
  match seps with
  | [] => 0
  | _ :: rest =>
      match rest with
      | [] => i
      | s' :: _ =>
          if key <=? s' then i else index_find_first_from rest (i + 1) key
      end
  end.

Definition index_find_first (ix : StaticIndex) (key : Z) : Z :=
  index_find_first_from ix 0 key.

(** "rightmost candidate segment intersecting (-oo, key]": the last
    segment whose separator is not above [key], segment 0 when there is
    none. *)
Fixpoint index_find_last_from (seps : list Z) (i best : Z) (key : Z) : Z :=
  match seps with
  | [] => best
  | s :: rest =>
      index_find_last_from rest (i + 1) (if s <=? key then i else best) key
  end.

Definition index_find_last (ix : StaticIndex) (key : Z) : Z :=
  index_find_last_from ix 0 0 key.

(* ===================================================================== *)
(** * Storage                                                             *)
(* ===================================================================== *)

Record PMA := {
  m_keys : list Z;
  m_values : list Z;
  m_segment_sizes : list Z;
  m_segment_capacity : Z;
  m_pages_per_extent : Z;
  m_height : Z;
  m_cardinality : Z;
  m_capacity : Z;
  m_number_segments : Z;
  m_memory_keys : option RewiredMemory;
  m_memory_values : option RewiredMemory
}.

(** The ways in which a call ends without a result: the two C++
    exceptions of the translation unit, and [division_by_zero], which is
    no exception but the trap of an integer division by zero (undefined
    behaviour; the run ends there). *)
Inductive exception : Type :=
| invalid_argument
| Exception
| division_by_zero.

(** The workspace that [PMA::alloc_workspace] hands back. *)
Record Workspace := {
  ws_keys : list Z;
  ws_values : list Z;
  ws_sizes : list Z;
  ws_memory_keys : option RewiredMemory;
  ws_memory_values : option RewiredMemory
}.

Definition sizeof_int64 : Z := 8.

(** [const size_t extent_size = m_pages_per_extent *
    get_memory_page_size();]: a [size_t] product, it wraps. *)
Definition extent_size_bytes (pf : Platform) (pages_per_extent : Z) : Z :=
  u64 (pages_per_extent * memory_page_size pf).

(** [elts_space_required_bytes / extent_size] in the rewiring branch of
    [PMA::alloc_workspace] divides by zero when [extent_size] has wrapped
    to 0. *)
Definition alloc_workspace_divides_by_zero (pf : Platform)
  (segment_capacity pages_per_extent : Z) (num_segments : Z) : bool :=
  let extent_size := extent_size_bytes pf pages_per_extent in
  let elts_space_required_bytes := u64 (num_segments * segment_capacity * sizeof_int64) in
  let use_rewired_memory := extent_size <=? elts_space_required_bytes in
  use_rewired_memory && (extent_size =? 0).

(** [PMA::alloc_workspace] when its division is defined.  The division
    by zero is the case [alloc_workspace_divides_by_zero], which [PMA_new]
    tests before it uses this workspace; the later calls (resize, bulk
    load) run on a storage that the constructor has built, where
    [extent_size] is the same product and is not 0. *)
Definition alloc_workspace (pf : Platform) (segment_capacity pages_per_extent : Z)
  (num_segments : Z) : Workspace :=
  let extent_size := extent_size_bytes pf pages_per_extent in
  let elts_space_required_bytes := u64 (num_segments * segment_capacity * sizeof_int64) in
  let use_rewired_memory := extent_size <=? elts_space_required_bytes in
  let mem :=
    if use_rewired_memory
    then Some {| get_extent_size := extent_size; get_used_buffers := 0 |}
    else None in
  {| ws_keys := fresh pf (num_segments * segment_capacity);
     ws_values := fresh pf (num_segments * segment_capacity);
     (* always allocate at least 2 segments, using the second segment as
        special mark with size = 0 *)
     ws_sizes := set (map (fun x => x mod 2 ^ 16) (fresh pf (Z.max 2 num_segments))) 1 0;
     ws_memory_keys := mem;
     ws_memory_values := mem |}.

(** [PMA::PMA(segment_size, pages_per_extent)] *)
Definition PMA_new (pf : Platform) (segment_size pages_per_extent : Z)
  : exception + PMA :=
  let segment_capacity := hyperceil segment_size mod 2 ^ 16 in
  if uint16_max <? hyperceil segment_size then inl invalid_argument
  else if segment_capacity <? 32 then inl invalid_argument
  else if negb (hyperceil pages_per_extent =? pages_per_extent) then inl invalid_argument
  else if negb (memory_page_size pf mod (segment_capacity * sizeof_int64) =? 0)
       then inl invalid_argument
  else if alloc_workspace_divides_by_zero pf segment_capacity pages_per_extent 1
       then inl division_by_zero
  else
    let ws := alloc_workspace pf segment_capacity pages_per_extent 1 in
    inr {| m_keys := ws_keys ws;
           m_values := ws_values ws;
           m_segment_sizes := ws_sizes ws;
           m_segment_capacity := segment_capacity;
           m_pages_per_extent := pages_per_extent;
           m_height := 1;
           m_cardinality := 0;
           m_capacity := segment_capacity;
           m_number_segments := 1;
           m_memory_keys := ws_memory_keys ws;
           m_memory_values := ws_memory_values ws |}.

(* ===================================================================== *)
(** * The index                                                           *)
(* ===================================================================== *)

Record BTreePMACC7 := {
  m_index : StaticIndex;
  m_storage : PMA;
  m_density_bounds : DensityBounds
}.

(** [BTreePMACC7::BTreePMACC7(btree_block_size, pma_segment_size,
    pages_per_extent)]; the density bounds are default-constructed in the
    source and are a parameter here. *)
Definition BTreePMACC7_new (pf : Platform) (db : DensityBounds)
  (pma_segment_size pages_per_extent : Z) : exception + BTreePMACC7 :=
  match PMA_new pf pma_segment_size pages_per_extent with
  | inl e => inl e
  | inr st => inr {| m_index := rebuild pf 1; m_storage := st; m_density_bounds := db |}
  end.

Definition with_keys (st : PMA) (k : list Z) : PMA :=
  {| m_keys := k; m_values := m_values st; m_segment_sizes := m_segment_sizes st;
     m_segment_capacity := m_segment_capacity st;
     m_pages_per_extent := m_pages_per_extent st; m_height := m_height st;
     m_cardinality := m_cardinality st; m_capacity := m_capacity st;
     m_number_segments := m_number_segments st;
     m_memory_keys := m_memory_keys st; m_memory_values := m_memory_values st |}.

Definition with_values (st : PMA) (v : list Z) : PMA :=
  {| m_keys := m_keys st; m_values := v; m_segment_sizes := m_segment_sizes st;
     m_segment_capacity := m_segment_capacity st;
     m_pages_per_extent := m_pages_per_extent st; m_height := m_height st;
     m_cardinality := m_cardinality st; m_capacity := m_capacity st;
     m_number_segments := m_number_segments st;
     m_memory_keys := m_memory_keys st; m_memory_values := m_memory_values st |}.

Definition with_sizes (st : PMA) (s : list Z) : PMA :=
  {| m_keys := m_keys st; m_values := m_values st; m_segment_sizes := s;
     m_segment_capacity := m_segment_capacity st;
     m_pages_per_extent := m_pages_per_extent st; m_height := m_height st;
     m_cardinality := m_cardinality st; m_capacity := m_capacity st;
     m_number_segments := m_number_segments st;
     m_memory_keys := m_memory_keys st; m_memory_values := m_memory_values st |}.

Definition with_cardinality (st : PMA) (c : Z) : PMA :=
  {| m_keys := m_keys st; m_values := m_values st;
     m_segment_sizes := m_segment_sizes st;
     m_segment_capacity := m_segment_capacity st;
     m_pages_per_extent := m_pages_per_extent st; m_height := m_height st;
     m_cardinality := c; m_capacity := m_capacity st;
     m_number_segments := m_number_segments st;
     m_memory_keys := m_memory_keys st; m_memory_values := m_memory_values st |}.

Definition with_memory (st : PMA) (mk mv : option RewiredMemory) : PMA :=
  {| m_keys := m_keys st; m_values := m_values st;
     m_segment_sizes := m_segment_sizes st;
     m_segment_capacity := m_segment_capacity st;
     m_pages_per_extent := m_pages_per_extent st; m_height := m_height st;
     m_cardinality := m_cardinality st; m_capacity := m_capacity st;
     m_number_segments := m_number_segments st;
     m_memory_keys := mk; m_memory_values := mv |}.

Definition with_storage (t : BTreePMACC7) (st : PMA) : BTreePMACC7 :=
  {| m_index := m_index t; m_storage := st; m_density_bounds := m_density_bounds t |}.

Definition with_index (t : BTreePMACC7) (ix : StaticIndex) : BTreePMACC7 :=
  {| m_index := ix; m_storage := m_storage t; m_density_bounds := m_density_bounds t |}.

Definition size (t : BTreePMACC7) : Z := m_cardinality (m_storage t).

Definition empty (t : BTreePMACC7) : bool := m_cardinality (m_storage t) =? 0.

(** [BTreePMACC7::get_minimum] *)
Definition get_minimum (st : PMA) (segment_id : Z) : Z :=
  if segment_id mod 2 =? 0
  then get (m_keys st)
         ((segment_id + 1) * m_segment_capacity st - get (m_segment_sizes st) segment_id)
  else get (m_keys st) (segment_id * m_segment_capacity st).

(* ===================================================================== *)
(** * Insert                                                              *)
(* ===================================================================== *)

(** [BTreePMACC7::insert_empty] *)
Definition insert_empty (t : BTreePMACC7) (key value : Z) : BTreePMACC7 :=
  let st := m_storage t in
  let pos := m_segment_capacity st - 1 in
  let st := with_sizes st (set (m_segment_sizes st) 0 1) in
  let st := with_keys st (set (m_keys st) pos key) in
  let st := with_values st (set (m_values st) pos value) in
  let st := with_cardinality st 1 in
  with_storage (with_index t (set_separator_key (m_index t) 0 key)) st.

(** [while(i < stop && keys[i+1] < key){ keys[i] = keys[i+1]; i++; }] *)
Fixpoint shift_even (n : nat) (keys : list Z) (base i stop key : Z) : list Z * Z :=
  match n with
  | O => (keys, i)
  | S n' =>
      if (i <? stop) && (get keys (base + i + 1) <? key)
      then shift_even n' (set keys (base + i) (get keys (base + i + 1))) base (i + 1) stop key
      else (keys, i)
  end.

(** [while(i > 0 && keys[i-1] > key){ keys[i] = keys[i-1]; i--; }] *)
Fixpoint shift_odd (n : nat) (keys : list Z) (base i key : Z) : list Z * Z :=
  match n with
  | O => (keys, i)
  | S n' =>
      if (0 <? i) && (key <? get keys (base + i - 1))
      then shift_odd n' (set keys (base + i) (get keys (base + i - 1))) base (i - 1) key
      else (keys, i)
  end.

(** [zrange_down a n] is [a; a-1; ...; a-n+1]. *)
Fixpoint zrange_down (a : Z) (n : nat) : list Z :=
  match n with
  | O => []
  | S n' => a :: zrange_down (a - 1) n'
  end.

(** [BTreePMACC7::storage_insert_unsafe]: the new state and whether the
    inserted key is the new minimum of the segment. *)
Definition storage_insert_unsafe (t : BTreePMACC7) (segment_id key value : Z)
  : BTreePMACC7 * bool :=
  let st := m_storage t in
  let B := m_segment_capacity st in
  let base := segment_id * B in
  let sz := get (m_segment_sizes st) segment_id in
  let '(keys, values, minimum) :=
    if segment_id mod 2 =? 0 then
      let stop := B - 1 in
      let start := B - sz - 1 in
      let '(keys, i) := shift_even (Z.to_nat (stop - start)) (m_keys st) base start stop key in
      let keys := set keys (base + i) key in
      let values :=
        fold_left (fun vs j => set vs (base + j) (get vs (base + j + 1)))
                  (zrange start (Z.to_nat (i - start))) (m_values st) in
      let values := set values (base + i) value in
      (keys, values, i =? start)
    else
      let '(keys, i) := shift_odd (Z.to_nat sz) (m_keys st) base sz key in
      let keys := set keys (base + i) key in
      let values :=
        fold_left (fun vs j => set vs (base + j) (get vs (base + j - 1)))
                  (zrange_down sz (Z.to_nat (sz - i))) (m_values st) in
      let values := set values (base + i) value in
      (keys, values, i =? 0) in
  let st := with_keys st keys in
  let st := with_values st values in
  let st := with_sizes st (set (m_segment_sizes st) segment_id (sz + 1)) in
  let st := with_cardinality st (m_cardinality st + 1) in
  (with_storage t st, minimum).

(** The copy loop of [BTreePMACC7::spread_insert_unsafe]. *)
Fixpoint spread_insert_loop (n : nat) (keys_from values_from : list Z) (from : Z)
  (keys_to values_to : list Z) (to : Z) (i num_elements new_key : Z)
  : list Z * list Z * Z :=
  match n with
  | O => (keys_to, values_to, i)
  | S n' =>
      if (i <? num_elements) && (get keys_from (from + i) <? new_key)
      then spread_insert_loop n' keys_from values_from from
             (set keys_to (to + i) (get keys_from (from + i)))
             (set values_to (to + i) (get values_from (from + i)))
             to (i + 1) num_elements new_key
      else (keys_to, values_to, i)
  end.

(** [BTreePMACC7::spread_insert_unsafe], without the increment of
    [m_cardinality], which the callers below perform.  The source and the
    destination are [__restrict] in the source: the cells of [keys_from]
    are those before the call. *)
Definition spread_insert_unsafe (keys_from values_from : list Z) (from : Z)
  (keys_to values_to : list Z) (to : Z) (num_elements new_key new_value : Z)
  : list Z * list Z :=
  let '(keys_to, values_to, i) :=
    spread_insert_loop (Z.to_nat num_elements) keys_from values_from from
      keys_to values_to to 0 num_elements new_key in
  let keys_to := set keys_to (to + i) new_key in
  let values_to := set values_to (to + i) new_value in
  (memcpy keys_to (to + i + 1) keys_from (from + i) (num_elements - i),
   memcpy values_to (to + i + 1) values_from (from + i) (num_elements - i)).

(* ===================================================================== *)
(** * Two-chunk spread                                                    *)
(* ===================================================================== *)

Record spread_insert := {
  m_key : Z;
  m_value : Z;
  m_segment_id : Z
}.

Inductive chunk : Type := Chunk1 | Chunk2.

(** [output_start] and [output_end] of the pair of segments
    ([seg], [seg]+1) of the window whose sizes start at [sbase]. *)
Definition fetch_bounds (B : Z) (sizes : list Z) (sbase seg : Z) : Z * Z :=
  let output_start := (seg + 1) * B - get sizes (sbase + seg) in
  (output_start, output_start + get sizes (sbase + seg) + get sizes (sbase + seg + 1)).

Definition is_insert_pair (ins : option spread_insert) (insert_segment_id seg : Z)
  : option spread_insert :=
  match ins with
  | Some si =>
      if (insert_segment_id =? seg) || (insert_segment_id =? seg + 1)
      then Some si else None
  | None => None
  end.

(** Phase 1 of [spread_two_copies], first loop: "copy the last four
    segments into input_chunk2". *)
Fixpoint compact_chunk2 (n : nat) (B kbase sbase : Z) (sizes keys values : list Z)
  (ins : option spread_insert) (insert_segment_id : Z)
  (c2k c2v : list Z) (space_left seg ostart oend copied card : Z)
  : list Z * list Z * Z * Z * Z * Z * Z :=
  match n with
  | O => (c2k, c2v, space_left, seg, ostart, oend, card)
  | S n' =>
      if (0 <=? seg) && (copied <? 4) then
        let elements2copy := oend - ostart in
        let '(c2k, c2v, space_left, card) :=
          match is_insert_pair ins insert_segment_id seg with
          | Some si =>
              let '(k, v) :=
                spread_insert_unsafe keys values (kbase + ostart)
                  c2k c2v (space_left - elements2copy - 1)
                  elements2copy (m_key si) (m_value si) in
              (k, v, space_left - 1, card + 1)
          | None =>
              (memcpy c2k (space_left - elements2copy) keys (kbase + ostart) elements2copy,
               memcpy c2v (space_left - elements2copy) values (kbase + ostart) elements2copy,
               space_left, card)
          end in
        let space_left := space_left - elements2copy in
        let seg := seg - 2 in
        let '(ostart, oend) :=
          if 0 <=? seg then fetch_bounds B sizes sbase seg else (ostart, oend) in
        compact_chunk2 n' B kbase sbase sizes keys values ins insert_segment_id
          c2k c2v space_left seg ostart oend (copied + 2) card
      else (c2k, c2v, space_left, seg, ostart, oend, card)
  end.

(** Phase 1, second loop: "move the remaining elements towards the end of
    the array". *)
Fixpoint compact_chunk1 (n : nat) (B kbase sbase : Z) (sizes : list Z)
  (ins : option spread_insert) (insert_segment_id : Z)
  (keys values : list Z) (chunk1_current seg ostart oend card : Z)
  : list Z * list Z * Z * Z :=
  match n with
  | O => (keys, values, chunk1_current, card)
  | S n' =>
      if 0 <=? seg then
        let elements2copy := oend - ostart in
        let '(keys, values, chunk1_current, card) :=
          match is_insert_pair ins insert_segment_id seg with
          | Some si =>
              let '(k, v) :=
                spread_insert_unsafe keys values (kbase + ostart)
                  keys values (kbase + chunk1_current - elements2copy - 1)
                  elements2copy (m_key si) (m_value si) in
              (k, v, chunk1_current - 1, card + 1)
          | None =>
              (memcpy keys (kbase + chunk1_current - elements2copy) keys (kbase + ostart) elements2copy,
               memcpy values (kbase + chunk1_current - elements2copy) values (kbase + ostart) elements2copy,
               chunk1_current, card)
          end in
        let chunk1_current := chunk1_current - elements2copy in
        let seg := seg - 2 in
        let '(ostart, oend) :=
          if 0 <=? seg then fetch_bounds B sizes sbase seg else (ostart, oend) in
        compact_chunk1 n' B kbase sbase sizes ins insert_segment_id
          keys values chunk1_current seg ostart oend card
      else (keys, values, chunk1_current, card)
  end.

(** Phase 2: [sizes[i] = elements_per_segment + (i < num_odd_segments)]. *)
Definition set_expected_sizes (sizes : list Z) (sbase num_segments cardinality : Z)
  : list Z :=
  let elements_per_segment := cardinality / num_segments in
  let num_odd_segments := cardinality mod num_segments in
  fold_left (fun sz i => set sz (sbase + i) (elements_per_segment + b2z (i <? num_odd_segments)))
            (zrange 0 (Z.to_nat num_segments)) sizes.

(** Phase 4, the inner [while(output_current < output_end)]. *)
Fixpoint redistribute_run (n : nat) (kbase chunk1_start : Z)
  (c2k c2v : list Z) (chunk2_start chunk2_size : Z)
  (keys values : list Z) (input : chunk) (input_size input_current : Z)
  (output_current output_end : Z)
  : list Z * list Z * chunk * Z * Z :=
  match n with
  | O => (keys, values, input, input_size, input_current)
  | S n' =>
      if output_current <? output_end then
        let elements2copy := Z.min (output_end - output_current) (input_size - input_current) in
        let keys' :=
          match input with
          | Chunk1 => memcpy keys (kbase + output_current) keys (kbase + chunk1_start + input_current) elements2copy
          | Chunk2 => memcpy keys (kbase + output_current) c2k (chunk2_start + input_current) elements2copy
          end in
        let values' :=
          match input with
          | Chunk1 => memcpy values (kbase + output_current) values (kbase + chunk1_start + input_current) elements2copy
          | Chunk2 => memcpy values (kbase + output_current) c2v (chunk2_start + input_current) elements2copy
          end in
        let output_current := output_current + elements2copy in
        let input_current := input_current + elements2copy in
        let '(input', input_size, input_current) :=
          match input with
          | Chunk1 =>
              if input_current =? input_size then (Chunk2, chunk2_size, 0)
              else (input, input_size, input_current)
          | Chunk2 => (input, input_size, input_current)
          end in
        redistribute_run n' kbase chunk1_start c2k c2v chunk2_start chunk2_size
          keys' values' input' input_size input_current output_current output_end
      else (keys, values, input, input_size, input_current)
  end.

(** Phase 4, the outer [for(i = 0; i < num_segments; i += 2)]. *)
Fixpoint redistribute (n : nat) (B kbase sbase chunk1_start : Z)
  (c2k c2v : list Z) (chunk2_start chunk2_size : Z) (sizes : list Z)
  (keys values : list Z) (ix : StaticIndex)
  (input : chunk) (input_size input_current : Z) (i num_segments : Z)
  : list Z * list Z * StaticIndex :=
  match n with
  | O => (keys, values, ix)
  | S n' =>
      if i <? num_segments then
        let '(output_start, output_end) := fetch_bounds B sizes sbase i in
        let '(keys, values, input, input_size, input_current) :=
          redistribute_run (Z.to_nat (output_end - output_start))
            kbase chunk1_start c2k c2v chunk2_start chunk2_size
            keys values input input_size input_current output_start output_end in
        let ix := set_separator_key ix (sbase + i) (get keys (kbase + output_start)) in
        let ix := set_separator_key ix (sbase + i + 1)
                    (get keys (kbase + output_start + get sizes (sbase + i))) in
        redistribute n' B kbase sbase chunk1_start c2k c2v chunk2_start chunk2_size
          sizes keys values ix input input_size input_current (i + 2) num_segments
      else (keys, values, ix)
  end.

(** [BTreePMACC7::spread_two_copies] *)
Definition spread_two_copies (pf : Platform) (t : BTreePMACC7)
  (cardinality segment_start num_segments : Z) (spread_insertion : option spread_insert)
  : BTreePMACC7 :=
  let st := m_storage t in
  let B := m_segment_capacity st in
  let insert_segment_id :=
    match spread_insertion with
    | Some si => m_segment_id si - segment_start
    | None => -1
    end in
  let sbase := segment_start in
  let kbase := segment_start * B in
  let sizes := m_segment_sizes st in
  (* input chunk 2 (extra space) *)
  let input_chunk2_capacity := B * 4 + 1 in
  let c2k := fresh pf input_chunk2_capacity in
  let c2v := fresh pf input_chunk2_capacity in
  (* 1) first, compact all elements towards the end *)
  let output_segment_id := num_segments - 2 in
  let '(output_start, output_end) := fetch_bounds B sizes sbase output_segment_id in
  let '(c2k, c2v, space_left, output_segment_id, output_start, output_end, card) :=
    compact_chunk2 2 B kbase sbase sizes (m_keys st) (m_values st)
      spread_insertion insert_segment_id c2k c2v input_chunk2_capacity
      output_segment_id output_start output_end 0 (m_cardinality st) in
  let input_chunk2_size := input_chunk2_capacity - space_left in
  let '(keys, values, input_chunk1_current, card) :=
    compact_chunk1 (Z.to_nat (num_segments / 2)) B kbase sbase sizes
      spread_insertion insert_segment_id (m_keys st) (m_values st)
      (num_segments * B) output_segment_id output_start output_end card in
  let input_chunk1_size := num_segments * B - input_chunk1_current in
  (* 2) set the expected size of each segment *)
  let sizes := set_expected_sizes sizes sbase num_segments cardinality in
  (* 3) initialise the input chunk *)
  let '(input, input_size) :=
    if 0 <? input_chunk1_size then (Chunk1, input_chunk1_size)
    else (Chunk2, input_chunk2_size) in
  (* 4) copy from the input chunks *)
  let '(keys, values, ix) :=
    redistribute (Z.to_nat ((num_segments + 1) / 2)) B kbase sbase input_chunk1_current
      c2k c2v space_left input_chunk2_size sizes keys values (m_index t)
      input input_size 0 0 num_segments in
  let st := with_keys st keys in
  let st := with_values st values in
  let st := with_sizes st sizes in
  let st := with_cardinality st card in
  with_storage (with_index t ix) st.

(* ===================================================================== *)
(** * Spread with rewiring                                                *)
(* ===================================================================== *)

Module SpreadWithRewiring.

Record Extent2Rewire := {
  m_extent_id : Z;
  m_buffer_keys : list Z;
  m_buffer_values : list Z
}.

Record t := {
  m_instance : BTreePMACC7;
  m_window_start : Z;
  m_window_length : Z;
  m_cardinality : Z;
  m_segments_per_extent : Z;
  m_insert : bool;
  m_insert_key : Z;
  m_insert_value : Z;
  m_position : Z;
  m_extents_to_rewire : list Extent2Rewire
}.

Definition with_instance (s : t) (i : BTreePMACC7) : t :=
  {| m_instance := i; m_window_start := m_window_start s;
     m_window_length := m_window_length s; m_cardinality := m_cardinality s;
     m_segments_per_extent := m_segments_per_extent s; m_insert := m_insert s;
     m_insert_key := m_insert_key s; m_insert_value := m_insert_value s;
     m_position := m_position s; m_extents_to_rewire := m_extents_to_rewire s |}.

Definition with_position (s : t) (p : Z) : t :=
  {| m_instance := m_instance s; m_window_start := m_window_start s;
     m_window_length := m_window_length s; m_cardinality := m_cardinality s;
     m_segments_per_extent := m_segments_per_extent s; m_insert := m_insert s;
     m_insert_key := m_insert_key s; m_insert_value := m_insert_value s;
     m_position := p; m_extents_to_rewire := m_extents_to_rewire s |}.

Definition with_extents_to_rewire (s : t) (q : list Extent2Rewire) : t :=
  {| m_instance := m_instance s; m_window_start := m_window_start s;
     m_window_length := m_window_length s; m_cardinality := m_cardinality s;
     m_segments_per_extent := m_segments_per_extent s; m_insert := m_insert s;
     m_insert_key := m_insert_key s; m_insert_value := m_insert_value s;
     m_position := m_position s; m_extents_to_rewire := q |}.

Definition with_insert (s : t) (b : bool) (k v : Z) : t :=
  {| m_instance := m_instance s; m_window_start := m_window_start s;
     m_window_length := m_window_length s; m_cardinality := m_cardinality s;
     m_segments_per_extent := m_segments_per_extent s; m_insert := b;
     m_insert_key := k; m_insert_value := v;
     m_position := m_position s; m_extents_to_rewire := m_extents_to_rewire s |}.

Definition get_segment_capacity (s : t) : Z :=
  m_segment_capacity (m_storage (m_instance s)).

Definition position2segment (s : t) (position : Z) : Z :=
  position / get_segment_capacity s.

Definition position2extent (s : t) (position : Z) : Z :=
  let segment := position2segment s (position - m_window_start s * get_segment_capacity s) in
  segment / m_segments_per_extent s.

Definition extent2segment (s : t) (extent : Z) : Z :=
  m_window_start s + extent * m_segments_per_extent s.

Definition get_current_extent (s : t) : Z :=
  position2extent s (m_position s - 1).

Definition get_offset (s : t) (relative_extent_id : Z) : Z :=
  m_window_start s * get_segment_capacity s
  + relative_extent_id * m_segments_per_extent s * get_segment_capacity s.

(** [acquire_free_space]: a scratch extent for the keys and one for the
    values; their cells hold whatever the spare physical extent held. *)
Definition acquire_free_space (pf : Platform) (s : t) : t * list Z * list Z :=
  let i := m_instance s in
  let st := m_storage i in
  let st := with_memory st (on_memory acquire_buffer (m_memory_keys st))
                           (on_memory acquire_buffer (m_memory_values st)) in
  let n := m_segments_per_extent s * get_segment_capacity s in
  (with_instance s (with_storage i st), fresh pf n, fresh pf n).

(** [rewire_keys] followed by [rewire_values]: the extent of the live
    arrays now shows the bytes of the scratch buffers, which are
    released. *)
Definition rewire (s : t) (extent_id : Z) (keys_src values_src : list Z) : t :=
  let i := m_instance s in
  let st := m_storage i in
  let st := with_keys st (blit (m_keys st) (get_offset s extent_id) keys_src) in
  let st := with_values st (blit (m_values st) (get_offset s extent_id) values_src) in
  let st := with_memory st (on_memory swap_and_release (m_memory_keys st))
                           (on_memory swap_and_release (m_memory_values st)) in
  with_instance s (with_storage i st).

(** [reclaim_past_extents]: the loop over the front of the queue. *)
Fixpoint reclaim_loop (s : t) (current_extent_id : Z) (q : list Extent2Rewire) : t :=
  match q with
  | [] => with_extents_to_rewire s []
  | metadata :: rest =>
      if current_extent_id <? m_extent_id metadata
      then reclaim_loop
             (rewire s (m_extent_id metadata) (m_buffer_keys metadata) (m_buffer_values metadata))
             current_extent_id rest
      else with_extents_to_rewire s q
  end.

Definition reclaim_past_extents (s : t) : t :=
  reclaim_loop s (get_current_extent s) (m_extents_to_rewire s).

(** The cursor on the input of [spread_elements]. *)
Record Input := {
  input_segment_id : Z;
  input_displacement : Z;
  input_run_sz : Z
}.

(** The inner [while(output_run_sz > 0)] of [spread_elements].  [dk], [dv]
    are the destination arrays, [off] the offset of [output_keys] in
    them; [live] tells whether the destination is the live arrays, which
    are then also the arrays that are read. *)
Fixpoint spread_run (n : nat) (B window_start : Z) (sizes : list Z)
  (live : bool) (keys values : list Z)
  (dk dv : list Z) (off : Z) (inp : Input) (output_run_sz : Z)
  : list Z * list Z * Input :=
  match n with
  | O => (dk, dv, inp)
  | S n' =>
      if 0 <? output_run_sz then
        let src_k := if live then dk else keys in
        let src_v := if live then dv else values in
        let elements_to_copy := Z.min output_run_sz (input_run_sz inp) in
        let input_copy_offset := input_run_sz inp - elements_to_copy in
        let output_copy_offset := output_run_sz - elements_to_copy in
        let dk := memcpy dk (off + output_copy_offset) src_k
                    (input_displacement inp + input_copy_offset) elements_to_copy in
        let dv := memcpy dv (off + output_copy_offset) src_v
                    (input_displacement inp + input_copy_offset) elements_to_copy in
        let run := input_run_sz inp - elements_to_copy in
        let output_run_sz := output_run_sz - elements_to_copy in
        let inp :=
          if run =? 0 then
            let id := input_segment_id inp - 2 in
            if window_start <=? id
            then {| input_segment_id := id;
                    input_displacement := id * B + B - get sizes id;
                    input_run_sz := get sizes id + get sizes (id + 1) |}
            else {| input_segment_id := id;
                    input_displacement := window_start * B;
                    input_run_sz := run |}
          else {| input_segment_id := input_segment_id inp;
                  input_displacement := input_displacement inp;
                  input_run_sz := run |} in
        spread_run n' B window_start sizes live keys values dk dv off inp output_run_sz
      else (dk, dv, inp)
  end.

(** The outer [for(output_segment_id = m_segments_per_extent - 2; ...;
    output_segment_id -= 2)] of [spread_elements]; [base] is the offset of
    [destination_keys] in [dk]. *)
Fixpoint spread_pairs (n : nat) (B window_start : Z) (sizes : list Z)
  (live : bool) (keys values : list Z)
  (dk dv : list Z) (base : Z) (inp : Input)
  (elements_per_segment odd_segments output_segment_id : Z)
  : list Z * list Z * Input :=
  match n with
  | O => (dk, dv, inp)
  | S n' =>
      if 0 <=? output_segment_id then
        let output_run_sz_lhs := elements_per_segment + b2z (output_segment_id <? odd_segments) in
        let output_run_sz_rhs := elements_per_segment + b2z (output_segment_id + 1 <? odd_segments) in
        let output_run_sz := output_run_sz_lhs + output_run_sz_rhs in
        let output_displacement := output_segment_id * B + (B - output_run_sz_lhs) in
        let '(dk, dv, inp) :=
          spread_run (Z.to_nat (output_run_sz + input_segment_id inp + 2))
            B window_start sizes live keys values dk dv (base + output_displacement)
            inp output_run_sz in
        spread_pairs n' B window_start sizes live keys values dk dv base inp
          elements_per_segment odd_segments (output_segment_id - 2)
      else (dk, dv, inp)
  end.

(** [spread_elements].  [buffer] is [None] when the destination is the
    extent [extent_id] of the live arrays, and the pair of scratch buffers
    otherwise.  Returns the scratch buffers as they were left. *)
Definition spread_elements (s : t) (buffer : option (list Z * list Z))
  (extent_id num_elements : Z) : t * list Z * list Z :=
  let i := m_instance s in
  let st := m_storage i in
  let elements_per_segment := num_elements / m_segments_per_extent s in
  let odd_segments := num_elements mod m_segments_per_extent s in
  let segment_sizes := m_segment_sizes st in
  let segment_capacity := get_segment_capacity s in
  (* int64_t divided by size_t: the division is unsigned *)
  let input_segment_id := i64 (u64 (m_position s - 1) / (2 * segment_capacity) * 2) in
  let input_initial_displacement :=
    input_segment_id * segment_capacity + segment_capacity - get segment_sizes input_segment_id in
  let inp := {| input_segment_id := input_segment_id;
                input_displacement := input_initial_displacement;
                input_run_sz := m_position s - input_initial_displacement |} in
  let n := Z.to_nat (m_segments_per_extent s / 2) in
  let first := m_segments_per_extent s - 2 in
  match buffer with
  | None =>
      let '(k, v, inp) :=
        spread_pairs n segment_capacity (m_window_start s) segment_sizes true
          (m_keys st) (m_values st) (m_keys st) (m_values st) (get_offset s extent_id)
          inp elements_per_segment odd_segments first in
      let st := with_values (with_keys st k) v in
      (with_position (with_instance s (with_storage i st))
         (input_displacement inp + input_run_sz inp), [], [])
  | Some (bk, bv) =>
      let '(bk, bv, inp) :=
        spread_pairs n segment_capacity (m_window_start s) segment_sizes false
          (m_keys st) (m_values st) bk bv 0
          inp elements_per_segment odd_segments first in
      (with_position s (input_displacement inp + input_run_sz inp), bk, bv)
  end.

(** [spread_extent] *)
Definition spread_extent (pf : Platform) (s : t) (extent_id num_elements : Z) : t :=
  let use_rewiring := extent_id <=? get_current_extent s in
  let s :=
    if negb use_rewiring then
      let '(s, _, _) := spread_elements s None extent_id num_elements in s
    else
      let '(s, buffer_keys, buffer_values) := acquire_free_space pf s in
      let '(s, buffer_keys, buffer_values) :=
        spread_elements s (Some (buffer_keys, buffer_values)) extent_id num_elements in
      with_extents_to_rewire s
        (m_extents_to_rewire s ++
           [{| m_extent_id := extent_id; m_buffer_keys := buffer_keys;
               m_buffer_values := buffer_values |}]) in
  reclaim_past_extents s.

(** [spread_window] *)
Definition spread_window (pf : Platform) (s : t) : t :=
  let num_extents := m_window_length s / m_segments_per_extent s in
  let elements_per_extent := m_cardinality s / num_extents in
  let odd_extents := m_cardinality s mod num_extents in
  fold_left (fun s i => spread_extent pf s i (elements_per_extent + b2z (i <? odd_extents)))
            (zrange_down (num_extents - 1) (Z.to_nat num_extents)) s.

(** [update_segment_sizes] *)
Definition update_segment_sizes (s : t) : t :=
  let num_extents := m_window_length s / m_segments_per_extent s in
  let elements_per_extent := m_cardinality s / num_extents in
  let odd_extents := m_cardinality s mod num_extents in
  let i := m_instance s in
  let st := m_storage i in
  let '(sizes, _) :=
    fold_left
      (fun '(sizes, segment_id) i =>
         let extent_cardinality := elements_per_extent + b2z (i <? odd_extents) in
         let num_segments := m_segments_per_extent s in
         let elements_per_segment := extent_cardinality / num_segments in
         let odd_segments := extent_cardinality mod num_segments in
         fold_left
           (fun '(sizes, segment_id) j =>
              (set sizes segment_id (elements_per_segment + b2z (j <? odd_segments)),
               segment_id + 1))
           (zrange 0 (Z.to_nat num_segments)) (sizes, segment_id))
      (zrange 0 (Z.to_nat num_extents)) (m_segment_sizes st, m_window_start s) in
  with_instance s (with_storage i (with_sizes st sizes)).

(** [insert(segment_id)] *)
Definition insert (s : t) (segment_id : Z) : t :=
  let '(i, _) :=
    storage_insert_unsafe (m_instance s) segment_id (m_insert_key s) (m_insert_value s) in
  with_insert (with_instance s i) false (m_insert_key s) (m_insert_value s).

(** [update_index] *)
Definition update_index (s : t) : t :=
  let s :=
    fold_left
      (fun s i =>
         let segment_id := m_window_start s + i in
         let minimum := get_minimum (m_storage (m_instance s)) segment_id in
         let '(s, minimum) :=
           if m_insert s && (m_insert_key s <? minimum) then
             if 0 <? i then (insert s (segment_id - 1), minimum)
             else (insert s segment_id, m_insert_key s)
           else (s, minimum) in
         let inst := m_instance s in
         with_instance s
           (with_index inst (set_separator_key (m_index inst) segment_id minimum)))
      (zrange 0 (Z.to_nat (m_window_length s))) s in
  if m_insert s then insert s (m_window_start s + m_window_length s - 1) else s.

(** The constructor. *)
Definition make (instance : BTreePMACC7) (window_start window_length cardinality : Z) : t :=
  let st := m_storage instance in
  let extent_size :=
    match m_memory_keys st with
    | Some m => get_extent_size m
    | None => 0
    end in
  let window_end := window_start + window_length - 1 in
  {| m_instance := instance; m_window_start := window_start;
     m_window_length := window_length; m_cardinality := cardinality;
     m_segments_per_extent := extent_size / (m_segment_capacity st * sizeof_int64);
     m_insert := false; m_insert_key := -1; m_insert_value := -1;
     m_position := window_end * m_segment_capacity st + get (m_segment_sizes st) window_end;
     m_extents_to_rewire := [] |}.

Definition set_element_to_insert (s : t) (key value : Z) : t :=
  with_insert s true key value.

Definition execute (pf : Platform) (s : t) : t :=
  update_index (update_segment_sizes (spread_window pf s)).


End SpreadWithRewiring.

(* ===================================================================== *)
(** * Rebalance                                                           *)
(* ===================================================================== *)

(** [BTreePMACC7::spread] *)
Definition spread (pf : Platform) (t : BTreePMACC7)
  (cardinality segment_start num_segments : Z) (spread_insertion : option spread_insert)
  : BTreePMACC7 :=
  let st := m_storage t in
  match m_memory_keys st with
  | Some mem =>
      if get_extent_size mem <=? num_segments * m_segment_capacity st * sizeof_int64 then
        (* if spread_insertion != nullptr, cardinality already counts the
           element to be inserted *)
        let rewiring_instance :=
          SpreadWithRewiring.make t segment_start num_segments
            (cardinality + match spread_insertion with Some _ => -1 | None => 0 end) in
        let rewiring_instance :=
          match spread_insertion with
          | Some si =>
              SpreadWithRewiring.set_element_to_insert rewiring_instance (m_key si) (m_value si)
          | None => rewiring_instance
          end in
        SpreadWithRewiring.m_instance (SpreadWithRewiring.execute pf rewiring_instance)
      else spread_two_copies pf t cardinality segment_start num_segments spread_insertion
  | None => spread_two_copies pf t cardinality segment_start num_segments spread_insertion
  end.

(** The cursor of [resize_general] on the old arrays. *)
Record ResizeInput := {
  ri_segment_id : Z;
  ri_size : Z;
  ri_pos : Z;
  ri_segment_odd : bool
}.

(** "move to the next input segment" in [resize_general]. *)
Definition resize_next_input (B old_number_segments : Z) (ixSizes : list Z)
  (inp : ResizeInput) : ResizeInput :=
  let input_segment_id := ri_segment_id inp + 1 in
  let input_segment_odd := negb (ri_segment_odd inp) in
  if input_segment_id <? old_number_segments then
    let input_size := get ixSizes input_segment_id in
    let '(input_segment_id, input_segment_odd, input_size) :=
      (* in case of ::remove(), we might find an empty segment, skip it! *)
      if input_size =? 0 then
        let input_segment_id := input_segment_id + 1 in
        let input_segment_odd := negb input_segment_odd in
        if input_segment_id <? old_number_segments
        then (input_segment_id, input_segment_odd, get ixSizes input_segment_id)
        else (input_segment_id, input_segment_odd, input_size)
      else (input_segment_id, input_segment_odd, input_size) in
    let offset := if input_segment_odd then 0 else B - input_size in
    {| ri_segment_id := input_segment_id; ri_size := input_size;
       ri_pos := input_segment_id * B + offset; ri_segment_odd := input_segment_odd |}
  else
    {| ri_segment_id := input_segment_id; ri_size := 0;
       ri_pos := ri_pos inp; ri_segment_odd := input_segment_odd |}.

(** The [do { ... } while(elements_to_copy > 0)] of [resize_general]. *)
Fixpoint resize_copy (n : nat) (B old_number_segments : Z) (ixKeys ixValues ixSizes : list Z)
  (xKeys xValues : list Z) (out : Z) (inp : ResizeInput) (elements_to_copy : Z)
  : list Z * list Z * Z * ResizeInput :=
  match n with
  | O => (xKeys, xValues, out, inp)
  | S n' =>
      let cpy1 := Z.min elements_to_copy (ri_size inp) in
      let xKeys := memcpy xKeys out ixKeys (ri_pos inp) cpy1 in
      let xValues := memcpy xValues out ixValues (ri_pos inp) cpy1 in
      let out := out + cpy1 in
      let inp := {| ri_segment_id := ri_segment_id inp; ri_size := ri_size inp - cpy1;
                    ri_pos := ri_pos inp + cpy1; ri_segment_odd := ri_segment_odd inp |} in
      let inp := if ri_size inp =? 0
                 then resize_next_input B old_number_segments ixSizes inp else inp in
      let elements_to_copy := elements_to_copy - cpy1 in
      if 0 <? elements_to_copy
      then resize_copy n' B old_number_segments ixKeys ixValues ixSizes
             xKeys xValues out inp elements_to_copy
      else (xKeys, xValues, out, inp)
  end.

(** The [for(j = 0; j < num_segments; j++)] of [resize_general]. *)
Fixpoint resize_segments (n : nat) (old_number_segments : Z)
  (ixKeys ixValues ixSizes : list Z) (t : BTreePMACC7) (new_elt : option (Z * Z))
  (inp : ResizeInput) (j elements_per_segment odd_segments : Z) (output_segment_odd : bool)
  : BTreePMACC7 * option (Z * Z) :=
  match n with
  | O => (t, new_elt)
  | S n' =>
      let st := m_storage t in
      let B := m_segment_capacity st in
      let elements_to_copy := elements_per_segment + b2z (j <? odd_segments) in
      let output_offset := if output_segment_odd then 0 else B - elements_to_copy in
      let out := j * B + output_offset in
      let xSizes := set (m_segment_sizes st) j elements_to_copy in
      let ix := set_separator_key (m_index t) j (get ixKeys (ri_pos inp)) in
      let '(xKeys, xValues, out, inp) :=
        resize_copy (Z.to_nat (elements_to_copy + old_number_segments + 2))
          B old_number_segments ixKeys ixValues ixSizes
          (m_keys st) (m_values st) out inp elements_to_copy in
      let t := with_storage (with_index t ix)
                 (with_sizes (with_values (with_keys st xKeys) xValues) xSizes) in
      (* should we insert a new element in this bucket *)
      let '(t, new_elt) :=
        match new_elt with
        | Some (new_key, new_value) =>
            if new_key <? get xKeys (out - 1) then
              let '(t, min) := storage_insert_unsafe t j new_key new_value in
              (if min then with_index t (set_separator_key (m_index t) j new_key) else t,
               None)
            else (t, new_elt)
        | None => (t, None)
        end in
      resize_segments n' old_number_segments ixKeys ixValues ixSizes t new_elt inp
        (j + 1) elements_per_segment odd_segments (negb output_segment_odd)
  end.

Definition with_geometry (st : PMA) (capacity num_segments height : Z) : PMA :=
  {| m_keys := m_keys st; m_values := m_values st;
     m_segment_sizes := m_segment_sizes st;
     m_segment_capacity := m_segment_capacity st;
     m_pages_per_extent := m_pages_per_extent st; m_height := height;
     m_cardinality := m_cardinality st; m_capacity := capacity;
     m_number_segments := num_segments;
     m_memory_keys := m_memory_keys st; m_memory_values := m_memory_values st |}.

Definition install_workspace (st : PMA) (ws : Workspace) : PMA :=
  with_memory (with_sizes (with_values (with_keys st (ws_keys ws)) (ws_values ws)) (ws_sizes ws))
    (ws_memory_keys ws) (ws_memory_values ws).

(** [BTreePMACC7::resize_general] *)
Definition resize_general (pf : Platform) (t : BTreePMACC7) (new_elt : option (Z * Z))
  : BTreePMACC7 :=
  let st := m_storage t in
  let B := m_segment_capacity st in
  let is_insert := match new_elt with Some _ => true | None => false end in
  let capacity := if is_insert then m_capacity st * 2 else m_capacity st / 2 in
  let num_segments := capacity / B in
  let elements_per_segment := m_cardinality st / num_segments in
  let odd_segments := m_cardinality st mod num_segments in
  (* rebuild the PMAs *)
  let ixKeys := m_keys st in
  let ixValues := m_values st in
  let ixSizes := m_segment_sizes st in
  let ws := alloc_workspace pf B (m_pages_per_extent st) num_segments in
  let t := with_index (with_storage t (install_workspace st ws)) (rebuild pf num_segments) in
  (* fetch the first non-empty input segment *)
  let input_size := get ixSizes 0 in
  let inp :=
    if input_size =? 0
    then {| ri_segment_id := 1; ri_size := get ixSizes 1; ri_pos := B; ri_segment_odd := true |}
    else {| ri_segment_id := 0; ri_size := input_size; ri_pos := B - input_size;
            ri_segment_odd := false |} in
  (* start copying the elements *)
  let '(t, new_elt) :=
    resize_segments (Z.to_nat num_segments) (m_number_segments st) ixKeys ixValues ixSizes
      t new_elt inp 0 elements_per_segment odd_segments false in
  (* if the element hasn't been inserted yet, it means it has to be placed
     in the last segment *)
  let t :=
    match new_elt with
    | Some (new_key, new_value) =>
        let '(t, min) := storage_insert_unsafe t (num_segments - 1) new_key new_value in
        if min then with_index t (set_separator_key (m_index t) (num_segments - 1) new_key)
        else t
    | None => t
    end in
  (* update the PMA properties *)
  with_storage t (with_geometry (m_storage t) capacity num_segments (Z.log2 num_segments + 1)).

Definition Qgtb (a b : Q) : bool := negb (Qle_bool a b).
Definition Qltb (a b : Q) : bool := negb (Qle_bool b a).

Definition density_of (num_elements slots : Z) : Q :=
  inject_Z num_elements / inject_Z slots.

(** The state of the window search of [rebalance]. *)
Record Window := {
  w_height : Z;
  w_length : Z;
  w_id : Z;
  w_start : Z;
  w_end : Z;
  w_rho : Q;
  w_theta : Q;
  w_density : Q;
  w_num_elements : Z;
  w_index_left : Z;
  w_index_right : Z
}.

(** The [do { ... } while(...)] of [rebalance]. *)
Fixpoint find_window (n : nat) (t : BTreePMACC7) (is_insert : bool) (w : Window) : Window :=
  match n with
  | O => w
  | S n' =>
      let st := m_storage t in
      let sizes := m_segment_sizes st in
      let height := w_height w + 1 in
      let window_length := w_length w * 2 in
      let window_id := w_id w / 2 in
      let window_start := window_id * window_length in
      let window_end := window_start + window_length in
      let density_bounds := thresholds (m_density_bounds t) (m_height st) height in
      (* find the number of elements in the interval *)
      let nleft := Z.to_nat (w_index_left w - window_start + 1) in
      let num_elements :=
        fold_left (fun acc i => acc + get sizes i) (zrange_down (w_index_left w) nleft)
                  (w_num_elements w) in
      let index_left := w_index_left w - Z.of_nat nleft in
      let nright := Z.to_nat (window_end - w_index_right w) in
      let num_elements :=
        fold_left (fun acc i => acc + get sizes i) (zrange (w_index_right w) nright)
                  num_elements in
      let index_right := w_index_right w + Z.of_nat nright in
      let density := density_of num_elements (window_length * m_segment_capacity st) in
      let w := {| w_height := height; w_length := window_length; w_id := window_id;
                  w_start := window_start; w_end := window_end;
                  w_rho := fst density_bounds; w_theta := snd density_bounds;
                  w_density := density; w_num_elements := num_elements;
                  w_index_left := index_left; w_index_right := index_right |} in
      if ((is_insert && Qgtb density (w_theta w)) || (negb is_insert && Qltb density (w_rho w)))
         && (height <? m_height st)
      then find_window n' t is_insert w
      else w
  end.

(** [BTreePMACC7::rebalance] *)
Definition rebalance (pf : Platform) (t : BTreePMACC7) (segment_id : Z)
  (new_elt : option (Z * Z)) : BTreePMACC7 :=
  let st := m_storage t in
  let is_insert := match new_elt with Some _ => true | None => false end in
  let num_elements :=
    if is_insert then m_segment_capacity st + 1 else get (m_segment_sizes st) segment_id in
  let w := {| w_height := 1; w_length := 1; w_id := segment_id;
              w_start := segment_id; w_end := segment_id;
              w_rho := 0; w_theta := 1;
              w_density := density_of num_elements (m_segment_capacity st);
              w_num_elements := num_elements;
              w_index_left := segment_id - 1; w_index_right := segment_id + 1 |} in
  let w := if 1 <? m_height st
           then find_window (Z.to_nat (m_height st - 1)) t is_insert w else w in
  if (is_insert && Qle_bool (w_density w) (w_theta w))
     || (negb is_insert && Qle_bool (w_rho w) (w_density w))
  then
    spread pf t (w_num_elements w) (w_start w) (w_length w)
      match new_elt with
      | Some (key, value) => Some {| m_key := key; m_value := value; m_segment_id := segment_id |}
      | None => None
      end
  else resize_general pf t new_elt.

(** [BTreePMACC7::insert_common] *)
Definition insert_common (pf : Platform) (t : BTreePMACC7) (segment_id key value : Z)
  : BTreePMACC7 :=
  let st := m_storage t in
  let bucket_cardinality := get (m_segment_sizes st) segment_id in
  if bucket_cardinality =? m_segment_capacity st then
    rebalance pf t segment_id (Some (key, value))
  else
    let '(t, minimum_updated) := storage_insert_unsafe t segment_id key value in
    if minimum_updated then with_index t (set_separator_key (m_index t) segment_id key)
    else t.

(** [BTreePMACC7::insert] *)
Definition insert (pf : Platform) (t : BTreePMACC7) (key value : Z) : BTreePMACC7 :=
  if empty t then insert_empty t key value
  else insert_common pf t (index_find (m_index t) key) key value.

(* ===================================================================== *)
(** * Remove                                                              *)
(* ===================================================================== *)

(** [for( ; i < stop; i++){ if(keys[i] == key) break; }] *)
Fixpoint scan_key (n : nat) (keys : list Z) (base i stop key : Z) : Z :=
  match n with
  | O => i
  | S n' =>
      if i <? stop then
        if get keys (base + i) =? key then i
        else scan_key n' keys base (i + 1) stop key
      else i
  end.

(** The outcome of the deletion inside the segment: the new state, the
    value that is returned, the segment and its new size [sz]. *)
Definition remove_local (t : BTreePMACC7) (key : Z) : BTreePMACC7 * Z * Z * Z :=
  let st := m_storage t in
  let B := m_segment_capacity st in
  let segment_id := index_find (m_index t) key in
  let base := segment_id * B in
  let sz := get (m_segment_sizes st) segment_id in
  if segment_id mod 2 =? 0 then (* even *)
    let imin := B - sz in
    let i := scan_key (Z.to_nat (B - imin)) (m_keys st) base imin B key in
    if i <? B then (* found ? *)
      let value := get (m_values st) (base + i) in
      (* shift the rest of the elements by 1 *)
      let js := zrange_down i (Z.to_nat (i - imin)) in
      let keys := fold_left (fun ks j => set ks (base + j) (get ks (base + j - 1))) js (m_keys st) in
      let values := fold_left (fun vs j => set vs (base + j) (get vs (base + j - 1))) js (m_values st) in
      let sz := sz - 1 in
      let st := with_keys st keys in
      let st := with_values st values in
      let st := with_sizes st (set (m_segment_sizes st) segment_id sz) in
      let st := with_cardinality st (m_cardinality st - 1) in
      let ix :=
        if i =? imin then (* update the pivot *)
          if m_cardinality st =? 0
          then set_separator_key (m_index t) 0 int64_min
          else set_separator_key (m_index t) segment_id (get keys (base + imin + 1))
        else m_index t in
      (with_storage (with_index t ix) st, value, segment_id, sz)
    else (t, -1, segment_id, sz)
  else (* odd *)
    let i := scan_key (Z.to_nat sz) (m_keys st) base 0 sz key in
    if i <? sz then (* found? *)
      let value := get (m_values st) (base + i) in
      let js := zrange i (Z.to_nat (sz - 1 - i)) in
      let keys := fold_left (fun ks j => set ks (base + j) (get ks (base + j + 1))) js (m_keys st) in
      let values := fold_left (fun vs j => set vs (base + j) (get vs (base + j + 1))) js (m_values st) in
      let sz := sz - 1 in
      let st := with_keys st keys in
      let st := with_values st values in
      let st := with_sizes st (set (m_segment_sizes st) segment_id sz) in
      let st := with_cardinality st (m_cardinality st - 1) in
      let ix :=
        if (i =? 0) && (0 <? sz)
        then set_separator_key (m_index t) segment_id (get keys base)
        else m_index t in
      (with_storage (with_index t ix) st, value, segment_id, sz)
    else (t, -1, segment_id, sz).

(** [max<size_t>(thresholds(1).first * m_segment_capacity, 1)]: the
    product is a [double] that is converted to [size_t], that is,
    truncated. *)
Definition minimum_size (t : BTreePMACC7) : Z :=
  let st := m_storage t in
  let rho_1 := fst (thresholds (m_density_bounds t) (m_height st) 1) in
  Z.max (Qfloor (rho_1 * inject_Z (m_segment_capacity st))) 1.

(** "shall we rebalance ?" *)
Definition shall_rebalance (t : BTreePMACC7) (value sz : Z) : bool :=
  negb (value =? -1) && (1 <? m_number_segments (m_storage t))
  && (sz <? minimum_size t).

(** [BTreePMACC7::remove] *)
Definition remove (pf : Platform) (t : BTreePMACC7) (key : Z) : BTreePMACC7 * Z :=
  if empty t then (t, -1)
  else
    let '(t', value, segment_id, sz) := remove_local t key in
    if shall_rebalance t' value sz
    then (rebalance pf t' segment_id None, value)
    else (t', value).

(* ===================================================================== *)
(** * Search                                                              *)
(* ===================================================================== *)

(** [BTreePMACC7::find(int64_t key)] *)
Definition find (t : BTreePMACC7) (key : Z) : Z :=
  if empty t then -1
  else
    let st := m_storage t in
    let B := m_segment_capacity st in
    let segment_id := index_find (m_index t) key in
    let base := segment_id * B in
    let sz := get (m_segment_sizes st) segment_id in
    let '(start, stop) := if segment_id mod 2 =? 0 then (B - sz, B) else (0, sz) in
    let i := scan_key (Z.to_nat (stop - start)) (m_keys st) base start stop key in
    if i <? stop then get (m_values st) (segment_id * B + i) else -1.

(* ===================================================================== *)
(** * Iterator                                                            *)
(* ===================================================================== *)

(** [while(offset < stop && keys[offset] < key_min) offset++;] *)
Fixpoint skip_below (n : nat) (keys : list Z) (offset stop key_min : Z) : Z :=
  match n with
  | O => offset
  | S n' =>
      if (offset <? stop) && (get keys offset <? key_min)
      then skip_below n' keys (offset + 1) stop key_min
      else offset
  end.

(** [while(offset >= stop && keys[offset] > key_max) offset--;] *)
Fixpoint skip_above (n : nat) (keys : list Z) (offset stop key_max : Z) : Z :=
  match n with
  | O => offset
  | S n' =>
      if (stop <=? offset) && (key_max <? get keys offset)
      then skip_above n' keys (offset - 1) stop key_max
      else offset
  end.

(** The cursor of the two interval searches. *)
Record Cursor := {
  c_notfound : bool;
  c_segment_id : Z;
  c_segment_even : bool;
  c_start : Z;
  c_stop : Z;
  c_offset : Z
}.

(** "start of the interval": [while(notfound && segment_id <
    m_number_segments)]. *)
Fixpoint lower_interval (n : nat) (st : PMA) (key_min : Z) (c : Cursor) : Cursor :=
  match n with
  | O => c
  | S n' =>
      if c_notfound c && (c_segment_id c <? m_number_segments st) then
        let segment_id := c_segment_id c in
        let '(start, stop) :=
          if c_segment_even c then
            let stop := (segment_id + 1) * m_segment_capacity st in
            (stop - get (m_segment_sizes st) segment_id, stop)
          else
            let start := segment_id * m_segment_capacity st in
            (start, start + get (m_segment_sizes st) segment_id) in
        let offset := skip_below (Z.to_nat (stop - start)) (m_keys st) start stop key_min in
        let notfound := offset =? stop in
        lower_interval n' st key_min
          {| c_notfound := notfound;
             c_segment_id := if notfound then segment_id + 1 else segment_id;
             c_segment_even := if notfound then negb (c_segment_even c) else c_segment_even c;
             c_start := start; c_stop := stop; c_offset := offset |}
      else c
  end.

(** "find the last qualifying index": [while(notfound && segment_id >=
    interval_start_segment)]. *)
Fixpoint upper_interval (n : nat) (st : PMA) (key_max interval_start_segment : Z)
  (c : Cursor) : Cursor :=
  match n with
  | O => c
  | S n' =>
      if c_notfound c && (interval_start_segment <=? c_segment_id c) then
        let segment_id := c_segment_id c in
        let '(start, stop) :=
          if c_segment_even c then
            let start := (segment_id + 1) * m_segment_capacity st - 1 in
            (start, start - get (m_segment_sizes st) segment_id)
          else
            let stop := segment_id * m_segment_capacity st in
            (stop + get (m_segment_sizes st) segment_id - 1, stop) in
        let offset := skip_above (Z.to_nat (start - stop + 1)) (m_keys st) start stop key_max in
        let notfound := offset <? stop in
        upper_interval n' st key_max interval_start_segment
          {| c_notfound := notfound;
             c_segment_id := if notfound then segment_id - 1 else segment_id;
             c_segment_even := if notfound then negb (c_segment_even c) else c_segment_even c;
             c_start := start; c_stop := stop; c_offset := offset |}
      else c
  end.

Module Iterator.

Record t := {
  m_pma : PMA;
  m_next_segment : Z;
  m_offset : Z;
  m_stop : Z;
  m_index_max : Z
}.

(** [Iterator::Iterator(const PMA& storage)], the empty iterator. *)
Definition make_empty (storage : PMA) : t :=
  {| m_pma := storage; m_next_segment := 0; m_offset := 0; m_stop := 0; m_index_max := 0 |}.

(** [Iterator::Iterator(storage, segment_start, segment_end, key_min,
    key_max)] *)
Definition make (storage : PMA) (segment_start segment_end key_min key_max : Z)
  : exception + t :=
  if segment_end <? segment_start then inl invalid_argument
  else if m_number_segments storage <=? segment_end then inr (make_empty storage)
  else
    let keys := m_keys storage in
    let c :=
      lower_interval (Z.to_nat (m_number_segments storage - segment_start)) storage key_min
        {| c_notfound := true; c_segment_id := segment_start;
           c_segment_even := segment_start mod 2 =? 0;
           c_start := -1; c_stop := -1; c_offset := -1 |} in
    let segment_id := c_segment_id c in
    let offset0 := c_offset c in
    let next_segment := segment_id + 1 in
    let '(stop0, next_segment) :=
      if c_segment_even c && (next_segment <? m_number_segments storage)
      then (next_segment * m_segment_capacity storage
            + get (m_segment_sizes storage) next_segment, next_segment + 1)
      else (c_stop c, next_segment) in
    if c_notfound c || (key_max <? get keys offset0) then
      inr {| m_pma := storage; m_next_segment := next_segment; m_offset := offset0;
             m_stop := 0; m_index_max := 0 |}
    else
      let c' :=
        upper_interval (Z.to_nat (segment_end - segment_id + 1)) storage key_max segment_id
          {| c_notfound := true; c_segment_id := segment_end;
             c_segment_even := segment_end mod 2 =? 0;
             c_start := c_start c; c_stop := c_stop c; c_offset := c_offset c |} in
      if c_offset c' <? offset0 then
        inr {| m_pma := storage; m_next_segment := next_segment; m_offset := offset0;
               m_stop := 0; m_index_max := 0 |}
      else
        let index_max := c_offset c' + 1 in
        inr {| m_pma := storage; m_next_segment := next_segment; m_offset := offset0;
               m_stop := Z.min index_max stop0; m_index_max := index_max |}.

(** [Iterator::next_sequence] *)
Definition next_sequence (it : t) : t :=
  let pma := m_pma it in
  let B := m_segment_capacity pma in
  let segment1 := m_next_segment it in
  if segment1 <? m_number_segments pma then
    if segment1 mod 2 =? 0 then
      let offset := segment1 * B + B - get (m_segment_sizes pma) segment1 in
      let segment2 := segment1 + 1 in
      let stop := segment2 * B in
      let stop :=
        if segment2 <? m_number_segments pma
        then Z.min (stop + get (m_segment_sizes pma) segment2) (m_index_max it)
        else Z.min stop (m_index_max it) in
      {| m_pma := pma; m_next_segment := m_next_segment it + 2; m_offset := offset;
         m_stop := stop; m_index_max := m_index_max it |}
    else
      let offset := segment1 * B in
      {| m_pma := pma; m_next_segment := m_next_segment it + 1; m_offset := offset;
         m_stop := Z.min (m_index_max it) (offset + get (m_segment_sizes pma) segment1);
         m_index_max := m_index_max it |}
  else it.

(** [Iterator::hasNext] *)
Definition hasNext (it : t) : bool := m_offset it <? m_stop it.

(** [Iterator::next] *)
Definition next (it : t) : t * (Z * Z) :=
  let result := (get (m_keys (m_pma it)) (m_offset it), get (m_values (m_pma it)) (m_offset it)) in
  let it := {| m_pma := m_pma it; m_next_segment := m_next_segment it;
               m_offset := m_offset it + 1; m_stop := m_stop it;
               m_index_max := m_index_max it |} in
  (if m_stop it <=? m_offset it then next_sequence it else it, result).

(** The client loop [while(it->hasNext()){ ... it->next() ... }]. *)
Fixpoint drain (n : nat) (it : t) : list (Z * Z) :=
  match n with
  | O => []
  | S n' =>
      if hasNext it then
        let '(it, result) := next it in
        result :: drain n' it
      else []
  end.

(** All the pairs that an iterator yields; it never yields more pairs
    than the arrays have cells. *)
Definition to_list (it : t) : list (Z * Z) :=
  drain (length (m_keys (m_pma it))) it.

End Iterator.

(** [BTreePMACC7::empty_iterator] *)
Definition empty_iterator (t : BTreePMACC7) : Iterator.t :=
  Iterator.make_empty (m_storage t).

(** [BTreePMACC7::find(int64_t min, int64_t max)] *)
Definition find_range (t : BTreePMACC7) (min max : Z) : exception + Iterator.t :=
  if empty t then inr (empty_iterator t)
  else Iterator.make (m_storage t) (index_find_first (m_index t) min)
         (index_find_last (m_index t) max) min max.

(** [BTreePMACC7::iterator] *)
Definition iterator (t : BTreePMACC7) : exception + Iterator.t :=
  if empty t then inr (empty_iterator t)
  else Iterator.make (m_storage t) 0 (m_number_segments (m_storage t) - 1)
         int64_min int64_max.

(* ===================================================================== *)
(** * Aggregate sum                                                       *)
(* ===================================================================== *)

(** Modelled from the spec: [pma::Interface::SumResult] (pma/interface.hpp
    is missing), section 4.12: the count, the two sums and the first and
    last key, all zero in [SumResult{}].  The count is an unsigned and the
    other fields are signed 64-bit integers: the additions of [sum] wrap. *)
Record SumResult := {
  m_first_key : Z;
  m_last_key : Z;
  m_num_elements : Z;
  m_sum_keys : Z;
  m_sum_values : Z
}.

Definition SumResult_empty : SumResult :=
  {| m_first_key := 0; m_last_key := 0; m_num_elements := 0;
     m_sum_keys := 0; m_sum_values := 0 |}.

(** The accumulation loop [while(offset < end)] of [sum]. *)
Fixpoint sum_loop (n : nat) (st : PMA) (end_ : Z)
  (segment_id offset stop : Z) (acc : SumResult) : SumResult :=
  match n with
  | O => acc
  | S n' =>
      if offset <? end_ then
        let cells := zrange offset (Z.to_nat (stop - offset)) in
        let acc :=
          {| m_first_key := m_first_key acc; m_last_key := m_last_key acc;
             m_num_elements := u64 (m_num_elements acc + (stop - offset));
             m_sum_keys :=
               fold_left (fun a i => i64 (a + get (m_keys st) i)) cells (m_sum_keys acc);
             m_sum_values :=
               fold_left (fun a i => i64 (a + get (m_values st) i)) cells (m_sum_values acc) |} in
        let offset := Z.max offset stop in
        (* next even segment *)
        let segment_id := segment_id + 1 + b2z (segment_id mod 2 =? 0) in
        if segment_id <? m_number_segments st then
          let size_lhs := get (m_segment_sizes st) segment_id in
          let size_rhs := get (m_segment_sizes st) (segment_id + 1) in
          let offset := (segment_id + 1) * m_segment_capacity st - size_lhs in
          sum_loop n' st end_ segment_id offset (Z.min end_ (offset + size_lhs + size_rhs)) acc
        else sum_loop n' st end_ segment_id offset stop acc
      else acc
  end.

(** [BTreePMACC7::sum] *)
Definition sum (t : BTreePMACC7) (min max : Z) : SumResult :=
  if (max <? min) || empty t then SumResult_empty
  else
    let st := m_storage t in
    let segment_start := index_find_first (m_index t) min in
    let segment_end := index_find_last (m_index t) max in
    if segment_end <? segment_start then SumResult_empty
    else
      let keys := m_keys st in
      (* start of the interval *)
      let c :=
        lower_interval (Z.to_nat (m_number_segments st - segment_start)) st min
          {| c_notfound := true; c_segment_id := segment_start;
             c_segment_even := segment_start mod 2 =? 0;
             c_start := -1; c_stop := -1; c_offset := -1 |} in
      let segment_id := c_segment_id c in
      let offset := c_offset c in
      let stop :=
        if c_segment_even c && (segment_id <? m_number_segments st - 1)
        then (segment_id + 1) * m_segment_capacity st + get (m_segment_sizes st) (segment_id + 1)
        else c_stop c in
      if c_notfound c || (max <? get keys offset) then SumResult_empty
      else
        (* find the last qualifying index; the block's own [offset],
           [start], [stop] are indeterminate before its loop: 0 here *)
        let c' :=
          upper_interval (Z.to_nat (segment_end - segment_id + 1)) st max segment_id
            {| c_notfound := true; c_segment_id := segment_end;
               c_segment_even := segment_end mod 2 =? 0;
               c_start := 0; c_stop := 0; c_offset := 0 |} in
        let end_ := c_offset c' + 1 in
        if end_ <=? offset then SumResult_empty
        else
          let stop := Z.min stop end_ in
          let acc :=
            sum_loop (Z.to_nat (m_number_segments st - segment_id + 2)) st end_
              segment_id offset stop
              {| m_first_key := get keys offset; m_last_key := 0; m_num_elements := 0;
                 m_sum_keys := 0; m_sum_values := 0 |} in
          {| m_first_key := m_first_key acc; m_last_key := get keys (end_ - 1);
             m_num_elements := m_num_elements acc;
             m_sum_keys := m_sum_keys acc; m_sum_values := m_sum_values acc |}.

(* ===================================================================== *)
(** * Bulk loading into an empty index                                    *)
(* ===================================================================== *)

Definition first_of (array : list (Z * Z)) (i : Z) : Z :=
  fst (nth (Z.to_nat i) array (0, 0)).

Definition second_of (array : list (Z * Z)) (i : Z) : Z :=
  snd (nth (Z.to_nat i) array (0, 0)).

(** [for(output_current = output_start; output_current < output_end;
    output_current++){ keys[..] = array[array_current].first; ...;
    array_current++; }] *)
Fixpoint load_copy (n : nat) (array : list (Z * Z)) (keys values : list Z)
  (output_current array_current : Z) : list Z * list Z * Z :=
  match n with
  | O => (keys, values, array_current)
  | S n' =>
      load_copy n' array
        (set keys output_current (first_of array array_current))
        (set values output_current (second_of array array_current))
        (output_current + 1) (array_current + 1)
  end.

(** [BTreePMACC7::load_empty_single] *)
Definition load_empty_single (t : BTreePMACC7) (array : list (Z * Z)) : BTreePMACC7 :=
  let st := m_storage t in
  let array_sz := len array in
  let output_start := m_segment_capacity st - array_sz in
  let '(keys, values, _) :=
    load_copy (Z.to_nat array_sz) array (m_keys st) (m_values st) output_start 0 in
  let ix := set_separator_key (m_index t) 0 (first_of array 0) in
  let st := with_values (with_keys st keys) values in
  let st := with_sizes st (set (m_segment_sizes st) 0 array_sz) in
  let st := with_cardinality st array_sz in
  with_storage (with_index t ix) st.

(** Step 4 of [load_empty_multi]: [for(i = 0; i < num_segments; i += 2)]. *)
Fixpoint load_pairs (n : nat) (B : Z) (array : list (Z * Z)) (output_sizes : list Z)
  (keys values : list Z) (ix : StaticIndex) (i array_current : Z)
  : list Z * list Z * StaticIndex :=
  match n with
  | O => (keys, values, ix)
  | S n' =>
      let '(output_start, output_end) := fetch_bounds B output_sizes 0 i in
      let '(keys, values, array_current) :=
        load_copy (Z.to_nat (output_end - output_start)) array keys values
          output_start array_current in
      let ix := set_separator_key ix i (get keys output_start) in
      let ix := set_separator_key ix (i + 1) (get keys (output_start + get output_sizes i)) in
      load_pairs n' B array output_sizes keys values ix (i + 2) array_current
  end.

(** [BTreePMACC7::load_empty_multi] *)
Definition load_empty_multi (pf : Platform) (t : BTreePMACC7) (array : list (Z * Z))
  : BTreePMACC7 :=
  let st := m_storage t in
  let B := m_segment_capacity st in
  let db := m_density_bounds t in
  let array_sz := len array in
  let target_density :=
    ((get_upper_threshold_root db + get_upper_threshold_leaves db) / 2)%Q in
  let capacity := hyperceil (Qceiling (inject_Z array_sz / target_density)%Q) in
  let num_segments := capacity / B in
  let elements_per_segment := array_sz / num_segments in
  let odd_segments := array_sz mod num_segments in
  (* 1) build the index *)
  let ix := rebuild pf num_segments in
  (* 2) build the PMA *)
  let st := install_workspace st (alloc_workspace pf B (m_pages_per_extent st) num_segments) in
  (* 3) set the size of each segment *)
  let output_sizes := set_expected_sizes (m_segment_sizes st) 0 num_segments array_sz in
  (* 4) copy the elements into the sparse arrays *)
  let '(keys, values, ix) :=
    load_pairs (Z.to_nat ((num_segments + 1) / 2)) B array output_sizes
      (m_keys st) (m_values st) ix 0 0 in
  (* 5) update the PMA properties *)
  let st := with_sizes (with_values (with_keys st keys) values) output_sizes in
  let st := with_cardinality st array_sz in
  let st := with_geometry st capacity num_segments (Z.log2 num_segments + 1) in
  with_storage (with_index t ix) st.

(** [BTreePMACC7::load_empty] *)
Definition load_empty (pf : Platform) (t : BTreePMACC7) (array : list (Z * Z))
  : BTreePMACC7 :=
  let st := m_storage t in
  if Qle_bool (inject_Z (len array))
       (inject_Z (m_segment_capacity st) * get_upper_threshold_leaves (m_density_bounds t))%Q
  then load_empty_single t array
  else load_empty_multi pf t array.

(** [BTreePMACC7::load_sorted].  [merge] stands for the path of a batch
    into an index that already holds elements ([load_generate_runs],
    [load_fuse_runs], then [load_spread] or [load_resize]). *)
Definition load_sorted (pf : Platform)
  (merge : BTreePMACC7 -> list (Z * Z) -> BTreePMACC7)
  (t : BTreePMACC7) (array : list (Z * Z)) : BTreePMACC7 :=
  if len array =? 0 then t (* nothing to load *)
  else if empty t then load_empty pf t array
  else merge t array.

(* ===================================================================== *)
(** * The abstract view of a state                                        *)
(* ===================================================================== *)

(** First cell and size of the packed run of a segment: even segments are
    packed against their right edge, odd segments against their left
    edge. *)
Definition run_start (st : PMA) (s : Z) : Z :=
  if s mod 2 =? 0
  then (s + 1) * m_segment_capacity st - get (m_segment_sizes st) s
  else s * m_segment_capacity st.

Definition run_cells (st : PMA) (s : Z) : list Z :=
  zrange (run_start st s) (Z.to_nat (get (m_segment_sizes st) s)).

(** The cells that hold an element, in segment order 0..S-1. *)
Definition cells (st : PMA) : list Z :=
  flat_map (run_cells st) (zrange 0 (Z.to_nat (m_number_segments st))).

(** The key sequence and the pairs of the traversal in segment order. *)
Definition traversal (st : PMA) : list Z := map (get (m_keys st)) (cells st).

Definition contents (st : PMA) : list (Z * Z) :=
  map (fun i => (get (m_keys st) i, get (m_values st) i)) (cells st).

(** The cells of the pair of segments ([2p], [2p+1]): the run of the even
    segment ends where the run of the odd one starts. *)
Definition pair_end (st : PMA) (p : Z) : Z :=
  (2 * p + 1) * m_segment_capacity st + get (m_segment_sizes st) (2 * p + 1).

Definition pair_cells (st : PMA) (p : Z) : list Z :=
  zrange (run_start st (2 * p))
    (Z.to_nat (get (m_segment_sizes st) (2 * p) + get (m_segment_sizes st) (2 * p + 1))).

(** Every segment is in use: the arrays cover the segments, each segment
    holds between 1 and B elements, and an index of one segment keeps the
    size 0 in the second slot of [m_segment_sizes]. *)
Definition segments_in_use (st : PMA) : Prop :=
  0 < m_segment_capacity st
  /\ (m_number_segments st = 1
      \/ (1 < m_number_segments st /\ m_number_segments st mod 2 = 0))
  /\ m_number_segments st * m_segment_capacity st <= len (m_keys st)
  /\ 2 <= len (m_segment_sizes st)
  /\ m_number_segments st <= len (m_segment_sizes st)
  /\ (forall s, 0 <= s < m_number_segments st ->
                0 < get (m_segment_sizes st) s <= m_segment_capacity st)
  /\ (m_number_segments st = 1 -> get (m_segment_sizes st) 1 = 0).

(** The number of pairs of segments. *)
Definition pairs_of (st : PMA) : Z := (m_number_segments st + 1) / 2.

(** The pair of one cell. *)
Definition entry (st : PMA) (i : Z) : Z * Z := (get (m_keys st) i, get (m_values st) i).

(** An iterator over the whole storage that stands at the cell [o] of the
    pair of segments [p]. *)
Definition cursor_at (st : PMA) (p o : Z) : Iterator.t :=
  {| Iterator.m_pma := st;
     Iterator.m_next_segment := if m_number_segments st =? 1 then 1 else 2 * (p + 1);
     Iterator.m_offset := o;
     Iterator.m_stop := pair_end st p;
     Iterator.m_index_max := pair_end st (pairs_of st - 1) |}.

(** An iterator over the cells before [end_] that stands at the cell [o]
    of the pair of segments [p]. *)
Definition cursor_upto (st : PMA) (end_ p o : Z) : Iterator.t :=
  {| Iterator.m_pma := st;
     Iterator.m_next_segment := if m_number_segments st =? 1 then 1 else 2 * (p + 1);
     Iterator.m_offset := o;
     Iterator.m_stop := Z.min end_ (pair_end st p);
     Iterator.m_index_max := end_ |}.

(** The sum of [f] over a list of indices. *)
Definition zsum (f : Z -> Z) (l : list Z) : Z :=
  fold_right (fun i acc => f i + acc) 0 l.

(** The pairs of segment [s], in the order of its packed run. *)
Definition run (st : PMA) (s : Z) : list (Z * Z) := map (entry st) (run_cells st s).

(** The value of the first pair of [l] with the key [k], the sentinel -1
    when there is none. *)
Definition lookup (k : Z) (l : list (Z * Z)) : Z :=
  match List.find (fun p => fst p =? k) l with
  | Some p => snd p
  | None => -1
  end.

(** [insert_first k v l]: the pair goes before the first pair of [l]
    whose key is not below [k]. *)
Fixpoint insert_first (k v : Z) (l : list (Z * Z)) : list (Z * Z) :=
  match l with
  | [] => [(k, v)]
  | p :: r => if fst p <? k then p :: insert_first k v r else (k, v) :: l
  end.

(** [insert_last k v l]: the pair goes after the last pair of [l] whose
    key is not above [k]. *)
Fixpoint insert_desc (k v : Z) (l : list (Z * Z)) : list (Z * Z) :=
  match l with
  | [] => [(k, v)]
  | p :: r => if k <? fst p then p :: insert_desc k v r else (k, v) :: l
  end.

Definition insert_last (k v : Z) (l : list (Z * Z)) : list (Z * Z) :=
  rev (insert_desc k v (rev l)).

(** [remove_first k l]: [l] without its first pair with the key [k]. *)
Fixpoint remove_first (k : Z) (l : list (Z * Z)) : list (Z * Z) :=
  match l with
  | [] => []
  | p :: r => if fst p =? k then r else p :: remove_first k r
  end.

(** The pairs whose key lies in [[min, max]]. *)
Definition in_range (min max : Z) (p : Z * Z) : bool :=
  (min <=? fst p) && (fst p <=? max).

(** The aggregate of a list of pairs in key order: the number of pairs,
    the sums of the keys and of the values, the first and the last key. *)
Definition aggregate (l : list (Z * Z)) : SumResult :=
  match l with
  | [] => SumResult_empty
  | p :: _ =>
      {| m_first_key := fst p; m_last_key := fst (last l p);
         m_num_elements := len l;
         m_sum_keys := fold_left (fun a q => a + fst q) l 0;
         m_sum_values := fold_left (fun a q => a + snd q) l 0 |}
  end.

(** The aggregate as the 64-bit fields of [SumResult] hold it: the count
    modulo 2^64, the two sums in two's complement. *)
Definition truncated (r : SumResult) : SumResult :=
  {| m_first_key := m_first_key r; m_last_key := m_last_key r;
     m_num_elements := u64 (m_num_elements r);
     m_sum_keys := i64 (m_sum_keys r);
     m_sum_values := i64 (m_sum_values r) |}.

(** The counters of an aggregate fit their 64-bit fields. *)
Definition representable (r : SumResult) : Prop :=
  0 <= m_num_elements r < 2 ^ 64
  /\ int64_min <= m_sum_keys r <= int64_max
  /\ int64_min <= m_sum_values r <= int64_max.

(** The counters of [acc] after the cells [l] have been added. *)
Definition accumulate (st : PMA) (acc : SumResult) (l : list Z) : SumResult :=
  {| m_first_key := m_first_key acc; m_last_key := m_last_key acc;
     m_num_elements := m_num_elements acc + len l;
     m_sum_keys := fold_left (fun a i => a + get (m_keys st) i) l (m_sum_keys acc);
     m_sum_values := fold_left (fun a i => a + get (m_values st) i) l (m_sum_values acc) |}.

(** The cells of the pair of segments [q] from the cell [o] on, before the
    cell [end_]. *)
Definition pair_part (st : PMA) (end_ q o : Z) : list Z :=
  zrange o (Z.to_nat (Z.min end_ (pair_end st q) - o)).

(** The keys are [int64_t] values. *)
Definition int64_keys (l : list Z) : Prop :=
  forall k, In k l -> int64_min <= k <= int64_max.

(** [k] is stored: some cell of some packed run holds it. *)
Definition stored (st : PMA) (k : Z) : Prop := In k (traversal st).

Fixpoint non_decreasing (l : list Z) : Prop :=
  match l with
  | [] => True
  | a :: r => match r with [] => True | b :: _ => a <= b /\ non_decreasing r end
  end.

Fixpoint increasing (l : list Z) : Prop :=
  match l with
  | [] => True
  | a :: r => match r with [] => True | b :: _ => a < b /\ increasing r end
  end.

Fixpoint non_decreasingb (l : list Z) : bool :=
  match l with
  | [] => true
  | a :: r => match r with [] => true | b :: _ => (a <=? b) && non_decreasingb r end
  end.

Fixpoint increasingb (l : list Z) : bool :=
  match l with
  | [] => true
  | a :: r => match r with [] => true | b :: _ => (a <? b) && increasingb r end
  end.

Definition power_of_two (n : Z) : Prop := exists k, 0 <= k /\ n = 2 ^ k.

(** The configurations that [PMA::PMA] rejects. *)
Definition rejected (pf : Platform) (segment_size pages_per_extent : Z) : Prop :=
  hyperceil segment_size < 32 \/ 65535 < hyperceil segment_size
  \/ ~ power_of_two pages_per_extent
  \/ ~ (hyperceil segment_size * 8 | memory_page_size pf).




(* ===================================================================== *)
(** * Concrete platforms, bounds and scenarios                            *)
(* ===================================================================== *)

(** The index is exact: it holds one separator per segment, the minimum
    of the segment. *)
Definition index_exact (t : BTreePMACC7) : Prop :=
  len (m_index t) = m_number_segments (m_storage t)
  /\ forall s, 0 <= s < m_number_segments (m_storage t) ->
       get_separator_key (m_index t) s = get_minimum (m_storage t) s.

(** A well-formed index: every segment is in use, the cardinality counts
    the cells in use, the keys are non-decreasing in segment order and the
    index is exact. *)
Definition well_formed (t : BTreePMACC7) : Prop :=
  segments_in_use (m_storage t)
  /\ m_number_segments (m_storage t) * m_segment_capacity (m_storage t)
     <= len (m_values (m_storage t))
  /\ m_cardinality (m_storage t) = len (cells (m_storage t))
  /\ non_decreasing (traversal (m_storage t))
  /\ index_exact t.

(** An empty index of one segment, as the constructor builds it: the
    arrays hold one segment and the second slot of the sizes is the mark
    0. *)
Definition empty_index (t : BTreePMACC7) : Prop :=
  let st := m_storage t in
  m_cardinality st = 0
  /\ m_number_segments st = 1
  /\ power_of_two (m_segment_capacity st)
  /\ 32 <= m_segment_capacity st
  /\ m_segment_capacity st <= len (m_keys st)
  /\ m_segment_capacity st <= len (m_values st)
  /\ 2 <= len (m_segment_sizes st)
  /\ get (m_segment_sizes st) 1 = 0.

(** The upper density thresholds lie between 1/2 and 1, the one of the
    root not above the one of the leaves. *)
Definition upper_thresholds_ok (db : DensityBounds) : Prop :=
  ((1 # 2) <= get_upper_threshold_root db)%Q
  /\ (get_upper_threshold_root db <= get_upper_threshold_leaves db)%Q
  /\ (get_upper_threshold_leaves db <= 1)%Q.

(** A platform with 4 KiB pages whose fresh memory reads as zero. *)
Definition linux_4k : Platform :=
  {| memory_page_size := 4096; uninit := fun _ => 0 |}.

(** Modelled from the spec: the example thresholds of section 3, 0.08 and
    0.92 at the leaves, 0.30 and 0.75 at the root, linear in between. *)
Definition spec_thresholds (tree_height node_height : Z) : Q * Q :=
  if tree_height <=? 1 then ((8 # 100)%Q, (92 # 100)%Q)
  else
    let scale := (inject_Z (node_height - 1) / inject_Z (tree_height - 1))%Q in
    (Qred ((8 # 100) + ((30 # 100) - (8 # 100)) * scale)%Q,
     Qred ((92 # 100) - ((92 # 100) - (75 # 100)) * scale)%Q).

Definition spec_bounds : DensityBounds :=
  {| thresholds := spec_thresholds;
     get_upper_threshold_leaves := (92 # 100)%Q;
     get_upper_threshold_root := (75 # 100)%Q |}.

Definition insert_all (pf : Platform) (t : BTreePMACC7) (kvs : list (Z * Z)) : BTreePMACC7 :=
  fold_left (fun t kv => insert pf t (fst kv) (snd kv)) kvs t.

Definition remove_all (pf : Platform) (t : BTreePMACC7) (ks : list Z) : BTreePMACC7 :=
  fold_left (fun t k => fst (remove pf t k)) ks t.

(** The index after the given inserts into a new index, [None] when the
    construction fails. *)
Definition build (pf : Platform) (db : DensityBounds) (segment_size pages_per_extent : Z)
  (kvs : list (Z * Z)) : option BTreePMACC7 :=
  match BTreePMACC7_new pf db segment_size pages_per_extent with
  | inr t => Some (insert_all pf t kvs)
  | inl _ => None
  end.

Definition no_storage : PMA :=
  {| m_keys := []; m_values := []; m_segment_sizes := []; m_segment_capacity := 0;
     m_pages_per_extent := 0; m_height := 0; m_cardinality := 0; m_capacity := 0;
     m_number_segments := 0; m_memory_keys := None; m_memory_values := None |}.

Definition force (o : option BTreePMACC7) : BTreePMACC7 :=
  match o with
  | Some t => t
  | None => {| m_index := []; m_storage := no_storage; m_density_bounds := spec_bounds |}
  end.

(** B = 32, one page per extent, keys 1..n in order with the key as value.
    [ascending 100] is seed scenario 1. *)
Definition ascending (n : nat) : BTreePMACC7 :=
  force (build linux_4k spec_bounds 32 1 (map (fun k => (k, k)) (zrange 1 n))).


(** Keys 1..40 in order, then keys 1..13 removed: two segments, of 3 and
    24 elements. *)
Definition sparse_head : BTreePMACC7 :=
  remove_all linux_4k (ascending 40) (zrange 1 13).

(** [sparse_head] without the key 14: segment 0 holds the keys 15 and
    16. *)
Definition thin_head : BTreePMACC7 :=
  fst (remove linux_4k sparse_head 14).

(** The pair (13, -1) is inserted into [sparse_head], then 14 and 15 are
    removed: segment 0 holds the pairs (13, -1) and (16, 16). *)
Definition sentinel_head : BTreePMACC7 :=
  remove_all linux_4k (insert linux_4k sparse_head 13 (-1)) [14; 15].

(** B = 512 and one page per extent on 4 KiB pages: an extent is exactly
    one segment.  Keys 513, 512, ..., 1 are inserted (the index grows to
    two segments), then 513 and 512 are removed, 1000 is inserted, 258 and
    259 are removed and 0, -1, ..., -254 are inserted: segment 0 is
    full. *)
Definition full_head_512 : BTreePMACC7 :=
  let t := force (build linux_4k spec_bounds 512 1
                    (map (fun k => (k, k)) (zrange_down 513 513))) in
  let t := remove_all linux_4k t [513; 512] in
  let t := insert linux_4k t 1000 1000 in
  let t := remove_all linux_4k t [258; 259] in
  insert_all linux_4k t (map (fun k => (k, k)) (zrange_down 0 255)).

(** The insert of -255 into [full_head_512], and the rewired spread of the
    window of segments 0..1 that it resolves to. *)
Definition overflown_512 : BTreePMACC7 := insert linux_4k full_head_512 (-255) (-255).

Definition rewiring_512 : SpreadWithRewiring.t :=
  SpreadWithRewiring.set_element_to_insert
    (SpreadWithRewiring.make full_head_512 0 2 765) (-255) (-255).

(* ===================================================================== *)
(** * Properties                                                          *)
(* ===================================================================== *)

(* ===================================================================== *)
(** * Ranges and arrays                                                   *)
(* ===================================================================== *)

Lemma in_zrange x a n : In x (zrange a n) <-> a <= x < a + Z.of_nat n.
Proof.
  revert a. induction n as [| n IH]; intros a; cbn [zrange In].
  - lia.
  - rewrite IH. lia.
Qed.

Lemma length_zrange a n : length (zrange a n) = n.
Proof. revert a. induction n; intros; cbn; auto. Qed.

Lemma in_zrange_down x a n : In x (zrange_down a n) <-> a - Z.of_nat n < x <= a.
Proof.
  revert a. induction n as [| n IH]; intros a; cbn [zrange_down In].
  - lia.
  - rewrite IH. lia.
Qed.

(* ===================================================================== *)
(** * The separator index                                                 *)
(* ===================================================================== *)

Lemma index_find_from_range seps i key :
  seps <> [] -> i <= index_find_from seps i key < i + len seps \/ index_find_from seps i key = 0.
Proof.
  unfold len. revert i. induction seps as [| s rest IH]; intros i Hne; [congruence |].
  cbn [index_find_from]. destruct rest as [| s' rest'].
  - destruct (s <=? key); cbn [length]; lia.
  - destruct ((s <=? key) && (key <? s')).
    + cbn [length]. lia.
    + destruct (IH (i + 1) ltac:(discriminate)) as [H | H]; cbn [length] in *; lia.
Qed.

Lemma index_find_range ix key : ix <> [] -> 0 <= index_find ix key < len ix.
Proof.
  intros H. unfold index_find.
  destruct (index_find_from_range ix 0 key H) as [H' | H']; [lia |].
  rewrite H'. unfold len. destruct ix; [congruence | cbn [length]; lia].
Qed.

(* ===================================================================== *)
(** * Remove                                                              *)
(* ===================================================================== *)

Lemma scan_key_miss n keys base i stop key :
  (forall j, i <= j < stop -> get keys (base + j) <> key) ->
  stop - i <= Z.of_nat n ->
  stop <= scan_key n keys base i stop key.
Proof.
  revert i. induction n as [| n IH]; intros i Hmiss Hn; cbn [scan_key].
  - lia.
  - destruct (i <? stop) eqn:E; [apply Z.ltb_lt in E | apply Z.ltb_ge in E; lia].
    destruct (get keys (base + i) =? key) eqn:E'.
    + apply Z.eqb_eq in E'. exfalso. apply (Hmiss i); [lia | exact E'].
    + apply IH; [intros j Hj; apply Hmiss; lia | lia].
Qed.

Lemma in_cells st s c :
  0 <= s < m_number_segments st -> In c (run_cells st s) -> In c (cells st).
Proof.
  intros Hs Hc. unfold cells. apply in_flat_map. exists s. split; [| exact Hc].
  apply in_zrange. lia.
Qed.

Lemma not_stored_cell st k s c :
  ~ stored st k -> 0 <= s < m_number_segments st -> In c (run_cells st s) ->
  get (m_keys st) c <> k.
Proof.
  intros Hns Hs Hc Heq. apply Hns. unfold stored, traversal.
  rewrite <- Heq. apply in_map. eapply in_cells; eauto.
Qed.

Lemma remove_local_missing t k :
  ~ stored (m_storage t) k ->
  0 <= index_find (m_index t) k < m_number_segments (m_storage t) ->
  exists seg sz, remove_local t k = (t, -1, seg, sz).
Proof.
  intros Hns Hseg. unfold remove_local.
  set (st := m_storage t) in *. set (B := m_segment_capacity st).
  set (seg := index_find (m_index t) k) in *.
  set (sz := get (m_segment_sizes st) seg).
  destruct (seg mod 2 =? 0) eqn:Epar.
  - assert (H : B <= scan_key (Z.to_nat (B - (B - sz))) (m_keys st) (seg * B) (B - sz) B k).
    { apply scan_key_miss; [| lia].
      intros j Hj. apply (not_stored_cell st k seg); auto.
      unfold run_cells, run_start. rewrite Epar. fold B sz. apply in_zrange. lia. }
    apply Z.ltb_ge in H. rewrite H. eauto.
  - assert (H : sz <= scan_key (Z.to_nat sz) (m_keys st) (seg * B) 0 sz k).
    { apply scan_key_miss; [| lia].
      intros j Hj. apply (not_stored_cell st k seg); auto.
      unfold run_cells, run_start. rewrite Epar. fold B sz. apply in_zrange. lia. }
    apply Z.ltb_ge in H. rewrite H. eauto.
Qed.

(** C4. [remove(k)] of a key that is stored in no segment returns the
    missing sentinel -1 and leaves the whole state as it was; the index
    holds one separator per segment. *)
Theorem remove_missing_key (pf : Platform) (t : BTreePMACC7) (k : Z) :
  len (m_index t) = m_number_segments (m_storage t) ->
  1 <= m_number_segments (m_storage t) ->
  ~ stored (m_storage t) k ->
  remove pf t k = (t, -1).
Proof.
  intros Hix HS Hns. unfold remove. destruct (empty t); [reflexivity |].
  assert (Hne : m_index t <> []).
  { intros E. rewrite E in Hix. cbn in Hix. lia. }
  pose proof (index_find_range (m_index t) k Hne) as Hr. rewrite Hix in Hr.
  destruct (remove_local_missing t k Hns Hr) as [seg [sz ->]].
  unfold shall_rebalance. reflexivity.
Qed.

(** C10. [sum(min, max)] with [max < min] returns the empty result, all
    fields 0, in every state. *)
Theorem sum_inverted_range (t : BTreePMACC7) (min max : Z) :
  max < min -> sum t min max = SumResult_empty.
Proof.
  intros H. unfold sum. apply Z.ltb_lt in H. rewrite H. reflexivity.
Qed.

(** [remove] is the deletion inside the segment, followed by the
    rebalance of that segment when the test of the source holds. *)
Lemma remove_shall_rebalance (pf : Platform) (t t' : BTreePMACC7) (k value segment_id sz : Z) :
  empty t = false ->
  remove_local t k = (t', value, segment_id, sz) ->
  let st := m_storage t' in
  let rho_1 := fst (thresholds (m_density_bounds t') (m_height st) 1) in
  let rebalanced :=
    negb (value =? -1) && (1 <? m_number_segments st)
    && (sz <? Z.max (Qfloor (rho_1 * inject_Z (m_segment_capacity st))) 1) in
  remove pf t k = ((if rebalanced then rebalance pf t' segment_id None else t'), value).
Proof.
  intros He Hl. cbv zeta. unfold remove. rewrite He, Hl.
  unfold shall_rebalance, minimum_size.
  destruct (_ && _ && _); reflexivity.
Qed.

(* ===================================================================== *)
(** * Reading and writing cells                                           *)
(* ===================================================================== *)

Lemma length_set_nth l n x : length (set_nth l n x) = length l.
Proof. revert n. induction l as [| h t IH]; intros [| n]; cbn; auto. Qed.

Lemma len_set l i x : len (set l i x) = len l.
Proof. unfold set, len. destruct (i <? 0); [reflexivity | now rewrite length_set_nth]. Qed.

Lemma nth_set_nth_eq l n x : (n < length l)%nat -> nth n (set_nth l n x) 0 = x.
Proof. revert n. induction l as [| h t IH]; intros [| n] H; cbn in *; try lia; auto. apply IH. lia. Qed.

Lemma nth_set_nth_ne l n m x : n <> m -> nth m (set_nth l n x) 0 = nth m l 0.
Proof.
  revert n m. induction l as [| h t IH]; intros [| n] [| m] H; cbn; try congruence; auto.
Qed.

Lemma get_set_eq l i x : 0 <= i < len l -> get (set l i x) i = x.
Proof.
  unfold get, set, len. intros H. destruct (i <? 0) eqn:E; [apply Z.ltb_lt in E; lia |].
  apply nth_set_nth_eq. lia.
Qed.

Lemma get_set_ne l i j x : i <> j -> get (set l i x) j = get l j.
Proof.
  unfold get, set. intros H.
  destruct (j <? 0) eqn:Ej; [reflexivity |]. destruct (i <? 0) eqn:Ei; [reflexivity |].
  apply Z.ltb_ge in Ej, Ei. apply nth_set_nth_ne. lia.
Qed.

(* ===================================================================== *)
(** * Segment sizes after a spread                                        *)
(* ===================================================================== *)

(** [fold_left] of writes [sizes[base + i] = f i] over [i = a, a+1, ...]. *)
Lemma get_fold_set (f : Z -> Z) base n a sizes j :
  0 <= base + a -> base + a + Z.of_nat n <= len sizes ->
  get (fold_left (fun sz i => set sz (base + i) (f i)) (zrange a n) sizes) j =
  if (base + a <=? j) && (j <? base + a + Z.of_nat n) then f (j - base) else get sizes j.
Proof.
  revert a sizes. induction n as [| n IH]; intros a sizes Ha Hlen; cbn [zrange fold_left].
  - destruct (base + a <=? j) eqn:E1, (j <? base + a + Z.of_nat 0) eqn:E2; cbn; auto.
    apply Z.leb_le in E1. apply Z.ltb_lt in E2. lia.
  - rewrite IH; [| lia | rewrite len_set; lia].
    destruct (base + a <=? j) eqn:E1, (j <? base + a + Z.of_nat (S n)) eqn:E2;
      destruct (base + (a + 1) <=? j) eqn:E3, (j <? base + (a + 1) + Z.of_nat n) eqn:E4; cbn;
      repeat match goal with
             | H : (_ <=? _) = true |- _ => apply Z.leb_le in H
             | H : (_ <=? _) = false |- _ => apply Z.leb_gt in H
             | H : (_ <? _) = true |- _ => apply Z.ltb_lt in H
             | H : (_ <? _) = false |- _ => apply Z.ltb_ge in H
             end; try lia; auto.
    + assert (j = base + a) by lia. subst j. rewrite get_set_eq by lia. f_equal. lia.
    + apply get_set_ne. lia.
    + apply get_set_ne. lia.
Qed.

Lemma get_set_expected_sizes sizes sbase num_segments cardinality i :
  0 <= sbase -> sbase + num_segments <= len sizes -> 0 <= i < num_segments ->
  get (set_expected_sizes sizes sbase num_segments cardinality) (sbase + i) =
  cardinality / num_segments + b2z (i <? cardinality mod num_segments).
Proof.
  intros Hb Hl Hi. unfold set_expected_sizes.
  rewrite (get_fold_set (fun i => cardinality / num_segments
                                  + b2z (i <? cardinality mod num_segments))) by lia.
  replace (sbase + 0 <=? sbase + i) with true by (symmetry; apply Z.leb_le; lia).
  replace (sbase + i <? sbase + 0 + Z.of_nat (Z.to_nat num_segments)) with true
    by (symmetry; apply Z.ltb_lt; lia).
  cbn. repeat f_equal; lia.
Qed.


Module RewiringFacts.
Import SpreadWithRewiring.













End RewiringFacts.

(* ===================================================================== *)
(** * Construction                                                        *)
(* ===================================================================== *)

Lemma hyperceil_pos n : 0 < hyperceil n.
Proof. unfold hyperceil. apply Z.pow_pos_nonneg; [lia | apply Z.log2_up_nonneg]. Qed.

Lemma hyperceil_fixpoint n : hyperceil n = n <-> power_of_two n.
Proof.
  unfold hyperceil, power_of_two. split.
  - intros H. exists (Z.log2_up n). split; [apply Z.log2_up_nonneg | congruence].
  - intros [k [Hk ->]]. now rewrite Z.log2_up_pow2.
Qed.

Lemma hyperceil_ge n : n <= hyperceil n.
Proof.
  unfold hyperceil. destruct (Z_lt_le_dec 1 n) as [H | H].
  - apply Z.log2_up_spec in H. lia.
  - pose proof (Z.pow_pos_nonneg 2 (Z.log2_up n) ltac:(lia) (Z.log2_up_nonneg n)). lia.
Qed.

(** [PMA::PMA] throws invalid_argument exactly for the configurations
    that are rejected. *)
Lemma PMA_new_rejects (pf : Platform) (segment_size pages_per_extent : Z) :
  PMA_new pf segment_size pages_per_extent = inl invalid_argument
  <-> rejected pf segment_size pages_per_extent.
Proof.
  pose proof (hyperceil_pos segment_size) as Hpos.
  pose proof (hyperceil_fixpoint pages_per_extent) as Hfix.
  unfold rejected, PMA_new, uint16_max, sizeof_int64.
  destruct (65535 <? hyperceil segment_size) eqn:E1.
  { apply Z.ltb_lt in E1. split; auto. }
  apply Z.ltb_ge in E1.
  assert (Hmod : hyperceil segment_size mod 2 ^ 16 = hyperceil segment_size).
  { apply Z.mod_small. change (2 ^ 16) with 65536. lia. }
  rewrite Hmod.
  destruct (hyperceil segment_size <? 32) eqn:E2.
  { apply Z.ltb_lt in E2. split; auto. }
  apply Z.ltb_ge in E2.
  destruct (hyperceil pages_per_extent =? pages_per_extent) eqn:E3; cbn [negb].
  2:{ apply Z.eqb_neq in E3.
      assert (~ power_of_two pages_per_extent) by (intros H; apply E3, Hfix, H).
      split; auto. }
  apply Z.eqb_eq in E3. apply Hfix in E3.
  destruct (memory_page_size pf mod (hyperceil segment_size * 8) =? 0) eqn:E4; cbn [negb].
  2:{ apply Z.eqb_neq in E4.
      assert (~ (hyperceil segment_size * 8 | memory_page_size pf)).
      { intros H. apply E4. apply Z.mod_divide; [lia | exact H]. }
      split; auto. }
  apply Z.eqb_eq in E4. apply Z.mod_divide in E4; [| lia].
  split.
  - destruct (alloc_workspace_divides_by_zero _ _ _ _); discriminate.
  - intros [H | [H | [H | H]]]; try lia; contradiction.
Qed.

(** C9.  [PMA::PMA] throws invalid_argument exactly for the
    configurations that the claim lists, but a configuration that is not
    one of them does not always construct.  On 4 KiB pages, a segment size
    of 64 and 2^52 pages per extent pass the four checks; the [size_t]
    product [extent_size] of [alloc_workspace] is 2^52 * 4096 = 2^64, that
    is 0, the rewiring branch is taken and
    [elts_space_required_bytes / extent_size] divides by zero. *)
Theorem PMA_new_extent_size_wraps :
  (forall pf segment_size pages_per_extent,
     PMA_new pf segment_size pages_per_extent = inl invalid_argument
     <-> rejected pf segment_size pages_per_extent)
  /\ power_of_two (2 ^ 52)
  /\ hyperceil 64 = 64
  /\ (64 * 8 | memory_page_size linux_4k)
  /\ extent_size_bytes linux_4k (2 ^ 52) = 0
  /\ alloc_workspace_divides_by_zero linux_4k 64 (2 ^ 52) 1 = true
  /\ PMA_new linux_4k 64 (2 ^ 52) = inl division_by_zero.
Proof.
  split; [exact PMA_new_rejects |].
  split; [exists 52; split; [lia | reflexivity] |].
  split; [reflexivity |].
  split; [exists 8; reflexivity |].
  split; [vm_compute; reflexivity |].
  split; vm_compute; reflexivity.
Qed.

(* ===================================================================== *)
(** * Spread: the cardinality of the segments                             *)
(* ===================================================================== *)




(** C6 as stated fails, in two ways.

    The bound is the truncation of [rho_1 * B], not its ceiling:
    [sparse_head] has two segments and segment 0 holds the three keys 14,
    15, 16; with rho_1 = 0.08 and B = 32 the claim's bound is
    [max (ceil 2.56) 1 = 3].  Removing 14 finds and deletes it and leaves
    2 < 3 elements in segment 0, and no rebalance follows.

    The rebalance is guarded by the returned value: in [sentinel_head]
    segment 0 holds the pairs (13, -1) and (16, 16).  Removing 13 finds
    and deletes it and leaves 1 element, below both bounds, and no
    rebalance follows, because the value of the pair is the missing
    sentinel -1; a rebalance would have changed the sizes of the
    segments. *)
Lemma remove_no_rebalance_below_ceiling :
  (let r := remove_local sparse_head 14 in
   let t' := fst (fst (fst r)) in
   let rho_1 := fst (thresholds (m_density_bounds t') (m_height (m_storage t')) 1) in
   existsb (Z.eqb 14) (traversal (m_storage sparse_head)) = true
   /\ snd (fst (fst r)) = 14
   /\ (1 <? m_number_segments (m_storage t')) = true
   /\ get (m_segment_sizes (m_storage t')) (snd (fst r)) = snd r
   /\ (snd r <? Z.max (Qceiling (rho_1 * inject_Z (m_segment_capacity (m_storage t')))) 1) = true
   /\ shall_rebalance t' (snd (fst (fst r))) (snd r) = false
   /\ m_storage (fst (remove linux_4k sparse_head 14)) = m_storage t'
   /\ m_index (fst (remove linux_4k sparse_head 14)) = m_index t'
   /\ snd (remove linux_4k sparse_head 14) = 14)
  /\ (let r := remove_local sentinel_head 13 in
      let t' := fst (fst (fst r)) in
      let rho_1 := fst (thresholds (m_density_bounds t') (m_height (m_storage t')) 1) in
      existsb (Z.eqb 13) (traversal (m_storage sentinel_head)) = true
      /\ existsb (Z.eqb 13) (traversal (m_storage t')) = false
      /\ snd (fst r) = index_find (m_index sentinel_head) 13
      /\ (1 <? m_number_segments (m_storage t')) = true
      /\ get (m_segment_sizes (m_storage t')) (snd (fst r)) = snd r
      /\ snd r = 1
      /\ (snd r <? Z.max (Qceiling (rho_1 * inject_Z (m_segment_capacity (m_storage t')))) 1)
         = true
      /\ (snd r <? Z.max (Qfloor (rho_1 * inject_Z (m_segment_capacity (m_storage t')))) 1)
         = true
      /\ snd (remove linux_4k sentinel_head 13) = -1
      /\ m_storage (fst (remove linux_4k sentinel_head 13)) = m_storage t'
      /\ m_index (fst (remove linux_4k sentinel_head 13)) = m_index t'
      /\ m_segment_sizes (m_storage t') = [1; 24]
      /\ m_segment_sizes (m_storage (rebalance linux_4k t' (snd (fst r)) None)) = [13; 12]).
Proof.
  cbv zeta. split.
  - split; [vm_compute; reflexivity |].
    split; [vm_compute; reflexivity |].
    split; [vm_compute; reflexivity |].
    split; [vm_compute; reflexivity |].
    split; [vm_compute; reflexivity |].
    split; [vm_compute; reflexivity |].
    split; [vm_compute; reflexivity |].
    split; [vm_compute; reflexivity |].
    vm_compute; reflexivity.
  - split; [vm_compute; reflexivity |].
    split; [vm_compute; reflexivity |].
    split; [vm_compute; reflexivity |].
    split; [vm_compute; reflexivity |].
    split; [vm_compute; reflexivity |].
    split; [vm_compute; reflexivity |].
    split; [vm_compute; reflexivity |].
    split; [vm_compute; reflexivity |].
    split; [vm_compute; reflexivity |].
    split; [vm_compute; reflexivity |].
    split; [vm_compute; reflexivity |].
    split; [vm_compute; reflexivity |].
    vm_compute; reflexivity.
Qed.

(* ===================================================================== *)
(** * One segment per extent                                              *)
(* ===================================================================== *)

Lemma non_decreasingb_spec l : non_decreasingb l = true <-> non_decreasing l.
Proof.
  induction l as [| a r IH]; cbn [non_decreasingb non_decreasing]; [tauto |].
  destruct r as [| b r']; [tauto |].
  rewrite andb_true_iff, Z.leb_le, IH. tauto.
Qed.

Lemma increasingb_spec l : increasingb l = true <-> increasing l.
Proof.
  induction l as [| a r IH]; cbn [increasingb increasing]; [tauto |].
  destruct r as [| b r']; [tauto |].
  rewrite andb_true_iff, Z.ltb_lt, IH. tauto.
Qed.

(** C8 at the failing input: with B = 512 and one page per extent an
    extent is one segment, [spread_elements] runs its loop from
    [m_segments_per_extent - 2 = -1] and moves nothing, the read cursor
    never leaves the last extent and no buffer is given back: the insert
    of -255 into [full_head_512] resolves to a rewired spread of the two
    segments, starts with no buffer in use and ends with two. *)
Lemma one_segment_extent_leaks_buffers :
  SpreadWithRewiring.m_segments_per_extent rewiring_512 = 1
  /\ m_memory_keys (m_storage full_head_512)
     = Some {| get_extent_size := 4096; get_used_buffers := 0 |}
  /\ m_segment_sizes (m_storage overflown_512) =
       m_segment_sizes (m_storage (SpreadWithRewiring.m_instance
                                    (SpreadWithRewiring.execute linux_4k rewiring_512)))
  /\ m_memory_keys (m_storage (SpreadWithRewiring.m_instance
                                 (SpreadWithRewiring.spread_window linux_4k rewiring_512)))
     = Some {| get_extent_size := 4096; get_used_buffers := 2 |}
  /\ m_memory_keys (m_storage overflown_512)
     = Some {| get_extent_size := 4096; get_used_buffers := 2 |}.
Proof.
  split; [vm_compute; reflexivity |].
  split; [vm_compute; reflexivity |].
  split; [vm_compute; reflexivity |].
  split; [vm_compute; reflexivity |].
  vm_compute; reflexivity.
Qed.

(** C1 at the failing input: the same insert leaves the sizes of the two
    segments rebalanced and their cells where they were; the traversal of
    the result reads 1000 before 513 in segment 1, and the keys -254..-126
    are no longer reachable. *)
Lemma one_segment_extent_breaks_order :
  increasing (traversal (m_storage full_head_512))
  /\ m_segment_sizes (m_storage full_head_512) = [512; 253]
  /\ m_segment_sizes (m_storage overflown_512) = [384; 382]
  /\ m_keys (m_storage overflown_512) = set (m_keys (m_storage full_head_512)) 128 (-255)
  /\ get (m_keys (m_storage overflown_512)) (512 + 254) = 1000
  /\ get (m_keys (m_storage overflown_512)) (512 + 255) = 513
  /\ ~ non_decreasing (traversal (m_storage overflown_512))
  /\ find full_head_512 (-200) = -200 /\ find overflown_512 (-200) = -1.
Proof.
  split; [apply (proj1 (increasingb_spec (traversal (m_storage full_head_512))));
          vm_compute; reflexivity |].
  split; [vm_compute; reflexivity |].
  split; [vm_compute; reflexivity |].
  split; [vm_compute; reflexivity |].
  split; [vm_compute; reflexivity |].
  split; [vm_compute; reflexivity |].
  split; [intros H;
          pose proof (proj2 (non_decreasingb_spec (traversal (m_storage overflown_512))) H) as Hb;
          vm_compute in Hb; discriminate |].
  split; vm_compute; reflexivity.
Qed.

Lemma existsb_eqb_false k l : existsb (Z.eqb k) l = false -> ~ In k l.
Proof.
  intros H Hin. assert (E : existsb (Z.eqb k) l = true).
  { apply existsb_exists. exists k. split; [exact Hin | apply Z.eqb_refl]. }
  congruence.
Qed.

Lemma remove_missing_key_witness :
  len (m_index sparse_head) = m_number_segments (m_storage sparse_head)
  /\ ~ stored (m_storage sparse_head) 1000
  /\ remove linux_4k sparse_head 1000 = (sparse_head, -1).
Proof.
  assert (H1 : len (m_index sparse_head) = m_number_segments (m_storage sparse_head))
    by (vm_compute; reflexivity).
  assert (H2 : 1 <= m_number_segments (m_storage sparse_head))
    by (vm_compute; discriminate).
  assert (H3 : ~ stored (m_storage sparse_head) 1000).
  { exact (existsb_eqb_false 1000 (traversal (m_storage sparse_head))
             (eq_refl false <: existsb (Z.eqb 1000) (traversal (m_storage sparse_head)) = false)). }
  split; [exact H1 |]. split; [exact H3 |].
  exact (remove_missing_key linux_4k sparse_head 1000 H1 H2 H3).
Defined.

Lemma sum_inverted_range_witness : sum (ascending 100) 20 10 = SumResult_empty.
Proof. apply (sum_inverted_range (ascending 100) 20 10). reflexivity. Defined.

(* ===================================================================== *)
(** * The cells of a storage, pair by pair                                *)
(* ===================================================================== *)

Lemma zrange_app a n m : zrange a (n + m) = zrange a n ++ zrange (a + Z.of_nat n) m.
Proof.
  revert a. induction n as [| n IH]; intros a; cbn [zrange Nat.add app].
  - f_equal. lia.
  - rewrite IH. do 3 f_equal. lia.
Qed.

Lemma zrange_succ a n : zrange a (S n) = a :: zrange (a + 1) n.
Proof. reflexivity. Qed.

Lemma flat_map_pairs (f : Z -> list Z) n a :
  flat_map f (zrange (2 * a) (2 * n)) =
  flat_map (fun p => f (2 * p) ++ f (2 * p + 1)) (zrange a n).
Proof.
  revert a. induction n as [| n IH]; intros a; [reflexivity |].
  replace (2 * S n)%nat with (S (S (2 * n))) by lia.
  cbn [zrange flat_map].
  replace (2 * a + 1 + 1) with (2 * (a + 1)) by lia.
  rewrite IH. now rewrite app_assoc.
Qed.

Lemma flat_map_ext_on (f g : Z -> list Z) l :
  (forall x, In x l -> f x = g x) -> flat_map f l = flat_map g l.
Proof.
  induction l as [| x l IH]; intros H; [reflexivity |].
  cbn [flat_map]. rewrite (H x (or_introl eq_refl)), IH; [reflexivity |].
  intros y Hy. apply H. now right.
Qed.

Section Shape.
Variable st : PMA.
Hypothesis Hshape : segments_in_use st.

Local Abbreviation B := (m_segment_capacity st).
Local Abbreviation S_ := (m_number_segments st).
Local Abbreviation sizes := (m_segment_sizes st).

Lemma pairs_of_spec :
  (S_ = 1 /\ pairs_of st = 1) \/ (1 < S_ /\ S_ = 2 * pairs_of st).
Proof.
  destruct Hshape as (_ & [H | [H1 H2]] & _); unfold pairs_of.
  - left. rewrite H. auto.
  - right. split; [lia |].
    pose proof (Z.div_mod S_ 2 ltac:(lia)) as Hd. rewrite H2 in Hd.
    assert (Hq : (S_ + 1) / 2 = S_ / 2).
    { symmetry. apply (Z.div_unique (S_ + 1) 2 (S_ / 2) 1); lia. }
    lia.
Qed.

Lemma run_start_even p : run_start st (2 * p) = (2 * p + 1) * B - get sizes (2 * p).
Proof.
  unfold run_start. replace ((2 * p) mod 2) with 0; [reflexivity |].
  symmetry. rewrite Z.mul_comm. apply Z.mod_mul. lia.
Qed.

Lemma run_start_odd p : run_start st (2 * p + 1) = (2 * p + 1) * B.
Proof.
  unfold run_start. replace ((2 * p + 1) mod 2) with 1; [reflexivity |].
  symmetry. rewrite Z.add_comm, Z.mul_comm, Z.mod_add by lia. reflexivity.
Qed.

Lemma pair_cells_split p :
  0 <= get sizes (2 * p) -> 0 <= get sizes (2 * p + 1) ->
  run_cells st (2 * p) ++ run_cells st (2 * p + 1) = pair_cells st p.
Proof.
  intros H0 H1. unfold run_cells, pair_cells.
  rewrite Z2Nat.inj_add by lia. rewrite zrange_app. f_equal. f_equal.
  rewrite run_start_even, run_start_odd. lia.
Qed.

Lemma cells_pairs :
  cells st = flat_map (pair_cells st) (zrange 0 (Z.to_nat (pairs_of st))).
Proof.
  unfold cells.
  destruct Hshape as (HB & _ & _ & _ & _ & Hsz & Hsent).
  destruct pairs_of_spec as [[H1 HP] | [H1 HP]].
  - rewrite H1, HP. change (Z.to_nat 1) with 1%nat. cbn [zrange flat_map].
    rewrite !app_nil_r. unfold run_cells, pair_cells.
    change (2 * 0) with 0. change (0 + 1) with 1.
    rewrite (Hsent H1). f_equal. f_equal. lia.
  - rewrite HP. replace (Z.to_nat (2 * pairs_of st)) with (2 * Z.to_nat (pairs_of st))%nat by lia.
    change 0 with (2 * 0) at 1. rewrite flat_map_pairs.
    apply flat_map_ext_on. intros p Hp. apply in_zrange in Hp.
    apply pair_cells_split.
    + specialize (Hsz (2 * p)). lia.
    + specialize (Hsz (2 * p + 1)). lia.
Qed.

Lemma pair_size_pos p :
  0 <= p < pairs_of st ->
  0 < get sizes (2 * p) <= B /\ 0 <= get sizes (2 * p + 1) <= B.
Proof.
  intros Hp. destruct Hshape as (HB & _ & _ & _ & _ & Hsz & Hsent).
  destruct pairs_of_spec as [[H1 HP] | [H1 HP]].
  - assert (p = 0) by lia. subst p. change (2 * 0) with 0. change (0 + 1) with 1.
    rewrite (Hsent H1). specialize (Hsz 0). lia.
  - pose proof (Hsz (2 * p)). pose proof (Hsz (2 * p + 1)). lia.
Qed.

Lemma pair_end_spec p :
  pair_end st p = run_start st (2 * p) + (get sizes (2 * p) + get sizes (2 * p + 1)).
Proof. unfold pair_end. rewrite run_start_even. lia. Qed.

End Shape.

(* ===================================================================== *)
(** * The iterator over the whole storage                                 *)
(* ===================================================================== *)

Lemma contents_entries st : contents st = map (entry st) (cells st).
Proof. reflexivity. Qed.

Lemma drain_exhausted n it : Iterator.hasNext it = false -> Iterator.drain n it = [].
Proof. intros H. destruct n; [reflexivity |]. cbn [Iterator.drain]. now rewrite H. Qed.

Lemma lower_interval_found n st k c :
  c_notfound c = false -> lower_interval n st k c = c.
Proof. intros H. destruct n; [reflexivity |]. cbn [lower_interval]. now rewrite H. Qed.

Lemma upper_interval_found n st k s c :
  c_notfound c = false -> upper_interval n st k s c = c.
Proof. intros H. destruct n; [reflexivity |]. cbn [upper_interval]. now rewrite H. Qed.

Lemma length_flat_map_le (f : Z -> list Z) (b : nat) l :
  (forall x, In x l -> (length (f x) <= b)%nat) ->
  (length (flat_map f l) <= length l * b)%nat.
Proof.
  induction l as [| x l IH]; intros H; [cbn; lia |].
  cbn [flat_map length]. rewrite length_app.
  specialize (H x (or_introl eq_refl)) as Hx.
  assert (length (flat_map f l) <= length l * b)%nat
    by (apply IH; intros y Hy; apply H; now right).
  lia.
Qed.

Section FullScan.
Variable st : PMA.
Hypothesis Hshape : segments_in_use st.

Local Abbreviation B := (m_segment_capacity st).
Local Abbreviation S_ := (m_number_segments st).
Local Abbreviation sizes := (m_segment_sizes st).
Local Abbreviation P := (pairs_of st).

Lemma length_cells_le : (length (cells st) <= length (m_keys st))%nat.
Proof.
  destruct Hshape as (HB & _ & Hlen & _ & _ & Hsz & _).
  assert (H : (length (cells st) <= length (zrange 0 (Z.to_nat S_)) * Z.to_nat B)%nat).
  { apply length_flat_map_le. intros s Hs. apply in_zrange in Hs.
    unfold run_cells. rewrite length_zrange. specialize (Hsz s). lia. }
  rewrite length_zrange in H. unfold len in Hlen. nia.
Qed.

Lemma pair_end_bounds p :
  0 <= p < P -> (2 * p + 1) * B <= pair_end st p <= (2 * p + 2) * B.
Proof.
  intros Hp. destruct (pair_size_pos st Hshape p Hp) as [_ H].
  unfold pair_end. lia.
Qed.

Lemma pair_end_last p : 0 <= p < P -> pair_end st p <= pair_end st (P - 1).
Proof.
  intros Hp. destruct (Z.eq_dec p (P - 1)) as [-> | Hne]; [lia |].
  pose proof (pair_end_bounds p Hp). pose proof (pair_end_bounds (P - 1) ltac:(lia)).
  destruct Hshape as (HB & _). nia.
Qed.

(** One pair of segments is read cell by cell, then [next_sequence] runs. *)
Lemma drain_pair p k n o :
  (1 <= k)%nat -> o + Z.of_nat k = pair_end st p ->
  Iterator.drain (k + n) (cursor_at st p o) =
  map (entry st) (zrange o k)
  ++ Iterator.drain n (Iterator.next_sequence (cursor_at st p (pair_end st p))).
Proof.
  revert o. induction k as [| k IH]; intros o Hk Ho; [lia |].
  cbn [Nat.add Iterator.drain zrange map app].
  unfold Iterator.hasNext, Iterator.next.
  cbn [cursor_at Iterator.m_offset Iterator.m_stop Iterator.m_pma
       Iterator.m_next_segment Iterator.m_index_max].
  destruct (Z.ltb_spec o (pair_end st p)) as [_ | Hge]; [| lia].
  destruct k as [| k].
  - destruct (Z.leb_spec (pair_end st p) (o + 1)) as [_ | Hlt]; [| lia].
    replace (o + 1) with (pair_end st p) by lia. reflexivity.
  - destruct (Z.leb_spec (pair_end st p) (o + 1)) as [Hle | _]; [lia |].
    f_equal. exact (IH (o + 1) ltac:(lia) ltac:(lia)).
Qed.

(** After the last cell of a pair, the iterator stands at the first cell
    of the next pair, or is exhausted after the last pair. *)
Lemma next_sequence_pair p :
  0 <= p < P - 1 ->
  Iterator.next_sequence (cursor_at st p (pair_end st p)) =
  cursor_at st (p + 1) (run_start st (2 * (p + 1))).
Proof.
  intros Hp. destruct (pairs_of_spec st Hshape) as [[H1 HP] | [H1 HP]]; [lia |].
  unfold Iterator.next_sequence, cursor_at.
  cbn [Iterator.m_offset Iterator.m_stop Iterator.m_pma Iterator.m_next_segment
       Iterator.m_index_max].
  destruct (Z.eqb_spec S_ 1) as [He | _]; [lia |].
  destruct (Z.ltb_spec (2 * (p + 1)) S_) as [_ | Hge]; [| lia].
  replace ((2 * (p + 1)) mod 2) with 0
    by (symmetry; rewrite Z.mul_comm; apply Z.mod_mul; lia).
  cbn [Z.eqb].
  destruct (Z.ltb_spec (2 * (p + 1) + 1) S_) as [_ | Hge]; [| lia].
  pose proof (pair_end_last (p + 1) ltac:(lia)) as Hl.
  f_equal.
  - lia.
  - rewrite run_start_even. lia.
  - unfold pair_end in *. lia.
Qed.

Lemma next_sequence_last o :
  Iterator.next_sequence (cursor_at st (P - 1) o) = cursor_at st (P - 1) o.
Proof.
  unfold Iterator.next_sequence, cursor_at.
  cbn [Iterator.m_offset Iterator.m_stop Iterator.m_pma Iterator.m_next_segment
       Iterator.m_index_max].
  destruct (pairs_of_spec st Hshape) as [[H1 HP] | [H1 HP]].
  - destruct (Z.eqb_spec S_ 1) as [_ | Hne]; [| lia].
    destruct (Z.ltb_spec 1 S_) as [Hlt | _]; [lia | reflexivity].
  - destruct (Z.eqb_spec S_ 1) as [He | _]; [lia |].
    destruct (Z.ltb_spec (2 * (P - 1 + 1)) S_) as [Hlt | _]; [lia | reflexivity].
Qed.

Lemma drain_pairs m : forall p n,
  (1 <= m)%nat -> 0 <= p -> p + Z.of_nat m = P ->
  (length (flat_map (pair_cells st) (zrange p m)) <= n)%nat ->
  Iterator.drain n (cursor_at st p (run_start st (2 * p))) =
  map (entry st) (flat_map (pair_cells st) (zrange p m)).
Proof.
  induction m as [| m IH]; intros p n Hm Hp HP Hn; [lia |].
  cbn [zrange flat_map] in *. rewrite length_app in Hn.
  destruct (pair_size_pos st Hshape p ltac:(lia)) as [Hs0 Hs1].
  set (k := Z.to_nat (get sizes (2 * p) + get sizes (2 * p + 1))) in *.
  assert (Hk : length (pair_cells st p) = k) by (unfold pair_cells; apply length_zrange).
  rewrite Hk in Hn.
  replace n with (k + (n - k))%nat by lia.
  rewrite drain_pair; [| lia | rewrite pair_end_spec by exact Hshape; lia].
  rewrite map_app. f_equal.
  destruct m as [| m].
  - cbn [zrange flat_map map]. replace p with (P - 1) by lia.
    rewrite next_sequence_last. apply drain_exhausted.
    unfold Iterator.hasNext, cursor_at.
    cbn [Iterator.m_offset Iterator.m_stop]. apply Z.ltb_irrefl.
  - rewrite next_sequence_pair by lia.
    apply IH; lia.
Qed.

Lemma key_in_range s c :
  int64_keys (traversal st) -> 0 <= s < S_ -> In c (run_cells st s) ->
  int64_min <= get (m_keys st) c <= int64_max.
Proof.
  intros H Hs Hc. apply H. unfold traversal. apply in_map.
  apply (in_cells st s c Hs Hc).
Qed.

Lemma skip_below_stay n keys offset stop key_min :
  key_min <= get keys offset -> skip_below n keys offset stop key_min = offset.
Proof.
  intros H. destruct n; [reflexivity |]. cbn [skip_below].
  destruct (Z.ltb_spec (get keys offset) key_min); [lia |].
  now rewrite andb_false_r.
Qed.

Lemma skip_above_stay n keys offset stop key_max :
  get keys offset <= key_max -> skip_above n keys offset stop key_max = offset.
Proof.
  intros H. destruct n; [reflexivity |]. cbn [skip_above].
  destruct (Z.ltb_spec key_max (get keys offset)); [lia |].
  now rewrite andb_false_r.
Qed.

Lemma first_cell : In (run_start st 0) (run_cells st 0).
Proof.
  destruct Hshape as (_ & HS & _ & _ & _ & Hsz & _).
  unfold run_cells. apply in_zrange. specialize (Hsz 0). lia.
Qed.

Lemma last_cell : In (pair_end st (P - 1) - 1) (run_cells st (S_ - 1)).
Proof.
  destruct Hshape as (_ & _ & _ & _ & _ & Hsz & Hsent).
  unfold run_cells. apply in_zrange.
  destruct (pairs_of_spec st Hshape) as [[H1 HP] | [H1 HP]].
  - rewrite HP, H1. change (1 - 1) with 0. unfold pair_end, run_start.
    change (2 * 0 + 1) with 1. change (0 mod 2 =? 0) with true. cbv iota.
    rewrite (Hsent H1). specialize (Hsz 0). lia.
  - replace (S_ - 1) with (2 * (P - 1) + 1) by lia.
    rewrite run_start_odd. unfold pair_end.
    specialize (Hsz (2 * (P - 1) + 1)). lia.
Qed.

(** The constructor of the iterator over all the segments, with the
    extreme keys as bounds, stands at the first cell of the first pair. *)
Lemma make_full_scan :
  int64_keys (traversal st) ->
  Iterator.make st 0 (S_ - 1) int64_min int64_max
  = inr (cursor_at st 0 (run_start st 0)).
Proof.
  intros Hkeys.
  pose proof Hshape as (HB & HS & _ & _ & _ & Hsz & Hsent).
  pose proof (Hsz 0 ltac:(lia)) as Hs0.
  assert (Hfirst := key_in_range 0 _ Hkeys ltac:(lia) first_cell).
  assert (Hlast := key_in_range (S_ - 1) _ Hkeys ltac:(lia) last_cell).
  unfold Iterator.make.
  destruct (Z.ltb_spec (S_ - 1) 0) as [Hlt | _]; [lia |].
  destruct (Z.leb_spec S_ (S_ - 1)) as [Hle | _]; [lia |].
  destruct (Z.to_nat (S_ - 0)) as [| n] eqn:En; [lia |].
  cbn [lower_interval c_notfound c_segment_id c_segment_even andb].
  destruct (Z.ltb_spec 0 S_) as [_ | Hge]; [| lia].
  change (0 mod 2 =? 0) with true. cbv iota.
  assert (Hrs : run_start st 0 = (0 + 1) * B - get sizes 0) by reflexivity.
  rewrite Hrs in Hfirst.
  rewrite !skip_below_stay by lia.
  destruct (Z.eqb_spec ((0 + 1) * B - get sizes 0) ((0 + 1) * B)) as [He | _]; [lia |].
  rewrite lower_interval_found by reflexivity.
  cbn [c_notfound c_segment_id c_segment_even c_start c_stop c_offset andb orb].
  destruct (Z.ltb_spec int64_max (get (m_keys st) ((0 + 1) * B - get sizes 0))) as [Hgt | _];
    [lia |].
  destruct (Z.to_nat (S_ - 1 - 0 + 1)) as [| n'] eqn:En'; [lia |].
  cbn [upper_interval c_notfound c_segment_id c_segment_even andb].
  destruct (Z.leb_spec 0 (S_ - 1)) as [_ | Hlt]; [| lia].
  unfold cursor_at.
  destruct (pairs_of_spec st Hshape) as [[H1 HP] | [H1 HP]].
  - rewrite HP in *. rewrite H1. change (1 - 1) with 0 in *.
    change (0 mod 2 =? 0) with true. cbv iota.
    assert (Hpe : pair_end st 0 = (0 + 1) * B)
      by (unfold pair_end; change (2 * 0 + 1) with 1; rewrite (Hsent H1); lia).
    rewrite Hpe in Hlast.
    rewrite !skip_above_stay by lia.
    destruct (Z.ltb_spec ((0 + 1) * B - 1) ((0 + 1) * B - 1 - get sizes 0)) as [Hlt | _];
      [lia |].
    rewrite upper_interval_found by reflexivity.
    cbn [c_offset]. change (0 + 1 <? 1) with false. cbv iota beta.
    destruct (Z.ltb_spec ((0 + 1) * B - 1) ((0 + 1) * B - get sizes 0)) as [Hlt | _];
      [lia |].
    change (1 =? 1) with true. cbv iota.
    rewrite Hpe, Hrs. do 2 f_equal; lia.
  - assert (Hodd : S_ - 1 = 2 * (P - 1) + 1) by lia.
    pose proof (Hsz (S_ - 1) ltac:(lia)) as Hsl.
    pose proof (Hsz 1 ltac:(lia)) as Hs1.
    assert (Hm : (S_ - 1) mod 2 = 1).
    { rewrite Hodd, Z.add_comm, Z.mul_comm, Z.mod_add by lia. reflexivity. }
    rewrite Hm. change (1 =? 0) with false. cbv iota.
    assert (Hpe : pair_end st (P - 1) = (S_ - 1) * B + get sizes (S_ - 1))
      by (unfold pair_end; rewrite <- Hodd; reflexivity).
    rewrite Hpe in *.
    rewrite !skip_above_stay by lia.
    destruct (Z.ltb_spec ((S_ - 1) * B + get sizes (S_ - 1) - 1) ((S_ - 1) * B)) as [Hlt | _];
      [lia |].
    rewrite upper_interval_found by reflexivity.
    cbn [c_offset].
    destruct (Z.ltb_spec (0 + 1) S_) as [_ | Hge]; [| lia].
    cbv iota beta.
    destruct (Z.ltb_spec ((S_ - 1) * B + get sizes (S_ - 1) - 1) ((0 + 1) * B - get sizes 0))
      as [Hlt | _]; [nia |].
    destruct (Z.eqb_spec S_ 1) as [He | _]; [lia |].
    rewrite Hrs. unfold pair_end. change (2 * 0 + 1) with (0 + 1).
    change (0 + 1) with 1.
    do 2 f_equal; [| lia].
    destruct (Z.eq_dec S_ 2) as [E2 | N2].
    + rewrite E2. change (2 - 1) with 1. lia.
    + assert (3 * B <= (S_ - 1) * B) by (apply Z.mul_le_mono_nonneg_r; lia). lia.
Qed.

(** The iterator over the whole index yields the stored pairs in segment
    order. *)
Lemma full_scan_to_list :
  int64_keys (traversal st) ->
  exists it,
    Iterator.make st 0 (S_ - 1) int64_min int64_max = inr it
    /\ Iterator.to_list it = contents st.
Proof.
  intros Hkeys. exists (cursor_at st 0 (run_start st 0)).
  split; [exact (make_full_scan Hkeys) |].
  unfold Iterator.to_list. cbn [cursor_at Iterator.m_pma].
  rewrite contents_entries, (cells_pairs st Hshape).
  pose proof length_cells_le as Hlen. rewrite (cells_pairs st Hshape) in Hlen.
  destruct (pairs_of_spec st Hshape) as [[H1 HP] | [H1 HP]].
  - change (run_start st 0) with (run_start st (2 * 0)).
    apply (drain_pairs (Z.to_nat P) 0 (length (m_keys st))); [lia | lia | lia | exact Hlen].
  - change (run_start st 0) with (run_start st (2 * 0)).
    apply (drain_pairs (Z.to_nat P) 0 (length (m_keys st))); [lia | lia | lia | exact Hlen].
Qed.

End FullScan.

(* ===================================================================== *)
(** * Bulk loading into an empty index                                    *)
(* ===================================================================== *)

Lemma firstn_plus {A} (n m : nat) (l : list A) :
  firstn (n + m) l = firstn n l ++ firstn m (skipn n l).
Proof.
  revert l. induction n as [| n IH]; intros l; [reflexivity |].
  destruct l as [| x l]; cbn [Nat.add firstn skipn app].
  - now rewrite firstn_nil.
  - now rewrite IH.
Qed.

Lemma skipn_plus {A} (n m : nat) (l : list A) : skipn (n + m) l = skipn m (skipn n l).
Proof.
  revert l. induction n as [| n IH]; intros l; [reflexivity |].
  destruct l as [| x l]; cbn [Nat.add skipn]; [now rewrite skipn_nil | apply IH].
Qed.

Lemma nth_zrange_slice {A} (d : A) (l : list A) a n :
  0 <= a -> (Z.to_nat a + n <= length l)%nat ->
  map (fun i => nth (Z.to_nat i) l d) (zrange a n) = firstn n (skipn (Z.to_nat a) l).
Proof.
  revert a l. induction n as [| n IH]; intros a l Ha Hl; [reflexivity |].
  cbn [zrange map].
  destruct (skipn (Z.to_nat a) l) as [| x r] eqn:E.
  - apply (f_equal (@length A)) in E. rewrite length_skipn in E. cbn in E. lia.
  - cbn [firstn]. f_equal.
    + rewrite <- (firstn_skipn (Z.to_nat a) l) at 1.
      rewrite app_nth2 by (rewrite length_firstn; lia).
      rewrite length_firstn, E. replace (Z.to_nat a - Nat.min (Z.to_nat a) (length l))%nat with 0%nat by lia.
      reflexivity.
    + rewrite IH by lia. replace (Z.to_nat (a + 1)) with (Z.to_nat a + 1)%nat by lia.
      rewrite skipn_plus, E. reflexivity.
Qed.

Lemma map_zrange_shift {A} (f : Z -> A) o a n :
  map (fun i => f (a + (i - o))) (zrange o n) = map f (zrange a n).
Proof.
  revert o a. induction n as [| n IH]; intros o a; [reflexivity |].
  cbn [zrange map]. f_equal; [f_equal; lia |].
  rewrite <- (IH (o + 1) (a + 1)). apply map_ext. intros i. f_equal. lia.
Qed.

(** The copy loop writes [array[a ..]] into the cells [o .. o+n). *)
Lemma load_copy_spec n : forall array keys values o a,
  0 <= o -> o + Z.of_nat n <= len keys -> o + Z.of_nat n <= len values ->
  exists keys' values',
    load_copy n array keys values o a = (keys', values', a + Z.of_nat n)
    /\ len keys' = len keys /\ len values' = len values
    /\ (forall j, get keys' j =
          if (o <=? j) && (j <? o + Z.of_nat n) then first_of array (a + (j - o))
          else get keys j)
    /\ (forall j, get values' j =
          if (o <=? j) && (j <? o + Z.of_nat n) then second_of array (a + (j - o))
          else get values j).
Proof.
  induction n as [| n IH]; intros array keys values o a Ho Hk Hv.
  - exists keys, values. cbn [load_copy]. rewrite Z.add_0_r.
    repeat split; intros j;
      destruct (Z.leb_spec o j), (Z.ltb_spec j (o + Z.of_nat 0)); cbn [andb]; try reflexivity; lia.
  - cbn [load_copy].
    destruct (IH array (set keys o (first_of array a)) (set values o (second_of array a))
                 (o + 1) (a + 1)) as (k' & v' & E & Lk & Lv & Gk & Gv);
      rewrite ?len_set; try lia.
    exists k', v'. rewrite E, Lk, Lv, !len_set.
    split; [f_equal; lia |]. split; [reflexivity |]. split; [reflexivity |].
    split; intros j; [rewrite Gk | rewrite Gv];
      destruct (Z.leb_spec (o + 1) j), (Z.ltb_spec j (o + 1 + Z.of_nat n)),
        (Z.leb_spec o j), (Z.ltb_spec j (o + Z.of_nat (S n))); cbn [andb]; try lia;
      try (f_equal; lia);
      try (rewrite get_set_ne by lia; reflexivity);
      (assert (j = o) by lia; subst j; rewrite get_set_eq by lia; f_equal; lia).
Qed.

Section LoadPairs.
Variable B : Z.
Variable array : list (Z * Z).
Variable output_sizes : list Z.
Variable P : Z.
Hypothesis HB : 0 < B.
Hypothesis Hsizes : forall s, 0 <= s < 2 * P -> 0 <= get output_sizes s <= B.

(** The cells that step 4 writes for the pair of segments [2p], [2p+1]. *)
Local Abbreviation pair_range p :=
  (zrange ((2 * p + 1) * B - get output_sizes (2 * p))
     (Z.to_nat (get output_sizes (2 * p) + get output_sizes (2 * p + 1)))).

Local Abbreviation cell keys values := (fun i : Z => (get keys i, get values i)).

Lemma map_cell_ext keys values keys' values' l :
  (forall j, In j l -> get keys' j = get keys j /\ get values' j = get values j) ->
  map (cell keys' values') l = map (cell keys values) l.
Proof.
  intros H. apply map_ext_in. intros j Hj. destruct (H j Hj) as [-> ->]. reflexivity.
Qed.

Lemma load_pairs_spec n : forall p keys values ix a,
  0 <= p -> p + Z.of_nat n <= P -> 0 <= a ->
  2 * P * B <= len keys -> 2 * P * B <= len values ->
  (Z.to_nat a + length (flat_map (fun q => pair_range q) (zrange p n)) <= length array)%nat ->
  exists keys' values' ix',
    load_pairs n B array output_sizes keys values ix (2 * p) a = (keys', values', ix')
    /\ len keys' = len keys /\ len values' = len values
    /\ (forall j, j < 2 * p * B -> get keys' j = get keys j /\ get values' j = get values j)
    /\ map (cell keys' values') (flat_map (fun q => pair_range q) (zrange p n))
       = firstn (length (flat_map (fun q => pair_range q) (zrange p n)))
           (skipn (Z.to_nat a) array).
Proof.
  induction n as [| n IH]; intros p keys values ix a Hp HP Ha Hk Hv Hlen.
  - exists keys, values, ix. cbn [load_pairs zrange flat_map map length firstn].
    repeat split; reflexivity.
  - cbn [load_pairs]. unfold fetch_bounds. cbv zeta. rewrite ?Z.add_0_l.
    cbn [zrange flat_map] in Hlen |- *.
    pose proof (Hsizes (2 * p) ltac:(lia)) as H0.
    pose proof (Hsizes (2 * p + 1) ltac:(lia)) as H1.
    set (L := get output_sizes (2 * p) + get output_sizes (2 * p + 1)) in *.
    set (o := (2 * p + 1) * B - get output_sizes (2 * p)) in *.
    replace (o + get output_sizes (2 * p) + get output_sizes (2 * p + 1) - o) with L
      by (unfold L; lia).
    rewrite length_app, length_zrange in Hlen |- *.
    assert (Ho : 2 * p * B <= o /\ o + L <= (2 * p + 2) * B) by (unfold o, L; lia).
    assert (Hin : (2 * p + 2) * B <= 2 * P * B) by nia.
    destruct (load_copy_spec (Z.to_nat L) array keys values o a)
      as (k1 & v1 & E1 & Lk1 & Lv1 & Gk1 & Gv1); try lia.
    rewrite E1.
    destruct (IH (p + 1) k1 v1
                (set_separator_key (set_separator_key ix (2 * p) (get k1 o)) (2 * p + 1)
                   (get k1 (o + get output_sizes (2 * p))))
                (a + Z.of_nat (Z.to_nat L)))
      as (k' & v' & ix' & E & Lk & Lv & Keep & Data); try lia.
    replace (2 * (p + 1)) with (2 * p + 2) in E by lia.
    exists k', v', ix'. rewrite E.
    split; [reflexivity |]. split; [lia |]. split; [lia |]. split.
    + intros j Hj. destruct (Keep j ltac:(lia)) as [-> ->].
      rewrite Gk1, Gv1.
      destruct (Z.leb_spec o j); cbn [andb]; [lia | auto].
    + rewrite map_app, Data, firstn_plus. f_equal.
      * rewrite (map_cell_ext k1 v1).
        2:{ intros j Hj. apply in_zrange in Hj. apply Keep. lia. }
        transitivity (map (fun i => nth (Z.to_nat (a + (i - o))) array (0, 0))
                        (zrange o (Z.to_nat L))).
        { apply map_ext_in. intros j Hj. apply in_zrange in Hj.
          rewrite Gk1, Gv1.
          destruct (Z.leb_spec o j), (Z.ltb_spec j (o + Z.of_nat (Z.to_nat L))); try lia.
          cbn [andb]. unfold first_of, second_of. now destruct (nth _ array (0, 0)). }
        rewrite (map_zrange_shift (fun i => nth (Z.to_nat i) array (0, 0))).
        apply nth_zrange_slice; lia.
      * f_equal. rewrite <- skipn_plus. f_equal. lia.
Qed.

Lemma load_pairs_from_start n keys values ix :
  Z.of_nat n = P -> 2 * P * B <= len keys -> 2 * P * B <= len values ->
  length (flat_map (fun q => pair_range q) (zrange 0 n)) = length array ->
  exists keys' values' ix',
    load_pairs n B array output_sizes keys values ix 0 0 = (keys', values', ix')
    /\ len keys' = len keys /\ len values' = len values
    /\ map (cell keys' values') (flat_map (fun q => pair_range q) (zrange 0 n)) = array.
Proof.
  intros HP Hk Hv Hlen.
  destruct (load_pairs_spec n 0 keys values ix 0)
    as (k' & v' & ix' & E & Lk & Lv & _ & Data); try lia.
  exists k', v', ix'. split; [exact E |]. split; [exact Lk |]. split; [exact Lv |].
  rewrite Data, Hlen. change (Z.to_nat 0) with 0%nat. cbn [skipn]. apply firstn_all.
Qed.

End LoadPairs.

(* ===================================================================== *)
(** * Sums of segment sizes                                               *)
(* ===================================================================== *)

Lemma zsum_app f l1 l2 : zsum f (l1 ++ l2) = zsum f l1 + zsum f l2.
Proof. induction l1 as [| x l IH]; cbn [zsum fold_right app] in *; [reflexivity | unfold zsum in *; lia]. Qed.

Lemma zsum_ext f g l : (forall i, In i l -> f i = g i) -> zsum f l = zsum g l.
Proof.
  induction l as [| x l IH]; intros H; [reflexivity |].
  unfold zsum in *. cbn [fold_right]. rewrite (H x (or_introl eq_refl)), IH; [reflexivity |].
  intros i Hi. apply H. now right.
Qed.

Lemma zsum_const c a n : zsum (fun _ => c) (zrange a n) = Z.of_nat n * c.
Proof.
  revert a. induction n as [| n IH]; intros a; [reflexivity |].
  cbn [zrange]. unfold zsum in *. cbn [fold_right]. rewrite IH. lia.
Qed.

Lemma zsum_plus f g l : zsum (fun i => f i + g i) l = zsum f l + zsum g l.
Proof. induction l as [| x l IH]; unfold zsum in *; cbn [fold_right]; lia. Qed.

Lemma zsum_below r a n :
  zsum (fun i => b2z (i <? r)) (zrange a n) = Z.max 0 (Z.min (a + Z.of_nat n) r - a).
Proof.
  revert a. induction n as [| n IH]; intros a.
  - cbn [zrange zsum fold_right]. lia.
  - cbn [zrange]. unfold zsum in *. cbn [fold_right]. rewrite IH.
    unfold b2z. destruct (Z.ltb_spec a r); lia.
Qed.

(** The sizes [cardinality / W + (i < cardinality mod W)] of [W] segments
    add up to [cardinality]. *)
Lemma zsum_expected W cardinality :
  0 < W -> 0 <= cardinality ->
  zsum (fun i => cardinality / W + b2z (i <? cardinality mod W)) (zrange 0 (Z.to_nat W))
  = cardinality.
Proof.
  intros HW Hc. rewrite zsum_plus, zsum_const, zsum_below.
  pose proof (Z.mod_pos_bound cardinality W HW).
  pose proof (Z.div_mod cardinality W ltac:(lia)). lia.
Qed.

Lemma length_flat_map_zsum (f : Z -> list Z) l :
  Z.of_nat (length (flat_map f l)) = zsum (fun i => len (f i)) l.
Proof.
  induction l as [| x l IH]; [reflexivity |].
  cbn [flat_map]. rewrite length_app. unfold zsum in *. cbn [fold_right].
  rewrite <- IH. unfold len. lia.
Qed.

(** The number of cells in use is the sum of the sizes of the segments. *)
Lemma length_cells st :
  (forall s, 0 <= s < m_number_segments st -> 0 <= get (m_segment_sizes st) s) ->
  len (cells st) = zsum (get (m_segment_sizes st)) (zrange 0 (Z.to_nat (m_number_segments st))).
Proof.
  intros H. unfold len, cells. rewrite length_flat_map_zsum.
  apply zsum_ext. intros s Hs. apply in_zrange in Hs.
  unfold run_cells, len. rewrite length_zrange. specialize (H s). lia.
Qed.

Lemma len_fresh pf n : 0 <= n -> len (fresh pf n) = n.
Proof. intros H. unfold len, fresh. rewrite length_map, length_zrange. lia. Qed.

Lemma len_fold_set (f : Z -> Z) base l sizes :
  len (fold_left (fun sz i => set sz (base + i) (f i)) l sizes) = len sizes.
Proof.
  revert sizes. induction l as [| x l IH]; intros sizes; [reflexivity |].
  cbn [fold_left]. rewrite IH. apply len_set.
Qed.

Lemma len_set_expected_sizes sizes sbase num_segments cardinality :
  len (set_expected_sizes sizes sbase num_segments cardinality) = len sizes.
Proof. unfold set_expected_sizes. apply len_fold_set. Qed.

(* ===================================================================== *)
(** * The capacity that a bulk load picks                                 *)
(* ===================================================================== *)

Lemma zsum_pairs f n a :
  zsum f (zrange (2 * a) (2 * n)) = zsum (fun p => f (2 * p) + f (2 * p + 1)) (zrange a n).
Proof.
  revert a. induction n as [| n IH]; intros a; [reflexivity |].
  replace (2 * S n)%nat with (S (S (2 * n))) by lia.
  cbn [zrange]. unfold zsum in *. cbn [fold_right].
  replace (2 * a + 1 + 1) with (2 * (a + 1)) by lia.
  rewrite IH. lia.
Qed.

Lemma load_capacity B n (root leaves : Q) :
  power_of_two B -> 32 <= B ->
  ((1 # 2) <= root)%Q -> (root <= leaves)%Q -> (leaves <= 1)%Q ->
  Qle_bool (inject_Z n) (inject_Z B * leaves)%Q = false ->
  let capacity := hyperceil (Qceiling (inject_Z n / ((root + leaves) / 2))%Q) in
  let S := capacity / B in
  0 < n /\ 1 < S /\ S mod 2 = 0 /\ S * B = capacity /\ n <= S * B /\ S <= n.
Proof.
  intros [b [Hb HBb]] HB Hr Hrl Hl Hbr. cbv zeta.
  set (td := ((root + leaves) / 2)%Q).
  assert (Htd : ((1 # 2) <= td /\ td <= leaves /\ td <= 1)%Q).
  { unfold td, Qdiv. change (/ 2)%Q with (1 # 2)%Q. repeat split; lra. }
  destruct Htd as (Htd1 & Htd2 & Htd3).
  assert (Htd0 : (0 < td)%Q) by lra.
  assert (HBq : (32 <= inject_Z B)%Q).
  { change 32%Q with (inject_Z 32). rewrite <- Zle_Qle. exact HB. }
  assert (HN : (inject_Z B * leaves < inject_Z n)%Q).
  { apply Qnot_le_lt. intros H. apply Qle_bool_iff in H. congruence. }
  assert (HN0 : (0 < inject_Z n)%Q) by nra.
  assert (Hn : 0 < n).
  { rewrite Zlt_Qlt. exact HN0. }
  set (q := (inject_Z n / td)%Q).
  assert (H1 : (inject_Z n <= q)%Q).
  { apply Qle_shift_div_l; [exact Htd0 | nra]. }
  assert (H2 : (inject_Z B < q)%Q).
  { apply Qlt_shift_div_l; [exact Htd0 | nra]. }
  assert (H3 : (q <= inject_Z (2 * n))%Q).
  { apply Qle_shift_div_r; [exact Htd0 |]. rewrite inject_Z_mult.
    change (inject_Z 2) with 2%Q. nra. }
  pose proof (Qle_ceiling q) as Hc1. pose proof (Qceiling_lt q) as Hc2.
  set (x := Qceiling q) in *.
  assert (Hx1 : n <= x) by (rewrite Zle_Qle; lra).
  assert (Hx2 : B < x) by (rewrite Zlt_Qlt; lra).
  assert (Hx3 : x <= 2 * n).
  { assert (x - 1 < 2 * n) by (rewrite Zlt_Qlt; lra). lia. }
  unfold hyperceil.
  pose proof (Z.log2_up_spec x ltac:(lia)) as Hk.
  pose proof (Z.log2_up_nonneg x) as Hk0.
  set (k := Z.log2_up x) in *.
  assert (Hbk : b < k).
  { apply (Z.pow_lt_mono_r_iff 2); lia. }
  assert (Hpow : 2 ^ k = 2 ^ (k - b) * B).
  { rewrite HBb, <- Z.pow_add_r by lia. f_equal. lia. }
  assert (HS : 2 ^ k / B = 2 ^ (k - b)).
  { rewrite Hpow. apply Z.div_mul. lia. }
  rewrite HS.
  assert (Hhalf : 2 ^ (k - b) = 2 * 2 ^ (k - b - 1)).
  { rewrite <- Z.pow_succ_r by lia. f_equal. lia. }
  pose proof (Z.pow_pos_nonneg 2 (k - b - 1) ltac:(lia) ltac:(lia)) as Hpos.
  assert (Hk2 : 2 ^ k = 2 * 2 ^ Z.pred k).
  { rewrite <- Z.pow_succ_r by lia. f_equal. lia. }
  split; [exact Hn |]. split; [lia |]. split.
  { rewrite Hhalf, Z.mul_comm. apply Z.mod_mul. lia. }
  split; [lia |]. split; [lia |].
  assert (2 ^ (k - b) * 32 <= 2 ^ (k - b) * B) by (apply Z.mul_le_mono_nonneg_l; lia).
  lia.
Qed.

(* ===================================================================== *)
(** * The state after a bulk load into an empty index                     *)
(* ===================================================================== *)

Ltac fields :=
  cbn [with_storage with_index with_cardinality with_sizes with_values with_keys
       with_geometry with_memory install_workspace alloc_workspace
       ws_keys ws_values ws_sizes ws_memory_keys ws_memory_values
       m_storage m_index m_density_bounds m_keys m_values m_segment_sizes
       m_segment_capacity m_cardinality m_number_segments m_height m_capacity
       m_pages_per_extent m_memory_keys m_memory_values].

Lemma traversal_contents st : traversal st = map fst (contents st).
Proof. unfold traversal, contents. rewrite map_map. reflexivity. Qed.

Lemma load_copy_cells n array o a keys values keys' values' :
  0 <= a -> (Z.to_nat a + n <= length array)%nat ->
  (forall j, get keys' j =
     if (o <=? j) && (j <? o + Z.of_nat n) then first_of array (a + (j - o))
     else get keys j) ->
  (forall j, get values' j =
     if (o <=? j) && (j <? o + Z.of_nat n) then second_of array (a + (j - o))
     else get values j) ->
  map (fun i => (get keys' i, get values' i)) (zrange o n)
  = firstn n (skipn (Z.to_nat a) array).
Proof.
  intros Ha Hn Gk Gv.
  transitivity (map (fun i => nth (Z.to_nat (a + (i - o))) array (0, 0)) (zrange o n)).
  { apply map_ext_in. intros j Hj. apply in_zrange in Hj. rewrite Gk, Gv.
    destruct (Z.leb_spec o j), (Z.ltb_spec j (o + Z.of_nat n)); try lia.
    cbn [andb]. unfold first_of, second_of. now destruct (nth _ array (0, 0)). }
  rewrite (map_zrange_shift (fun i => nth (Z.to_nat i) array (0, 0))).
  apply nth_zrange_slice; lia.
Qed.

(** [load_empty_single]: the batch fills the right end of segment 0. *)
Lemma load_empty_single_result t array :
  empty_index t -> 0 < len array <= m_segment_capacity (m_storage t) ->
  empty (load_empty_single t array) = false
  /\ segments_in_use (m_storage (load_empty_single t array))
  /\ contents (m_storage (load_empty_single t array)) = array.
Proof.
  intros (Hc & HS & HpB & HB & Hk & Hv & Hs & Hs1) Hn.
  unfold load_empty_single.
  destruct (load_copy_spec (Z.to_nat (len array)) array (m_keys (m_storage t))
              (m_values (m_storage t)) (m_segment_capacity (m_storage t) - len array) 0)
    as (k' & v' & E & Lk & Lv & Gk & Gv); try lia.
  rewrite E. cbv beta iota zeta.
  fields.
  set (st := m_storage t) in *.
  set (B := m_segment_capacity st) in *.
  set (n := len array) in *.
  assert (G0 : get (set (m_segment_sizes st) 0 n) 0 = n) by (apply get_set_eq; lia).
  assert (G1 : get (set (m_segment_sizes st) 0 n) 1 = 0)
    by (rewrite get_set_ne by lia; exact Hs1).
  split; [| split].
  - unfold empty. fields. apply Z.eqb_neq. lia.
  - unfold segments_in_use.
    fields.
    fold st. rewrite HS, !len_set.
    split; [lia |]. split; [left; reflexivity |]. split; [lia |].
    split; [lia |]. split; [lia |]. split.
    + intros s Hs'. assert (s = 0) by lia. subst s. rewrite G0. lia.
    + intros _. exact G1.
  - unfold contents, cells.
    fields.
    fold st. rewrite HS. change (Z.to_nat 1) with 1%nat. cbn [zrange flat_map].
    rewrite app_nil_r. unfold run_cells, run_start.
    fields.
    change (0 mod 2 =? 0) with true. cbv iota. fold st B. rewrite G0.
    change (0 + 1) with 1. rewrite Z.mul_1_l.
    rewrite (load_copy_cells (Z.to_nat n) array (B - n) 0 (m_keys st) (m_values st) k' v');
      [| lia | unfold n, len; lia | exact Gk | exact Gv].
    change (Z.to_nat 0) with 0%nat. cbn [skipn].
    unfold n, len. rewrite Nat2Z.id. apply firstn_all.
Qed.


(** [load_empty_multi]: the batch is laid out over the pairs of segments
    of a new workspace. *)
Lemma load_empty_multi_result pf t array :
  empty_index t -> upper_thresholds_ok (m_density_bounds t) ->
  Qle_bool (inject_Z (len array))
    (inject_Z (m_segment_capacity (m_storage t))
     * get_upper_threshold_leaves (m_density_bounds t))%Q = false ->
  empty (load_empty_multi pf t array) = false
  /\ segments_in_use (m_storage (load_empty_multi pf t array))
  /\ contents (m_storage (load_empty_multi pf t array)) = array.
Proof.
  intros (Hc & HS & HpB & HB & Hk & Hv & Hs & Hs1) (Hr & Hrl & Hl) Hbr.
  pose proof (load_capacity _ _ _ _ HpB HB Hr Hrl Hl Hbr) as Hcap. cbv zeta in Hcap.
  unfold load_empty_multi. cbv zeta.
  set (B := m_segment_capacity (m_storage t)) in *.
  set (n := len array) in *.
  set (capacity := hyperceil _) in *.
  set (S := capacity / B) in *.
  destruct Hcap as (Hn & HS1 & Hev & HSB & HnSB & HSn).
  fields.
  set (sizes0 := set (map (fun x => x mod 2 ^ 16) (fresh pf (Z.max 2 S))) 1 0).
  set (os := set_expected_sizes sizes0 0 S n).
  set (P := S / 2).
  assert (HS2 : S = 2 * P).
  { pose proof (Z.div_mod S 2 ltac:(lia)). unfold P. lia. }
  assert (HP : (S + 1) / 2 = P).
  { symmetry. apply (Z.div_unique (S + 1) 2 P 1); lia. }
  rewrite HP.
  assert (Hlen0 : len sizes0 = S).
  { unfold sizes0. rewrite len_set. unfold len. rewrite length_map.
    fold (len (fresh pf (Z.max 2 S))). rewrite len_fresh; lia. }
  assert (Hos : forall s, 0 <= s < S -> get os s = n / S + b2z (s <? n mod S)).
  { intros s Hs'.
    exact (get_set_expected_sizes sizes0 0 S n s ltac:(lia) ltac:(lia) Hs'). }
  assert (Hbound : forall s, 0 <= s < S -> 0 < get os s <= B).
  { intros s Hs'. rewrite (Hos s Hs').
    pose proof (Z.div_mod n S ltac:(lia)) as Hdm.
    pose proof (Z.mod_pos_bound n S ltac:(lia)) as Hmb.
    assert (1 <= n / S) by (apply Z.div_le_lower_bound; lia).
    unfold b2z. destruct (Z.ltb_spec s (n mod S)); [| split; [lia |]].
    - split; [lia |]. assert (n / S < B) by nia. lia.
    - assert (n / S <= B); [| lia].
      apply Z.div_le_upper_bound; lia. }
  assert (Hsum : zsum (get os) (zrange 0 (Z.to_nat S)) = n).
  { rewrite (zsum_ext (get os) (fun i => n / S + b2z (i <? n mod S))).
    - apply zsum_expected; lia.
    - intros i Hi. apply in_zrange in Hi. apply Hos. lia. }
  destruct (load_pairs_from_start B array os P ltac:(lia)
              (fun s Hs' => conj (Z.lt_le_incl _ _ (proj1 (Hbound s ltac:(lia))))
                                 (proj2 (Hbound s ltac:(lia))))
              (Z.to_nat P) (fresh pf (S * B)) (fresh pf (S * B)) (rebuild pf S))
    as (k' & v' & ix' & E & Lk & Lv & Data).
  { lia. }
  { rewrite len_fresh by nia. nia. }
  { rewrite len_fresh by nia. nia. }
  { apply Nat2Z.inj. rewrite length_flat_map_zsum.
    rewrite (zsum_ext _ (fun p => get os (2 * p) + get os (2 * p + 1))).
    - rewrite <- zsum_pairs. change (2 * 0) with 0.
      replace (2 * Z.to_nat P)%nat with (Z.to_nat S) by lia. exact Hsum.
    - intros p Hp. apply in_zrange in Hp. unfold len. rewrite length_zrange.
      pose proof (Hbound (2 * p) ltac:(lia)). pose proof (Hbound (2 * p + 1) ltac:(lia)).
      lia. }
  rewrite E. cbv beta iota. fields.
  set (st' := with_geometry _ capacity S (Z.log2 S + 1)).
  assert (Huse : segments_in_use st').
  { unfold segments_in_use.
    change (m_segment_capacity st') with B. change (m_number_segments st') with S.
    change (m_segment_sizes st') with os. change (m_keys st') with k'.
    split; [lia |]. split; [right; lia |].
    split; [rewrite Lk, len_fresh by nia; lia |].
    unfold os. rewrite len_set_expected_sizes, Hlen0.
    split; [lia |]. split; [lia |]. split; [exact Hbound | intros HS'; lia]. }
  split; [| split; [exact Huse |]].
  - unfold empty. fields. change (m_cardinality st') with n. apply Z.eqb_neq. lia.
  - rewrite contents_entries, (cells_pairs st' Huse).
    unfold pairs_of. change (m_number_segments st') with S. rewrite HP.
    rewrite (flat_map_ext_on (pair_cells st')
               (fun q => zrange ((2 * q + 1) * B - get os (2 * q))
                           (Z.to_nat (get os (2 * q) + get os (2 * q + 1))))).
    + exact Data.
    + intros p _. unfold pair_cells. rewrite run_start_even. reflexivity.
Qed.

(** [load_empty] leaves exactly the batch in the storage, every segment in
    use. *)
Lemma load_empty_result pf t array :
  empty_index t -> upper_thresholds_ok (m_density_bounds t) -> array <> [] ->
  empty (load_empty pf t array) = false
  /\ segments_in_use (m_storage (load_empty pf t array))
  /\ contents (m_storage (load_empty pf t array)) = array.
Proof.
  intros He Hth Hne. unfold load_empty.
  destruct (Qle_bool _ _) eqn:Hbr.
  - apply load_empty_single_result; [exact He |].
    apply Qle_bool_iff in Hbr. destruct Hth as (Hr & Hrl & Hl).
    destruct He as (_ & _ & _ & HB & _).
    assert (Hpos : 0 < len array).
    { unfold len. destruct array; [congruence | cbn [length]; lia]. }
    split; [exact Hpos |]. rewrite Zle_Qle.
    assert (0 <= inject_Z (m_segment_capacity (m_storage t)))%Q.
    { change 0%Q with (inject_Z 0). rewrite <- Zle_Qle. lia. }
    nra.
  - apply load_empty_multi_result; assumption.
Qed.

(* ===================================================================== *)
(** * Construction, bulk load and full scan                               *)
(* ===================================================================== *)

Lemma int64_keys_forallb l :
  forallb (fun k => (int64_min <=? k) && (k <=? int64_max)) l = true -> int64_keys l.
Proof.
  intros H k Hk. rewrite forallb_forall in H. specialize (H k Hk).
  apply andb_true_iff in H. destruct H as [H1 H2].
  apply Z.leb_le in H1, H2. lia.
Qed.

Lemma PMA_new_shape pf segment_size pages_per_extent st :
  PMA_new pf segment_size pages_per_extent = inr st ->
  m_cardinality st = 0 /\ m_number_segments st = 1 /\ m_height st = 1
  /\ m_capacity st = m_segment_capacity st
  /\ m_pages_per_extent st = pages_per_extent
  /\ m_segment_capacity st = hyperceil segment_size
  /\ 32 <= m_segment_capacity st <= uint16_max
  /\ len (m_keys st) = m_segment_capacity st
  /\ len (m_values st) = m_segment_capacity st
  /\ len (m_segment_sizes st) = 2
  /\ get (m_segment_sizes st) 1 = 0.
Proof.
  unfold PMA_new.
  destruct (Z.ltb_spec uint16_max (hyperceil segment_size)) as [| Hle]; [discriminate |].
  pose proof (hyperceil_pos segment_size) as Hpos.
  assert (Hmod : hyperceil segment_size mod 2 ^ 16 = hyperceil segment_size).
  { apply Z.mod_small. unfold uint16_max in Hle. lia. }
  rewrite Hmod.
  destruct (Z.ltb_spec (hyperceil segment_size) 32) as [| H32]; [discriminate |].
  destruct (negb _); [discriminate |].
  destruct (negb _); [discriminate |].
  destruct (alloc_workspace_divides_by_zero _ _ _ _); [discriminate |].
  intros H.
  apply (f_equal (fun x : exception + PMA => match x with inr s => s | inl _ => st end)) in H.
  cbv beta iota in H. subst st.
  cbv beta iota zeta delta
    [m_cardinality m_number_segments m_height m_capacity m_pages_per_extent
     m_segment_capacity m_keys m_values m_segment_sizes alloc_workspace
     ws_keys ws_values ws_sizes].
  rewrite !len_fresh by lia. rewrite len_set.
  unfold len at 1. rewrite length_map. fold (len (fresh pf (Z.max 2 1))).
  rewrite len_fresh by lia.
  repeat split; lia.
Qed.

Lemma PMA_new_accepted pf segment_size pages_per_extent :
  ~ rejected pf segment_size pages_per_extent ->
  PMA_new pf segment_size pages_per_extent
  = if extent_size_bytes pf pages_per_extent =? 0 then inl division_by_zero
    else
      let ws := alloc_workspace pf (hyperceil segment_size) pages_per_extent 1 in
      inr {| m_keys := ws_keys ws; m_values := ws_values ws;
             m_segment_sizes := ws_sizes ws;
             m_segment_capacity := hyperceil segment_size;
             m_pages_per_extent := pages_per_extent;
             m_height := 1; m_cardinality := 0;
             m_capacity := hyperceil segment_size;
             m_number_segments := 1;
             m_memory_keys := ws_memory_keys ws;
             m_memory_values := ws_memory_values ws |}.
Proof.
  intros Hnr.
  pose proof (proj1 (PMA_new_rejects pf segment_size pages_per_extent)) as Hinv.
  pose proof (hyperceil_pos segment_size) as Hpos.
  unfold rejected in Hnr.
  assert (H32 : 32 <= hyperceil segment_size <= 65535) by lia.
  unfold PMA_new in *. unfold uint16_max in *.
  destruct (Z.ltb_spec 65535 (hyperceil segment_size)) as [? | _]; [lia |].
  assert (Hmod : hyperceil segment_size mod 2 ^ 16 = hyperceil segment_size).
  { apply Z.mod_small. change (2 ^ 16) with 65536. lia. }
  rewrite Hmod in *.
  destruct (Z.ltb_spec (hyperceil segment_size) 32) as [? | _]; [lia |].
  destruct (negb (hyperceil pages_per_extent =? pages_per_extent));
    [exfalso; apply Hnr, Hinv; reflexivity |].
  destruct (negb (memory_page_size pf mod (hyperceil segment_size * sizeof_int64) =? 0));
    [exfalso; apply Hnr, Hinv; reflexivity |].
  unfold alloc_workspace_divides_by_zero. cbv zeta.
  destruct (Z.eqb_spec (extent_size_bytes pf pages_per_extent) 0) as [E | _].
  - rewrite E.
    assert (H0 : 0 <= u64 (1 * hyperceil segment_size * sizeof_int64))
      by (unfold u64; apply Z.mod_pos_bound; lia).
    apply Z.leb_le in H0. rewrite H0. reflexivity.
  - rewrite andb_false_r. reflexivity.
Qed.

(** A storage that the constructor has built has a non-zero extent
    size: no later call of [alloc_workspace] divides by zero. *)
Lemma constructed_extent_size pf segment_size pages_per_extent st :
  PMA_new pf segment_size pages_per_extent = inr st ->
  extent_size_bytes pf (m_pages_per_extent st) <> 0
  /\ forall segment_capacity num_segments,
       alloc_workspace_divides_by_zero pf segment_capacity (m_pages_per_extent st)
         num_segments = false.
Proof.
  intros H.
  destruct (PMA_new_shape _ _ _ _ H) as (_ & _ & _ & _ & Hp & _). rewrite Hp.
  assert (Hne : extent_size_bytes pf pages_per_extent <> 0).
  { intros E. unfold PMA_new in H.
    destruct (_ <? _); [discriminate |]. destruct (_ <? _); [discriminate |].
    destruct (negb _); [discriminate |]. destruct (negb _); [discriminate |].
    unfold alloc_workspace_divides_by_zero in H. cbv zeta in H. rewrite E in H.
    match type of H with
    | context [0 <=? ?x] => assert (H0 : (0 <=? x) = true)
    end.
    { apply Z.leb_le. unfold u64. apply Z.mod_pos_bound. lia. }
    rewrite H0 in H. discriminate. }
  split; [exact Hne |]. intros cap n. unfold alloc_workspace_divides_by_zero. cbv zeta.
  destruct (Z.eqb_spec (extent_size_bytes pf pages_per_extent) 0); [contradiction |].
  apply andb_false_r.
Qed.

(** X11. A configuration that [PMA::PMA] does not reject.  The
    constructor divides by zero when the [size_t] product of the pages per
    extent and the page size is 0.  Otherwise it builds the storage of an
    empty index: no element, one segment of the rounded capacity, height
    1, keys and values of one segment, two size slots with the mark 0 in
    the second one, and rewired memory exactly when one segment fills an
    extent. *)
Theorem PMA_new_constructs (pf : Platform) (segment_size pages_per_extent : Z) :
  ~ rejected pf segment_size pages_per_extent ->
  (extent_size_bytes pf pages_per_extent = 0 ->
   PMA_new pf segment_size pages_per_extent = inl division_by_zero)
  /\ (extent_size_bytes pf pages_per_extent <> 0 ->
      exists st, PMA_new pf segment_size pages_per_extent = inr st
        /\ m_cardinality st = 0 /\ m_number_segments st = 1 /\ m_height st = 1
        /\ m_segment_capacity st = hyperceil segment_size
        /\ m_capacity st = hyperceil segment_size
        /\ m_pages_per_extent st = pages_per_extent
        /\ len (m_keys st) = hyperceil segment_size
        /\ len (m_values st) = hyperceil segment_size
        /\ len (m_segment_sizes st) = 2
        /\ get (m_segment_sizes st) 1 = 0
        /\ m_memory_values st = m_memory_keys st
        /\ m_memory_keys st
           = if extent_size_bytes pf pages_per_extent <=? hyperceil segment_size * 8
             then Some {| get_extent_size := extent_size_bytes pf pages_per_extent;
                          get_used_buffers := 0 |}
             else None).
Proof.
  intros Hnr. pose proof (PMA_new_accepted pf segment_size pages_per_extent Hnr) as Heq.
  split; intros He.
  - rewrite Heq, He. reflexivity.
  - destruct (Z.eqb_spec (extent_size_bytes pf pages_per_extent) 0) as [? | _];
      [contradiction |].
    cbv zeta in Heq. eexists. split; [exact Heq |].
    destruct (PMA_new_shape _ _ _ _ Heq)
      as (Hc & HS & Hh & Hcap & Hp & HB & _ & Hk & Hv & Hs & Hs1).
    split; [exact Hc |]. split; [exact HS |]. split; [exact Hh |].
    split; [exact HB |]. split; [rewrite Hcap; exact HB |]. split; [exact Hp |].
    split; [rewrite Hk; exact HB |]. split; [rewrite Hv; exact HB |].
    split; [exact Hs |]. split; [exact Hs1 |].
    split; [reflexivity |].
    cbn [m_memory_keys alloc_workspace ws_memory_keys].
    pose proof (hyperceil_pos segment_size) as Hpos.
    unfold rejected in Hnr.
    assert (Hsmall : u64 (1 * hyperceil segment_size * sizeof_int64)
                     = hyperceil segment_size * 8).
    { unfold u64, sizeof_int64. rewrite Z.mod_small; [lia |].
      change (2 ^ 64) with 18446744073709551616. lia. }
    rewrite Hsmall. reflexivity.
Qed.

Lemma PMA_new_constructs_witness :
  exists st, PMA_new linux_4k 64 16 = inr st
    /\ m_cardinality st = 0 /\ m_number_segments st = 1 /\ m_height st = 1
    /\ m_segment_capacity st = hyperceil 64
    /\ m_capacity st = hyperceil 64
    /\ m_pages_per_extent st = 16
    /\ len (m_keys st) = hyperceil 64
    /\ len (m_values st) = hyperceil 64
    /\ len (m_segment_sizes st) = 2
    /\ get (m_segment_sizes st) 1 = 0
    /\ m_memory_values st = m_memory_keys st
    /\ m_memory_keys st
       = if extent_size_bytes linux_4k 16 <=? hyperceil 64 * 8
         then Some {| get_extent_size := extent_size_bytes linux_4k 16;
                      get_used_buffers := 0 |}
         else None.
Proof.
  apply (PMA_new_constructs linux_4k 64 16).
  - unfold rejected. change (hyperceil 64) with 64. cbn [memory_page_size linux_4k].
    intros [H | [H | [H | H]]]; try lia.
    + apply H. exists 4. split; [lia | reflexivity].
    + apply H. exists 8. reflexivity.
  - vm_compute. discriminate.
Defined.

Lemma new_index_empty pf db segment_size pages_per_extent t :
  BTreePMACC7_new pf db segment_size pages_per_extent = inr t -> empty_index t.
Proof.
  unfold BTreePMACC7_new.
  destruct (PMA_new pf segment_size pages_per_extent) as [e | st] eqn:E; [discriminate |].
  intros H. injection H as <-.
  destruct (PMA_new_shape _ _ _ _ E)
    as (Hc & HS & _ & _ & _ & HB & HB32 & Hk & Hv & Hs & Hs1).
  unfold empty_index. cbn [m_storage].
  split; [exact Hc |]. split; [exact HS |]. split.
  { rewrite HB. exists (Z.log2_up segment_size). split; [apply Z.log2_up_nonneg | reflexivity]. }
  split; [lia |]. split; [lia |]. split; [lia |]. split; [lia | exact Hs1].
Qed.

Lemma to_list_empty_iterator st : Iterator.to_list (Iterator.make_empty st) = [].
Proof. unfold Iterator.to_list. apply drain_exhausted. reflexivity. Qed.

(** X1. [BTreePMACC7::iterator] on an index that is not empty and whose
    segments are all in use: the constructor of the iterator succeeds, and
    the loop [while(it->hasNext()) it->next()] yields exactly the stored
    pairs, in segment order (each even segment from [B - size] to [B - 1],
    each odd segment from [0] to [size - 1]). *)
Theorem iterator_yields_contents t :
  empty t = false ->
  segments_in_use (m_storage t) ->
  int64_keys (traversal (m_storage t)) ->
  exists it, iterator t = inr it /\ Iterator.to_list it = contents (m_storage t).
Proof.
  intros He Huse Hkeys. unfold iterator. rewrite He.
  exact (full_scan_to_list (m_storage t) Huse Hkeys).
Qed.

(** C7. [load_sorted(A)] on an empty index of one segment, then the
    iterator over the unbounded range: the iterator yields exactly the
    pairs of [A], in the order of [A].  The keys of [A] are [int64_t]
    values and the upper density thresholds lie between 1/2 and 1; that
    [A] is sorted is not needed for this. *)
Theorem load_sorted_then_iterate pf merge t array :
  empty_index t ->
  upper_thresholds_ok (m_density_bounds t) ->
  int64_keys (map fst array) ->
  exists it,
    iterator (load_sorted pf merge t array) = inr it /\ Iterator.to_list it = array.
Proof.
  intros He Hth Hkeys. unfold load_sorted.
  destruct (Z.eqb_spec (len array) 0) as [H0 | Hne].
  - destruct array; [| discriminate].
    exists (empty_iterator t). unfold iterator, empty.
    destruct He as (-> & _). cbn [Z.eqb].
    split; [reflexivity | apply to_list_empty_iterator].
  - assert (Hemp : empty t = true).
    { unfold empty. destruct He as (-> & _). reflexivity. }
    rewrite Hemp.
    assert (Hnil : array <> []) by (intros ->; apply Hne; reflexivity).
    destruct (load_empty_result pf t array He Hth Hnil) as (He' & Huse & Hcont).
    unfold iterator. rewrite He'.
    destruct (full_scan_to_list (m_storage (load_empty pf t array)) Huse) as (it & Hit & Hl).
    + rewrite traversal_contents, Hcont. exact Hkeys.
    + exists it. split; [exact Hit | now rewrite Hl].
Qed.

Lemma sparse_head_in_use : segments_in_use (m_storage sparse_head).
Proof.
  assert (HS : m_number_segments (m_storage sparse_head) = 2) by (vm_compute; reflexivity).
  unfold segments_in_use. rewrite HS.
  split; [vm_compute; reflexivity |].
  split; [right; split; vm_compute; reflexivity |].
  split; [vm_compute; discriminate |].
  split; [vm_compute; discriminate |].
  split; [vm_compute; discriminate |].
  split.
  - intros s Hs. assert (Hs' : s = 0 \/ s = 1) by lia.
    destruct Hs' as [-> | ->]; vm_compute; (split; [reflexivity | discriminate]).
  - intros H. discriminate H.
Qed.

Lemma new_index_32_empty : empty_index (ascending 0).
Proof.
  unfold empty_index. cbv zeta.
  split; [vm_compute; reflexivity |].
  split; [vm_compute; reflexivity |].
  split; [exists 5; split; vm_compute; [discriminate | reflexivity] |].
  split; [vm_compute; discriminate |].
  split; [vm_compute; discriminate |].
  split; [vm_compute; discriminate |].
  split; [vm_compute; discriminate | vm_compute; reflexivity].
Qed.

Lemma iterator_yields_contents_witness :
  exists it, iterator sparse_head = inr it
             /\ Iterator.to_list it = contents (m_storage sparse_head).
Proof.
  apply (iterator_yields_contents sparse_head).
  - vm_compute. reflexivity.
  - exact sparse_head_in_use.
  - apply int64_keys_forallb. vm_compute. reflexivity.
Defined.

Lemma load_sorted_then_iterate_witness :
  exists it,
    iterator (load_sorted linux_4k (fun t _ => t) (ascending 0)
                (map (fun k => (k, 2 * k)) (zrange 1 40))) = inr it
    /\ Iterator.to_list it = map (fun k => (k, 2 * k)) (zrange 1 40).
Proof.
  apply (load_sorted_then_iterate linux_4k (fun t _ => t) (ascending 0)).
  - exact new_index_32_empty.
  - unfold upper_thresholds_ok. split; [| split]; vm_compute; discriminate.
  - apply int64_keys_forallb. vm_compute. reflexivity.
Defined.

(* ===================================================================== *)
(** * Point lookups                                                       *)
(* ===================================================================== *)

Lemma scan_key_lookup st base k n : forall i stop,
  i <= stop -> stop - i <= Z.of_nat n ->
  (if scan_key n (m_keys st) base i stop k <? stop
   then get (m_values st) (base + scan_key n (m_keys st) base i stop k)
   else -1)
  = lookup k (map (entry st) (zrange (base + i) (Z.to_nat (stop - i)))).
Proof.
  induction n as [| n IH]; intros i stop Hi Hn; cbn [scan_key].
  - replace (Z.to_nat (stop - i)) with 0%nat by lia.
    destruct (Z.ltb_spec i stop); [lia | reflexivity].
  - destruct (Z.ltb_spec i stop) as [Hlt | Hge].
    + replace (Z.to_nat (stop - i)) with (S (Z.to_nat (stop - (i + 1)))) by lia.
      cbn [zrange map]. unfold lookup. cbn [List.find entry fst snd].
      destruct (get (m_keys st) (base + i) =? k) eqn:E.
      * destruct (Z.ltb_spec i stop); [reflexivity | lia].
      * rewrite (IH (i + 1) stop) by lia. unfold lookup.
        replace (base + (i + 1)) with (base + i + 1) by lia. reflexivity.
    + replace (Z.to_nat (stop - i)) with 0%nat by lia.
      destruct (Z.ltb_spec i stop); [lia | reflexivity].
Qed.

(** X2. [find(key)] on an index that is not empty returns the value of the
    first pair with this key in the packed run of the segment that the
    index selects, and the sentinel -1 when that run has no such pair. *)
Theorem find_in_selected_segment (t : BTreePMACC7) (key : Z) :
  empty t = false ->
  0 <= get (m_segment_sizes (m_storage t)) (index_find (m_index t) key) ->
  find t key = lookup key (run (m_storage t) (index_find (m_index t) key)).
Proof.
  intros He Hsz. unfold find. rewrite He. cbv zeta.
  set (st := m_storage t) in *. set (B := m_segment_capacity st).
  set (s := index_find (m_index t) key) in *.
  set (sz := get (m_segment_sizes st) s) in *.
  unfold run, run_cells, run_start. fold B sz.
  destruct (s mod 2 =? 0).
  - rewrite (scan_key_lookup st (s * B) key _ (B - sz) B) by lia.
    f_equal. f_equal. f_equal; [lia | f_equal; lia].
  - rewrite (scan_key_lookup st (s * B) key _ 0 sz) by lia.
    f_equal. f_equal. f_equal; [lia | f_equal; lia].
Qed.

Lemma lookup_absent k l : ~ In k (map fst l) -> lookup k l = -1.
Proof.
  intros H. unfold lookup.
  destruct (List.find (fun p => fst p =? k) l) as [p |] eqn:E; [| reflexivity].
  apply find_some in E. destruct E as [Hin Hk]. apply Z.eqb_eq in Hk.
  exfalso. apply H. rewrite <- Hk. now apply in_map.
Qed.

Lemma keys_of_run st s : map fst (run st s) = map (get (m_keys st)) (run_cells st s).
Proof. unfold run. rewrite map_map. reflexivity. Qed.

(** X3. [find(key)] of a key that is stored in no segment returns the
    sentinel -1; the index holds one separator per segment. *)
Theorem find_missing_key (t : BTreePMACC7) (key : Z) :
  len (m_index t) = m_number_segments (m_storage t) ->
  1 <= m_number_segments (m_storage t) ->
  (forall s, 0 <= s < m_number_segments (m_storage t) ->
             0 <= get (m_segment_sizes (m_storage t)) s) ->
  ~ stored (m_storage t) key ->
  find t key = -1.
Proof.
  intros Hix HS Hsz Hns.
  destruct (empty t) eqn:He; [unfold find; now rewrite He |].
  assert (Hne : m_index t <> []).
  { intros E. rewrite E in Hix. cbn in Hix. lia. }
  pose proof (index_find_range (m_index t) key Hne) as Hr. rewrite Hix in Hr.
  rewrite (find_in_selected_segment t key He (Hsz _ Hr)).
  apply lookup_absent. rewrite keys_of_run. intros Hin.
  apply in_map_iff in Hin. destruct Hin as (c & Hc & Hcell).
  exact (not_stored_cell _ _ _ c Hns Hr Hcell Hc).
Qed.

(* ===================================================================== *)
(** * Shifting the cells of a segment                                     *)
(* ===================================================================== *)

(** [for j = a .. a+n-1: vs[base+j] = vs[base+j+1]] *)
Lemma fold_shift_left base n : forall a vs,
  0 <= base + a -> base + a + Z.of_nat n <= len vs ->
  len (fold_left (fun vs j => set vs (base + j) (get vs (base + j + 1))) (zrange a n) vs)
  = len vs
  /\ forall c,
       get (fold_left (fun vs j => set vs (base + j) (get vs (base + j + 1))) (zrange a n) vs) c
       = if (base + a <=? c) && (c <? base + a + Z.of_nat n) then get vs (c + 1) else get vs c.
Proof.
  induction n as [| n IH]; intros a vs Ha Hlen; cbn [zrange fold_left].
  - split; [reflexivity |]. intros c.
    destruct (Z.leb_spec (base + a) c), (Z.ltb_spec c (base + a + Z.of_nat 0));
      cbn [andb]; try reflexivity; lia.
  - destruct (IH (a + 1) (set vs (base + a) (get vs (base + a + 1)))) as [L G];
      rewrite ?len_set; try lia.
    split; [rewrite L; apply len_set |]. intros c. rewrite G.
    destruct (Z.leb_spec (base + (a + 1)) c), (Z.ltb_spec c (base + (a + 1) + Z.of_nat n)),
      (Z.leb_spec (base + a) c), (Z.ltb_spec c (base + a + Z.of_nat (S n)));
      cbn [andb]; try lia;
      try (rewrite get_set_ne by lia; reflexivity).
    assert (c = base + a) by lia. subst c. rewrite get_set_eq by lia. reflexivity.
Qed.

(** [for j = a, a-1, .., a-n+1: vs[base+j] = vs[base+j-1]] *)
Lemma fold_shift_right base n : forall a vs,
  0 <= base + a - Z.of_nat n -> base + a < len vs ->
  len (fold_left (fun vs j => set vs (base + j) (get vs (base + j - 1))) (zrange_down a n) vs)
  = len vs
  /\ forall c,
       get (fold_left (fun vs j => set vs (base + j) (get vs (base + j - 1)))
              (zrange_down a n) vs) c
       = if (base + a - Z.of_nat n <? c) && (c <=? base + a) then get vs (c - 1) else get vs c.
Proof.
  induction n as [| n IH]; intros a vs Ha Hlen; cbn [zrange_down fold_left].
  - split; [reflexivity |]. intros c.
    destruct (Z.ltb_spec (base + a - Z.of_nat 0) c), (Z.leb_spec c (base + a));
      cbn [andb]; try reflexivity; lia.
  - destruct (IH (a - 1) (set vs (base + a) (get vs (base + a - 1)))) as [L G];
      rewrite ?len_set; try lia.
    split; [rewrite L; apply len_set |]. intros c. rewrite G.
    destruct (Z.ltb_spec (base + (a - 1) - Z.of_nat n) c), (Z.leb_spec c (base + (a - 1))),
      (Z.ltb_spec (base + a - Z.of_nat (S n)) c), (Z.leb_spec c (base + a));
      cbn [andb]; try lia;
      try (rewrite get_set_ne by lia; reflexivity).
    assert (c = base + a) by lia. subst c. rewrite get_set_eq by lia. reflexivity.
Qed.

(** The loop of the insertion into an even segment. *)
Lemma shift_even_spec base stop key n : forall keys i0,
  stop - i0 <= Z.of_nat n -> i0 <= stop -> 0 <= base + i0 -> base + stop < len keys ->
  exists keys' i,
    shift_even n keys base i0 stop key = (keys', i)
    /\ i0 <= i <= stop
    /\ (forall j, i0 <= j < i -> get keys (base + j + 1) < key)
    /\ (i < stop -> key <= get keys (base + i + 1))
    /\ len keys' = len keys
    /\ forall c, get keys' c =
         if (base + i0 <=? c) && (c <? base + i) then get keys (c + 1) else get keys c.
Proof.
  induction n as [| n IH]; intros keys i0 Hn Hi Hb Hl; cbn [shift_even].
  - exists keys, i0. split; [reflexivity |]. split; [lia |]. split; [intros; lia |].
    split; [lia |]. split; [reflexivity |]. intros c.
    destruct (Z.leb_spec (base + i0) c), (Z.ltb_spec c (base + i0)); cbn [andb];
      try reflexivity; lia.
  - destruct (Z.ltb_spec i0 stop) as [Hlt | Hge]; cbn [andb].
    + destruct (Z.ltb_spec (get keys (base + i0 + 1)) key) as [Hk | Hk].
      * destruct (IH (set keys (base + i0) (get keys (base + i0 + 1))) (i0 + 1))
          as (keys' & i & E & Hr & Hpre & Hpost & L & G); rewrite ?len_set; try lia.
        exists keys', i. split; [exact E |]. split; [lia |].
        assert (Hsame : forall c, base + i0 < c ->
                  get (set keys (base + i0) (get keys (base + i0 + 1))) c = get keys c)
          by (intros c Hc; apply get_set_ne; lia).
        split.
        { intros j Hj. destruct (Z.eq_dec j i0) as [-> | Hne]; [exact Hk |].
          rewrite <- Hsame by lia. apply Hpre. lia. }
        split; [intros Hs; rewrite <- Hsame by lia; apply Hpost; exact Hs |].
        split; [rewrite L; apply len_set |].
        intros c. rewrite G.
        destruct (Z.leb_spec (base + (i0 + 1)) c), (Z.ltb_spec c (base + i)),
          (Z.leb_spec (base + i0) c); cbn [andb]; try lia;
          try (rewrite Hsame by lia; reflexivity);
          try (rewrite get_set_ne by lia; reflexivity).
        assert (c = base + i0) by lia. subst c. rewrite get_set_eq by lia. reflexivity.
      * exists keys, i0. split; [reflexivity |]. split; [lia |]. split; [intros; lia |].
        split; [intros _; exact Hk |]. split; [reflexivity |]. intros c.
        destruct (Z.leb_spec (base + i0) c), (Z.ltb_spec c (base + i0)); cbn [andb];
          try reflexivity; lia.
    + exists keys, i0. split; [reflexivity |]. split; [lia |]. split; [intros; lia |].
      split; [lia |]. split; [reflexivity |]. intros c.
      destruct (Z.leb_spec (base + i0) c), (Z.ltb_spec c (base + i0)); cbn [andb];
        try reflexivity; lia.
Qed.

(** The loop of the insertion into an odd segment. *)
Lemma shift_odd_spec base key n : forall keys i0,
  i0 <= Z.of_nat n -> 0 <= i0 -> 0 <= base -> base + i0 < len keys ->
  exists keys' i,
    shift_odd n keys base i0 key = (keys', i)
    /\ 0 <= i <= i0
    /\ (forall j, i < j <= i0 -> key < get keys (base + j - 1))
    /\ (0 < i -> get keys (base + i - 1) <= key)
    /\ len keys' = len keys
    /\ forall c, get keys' c =
         if (base + i <? c) && (c <=? base + i0) then get keys (c - 1) else get keys c.
Proof.
  induction n as [| n IH]; intros keys i0 Hn Hi Hb Hl; cbn [shift_odd].
  - exists keys, i0. split; [reflexivity |]. split; [lia |]. split; [intros; lia |].
    split; [lia |]. split; [reflexivity |]. intros c.
    destruct (Z.ltb_spec (base + i0) c), (Z.leb_spec c (base + i0)); cbn [andb];
      try reflexivity; lia.
  - destruct (Z.ltb_spec 0 i0) as [Hlt | Hge]; cbn [andb].
    + destruct (Z.ltb_spec key (get keys (base + i0 - 1))) as [Hk | Hk].
      * destruct (IH (set keys (base + i0) (get keys (base + i0 - 1))) (i0 - 1))
          as (keys' & i & E & Hr & Hpre & Hpost & L & G); rewrite ?len_set; try lia.
        exists keys', i. split; [exact E |]. split; [lia |].
        assert (Hsame : forall c, c < base + i0 ->
                  get (set keys (base + i0) (get keys (base + i0 - 1))) c = get keys c)
          by (intros c Hc; apply get_set_ne; lia).
        split.
        { intros j Hj. destruct (Z.eq_dec j i0) as [-> | Hne]; [exact Hk |].
          rewrite <- Hsame by lia. apply Hpre. lia. }
        split; [intros Hs; rewrite <- Hsame by lia; apply Hpost; exact Hs |].
        split; [rewrite L; apply len_set |].
        intros c. rewrite G.
        destruct (Z.ltb_spec (base + i) c), (Z.leb_spec c (base + (i0 - 1))),
          (Z.leb_spec c (base + i0)); cbn [andb]; try lia;
          try (rewrite Hsame by lia; reflexivity);
          try (rewrite get_set_ne by lia; reflexivity).
        assert (c = base + i0) by lia. subst c. rewrite get_set_eq by lia. reflexivity.
      * exists keys, i0. split; [reflexivity |]. split; [lia |]. split; [intros; lia |].
        split; [intros _; lia |]. split; [reflexivity |]. intros c.
        destruct (Z.ltb_spec (base + i0) c), (Z.leb_spec c (base + i0)); cbn [andb];
          try reflexivity; lia.
    + exists keys, i0. split; [reflexivity |]. split; [lia |]. split; [intros; lia |].
      split; [lia |]. split; [reflexivity |]. intros c.
      destruct (Z.ltb_spec (base + i0) c), (Z.leb_spec c (base + i0)); cbn [andb];
        try reflexivity; lia.
Qed.

(* ===================================================================== *)
(** * Insertion into a segment with room                                  *)
(* ===================================================================== *)

Lemma insert_first_app k v l1 l2 :
  (forall p, In p l1 -> fst p < k) ->
  match l2 with [] => True | p :: _ => k <= fst p end ->
  insert_first k v (l1 ++ l2) = l1 ++ (k, v) :: l2.
Proof.
  induction l1 as [| a l1 IH]; intros H1 H2; cbn [app insert_first].
  - destruct l2 as [| p r]; [reflexivity |]. cbn [insert_first].
    destruct (Z.ltb_spec (fst p) k); [lia | reflexivity].
  - pose proof (H1 a (or_introl eq_refl)).
    destruct (Z.ltb_spec (fst a) k); [| lia].
    f_equal. apply IH; [| exact H2]. intros p Hp. apply H1. now right.
Qed.

Lemma insert_desc_app k v l1 l2 :
  (forall p, In p l1 -> k < fst p) ->
  match l2 with [] => True | p :: _ => fst p <= k end ->
  insert_desc k v (l1 ++ l2) = l1 ++ (k, v) :: l2.
Proof.
  induction l1 as [| a l1 IH]; intros H1 H2; cbn [app insert_desc].
  - destruct l2 as [| p r]; [reflexivity |]. cbn [insert_desc].
    destruct (Z.ltb_spec k (fst p)); [lia | reflexivity].
  - pose proof (H1 a (or_introl eq_refl)).
    destruct (Z.ltb_spec k (fst a)); [| lia].
    f_equal. apply IH; [| exact H2]. intros p Hp. apply H1. now right.
Qed.

Lemma insert_last_app k v l1 l2 :
  (forall p, In p l2 -> k < fst p) ->
  match rev l1 with [] => True | p :: _ => fst p <= k end ->
  insert_last k v (l1 ++ l2) = l1 ++ (k, v) :: l2.
Proof.
  intros H2 H1. unfold insert_last.
  rewrite rev_app_distr, insert_desc_app; [| | exact H1].
  - rewrite rev_app_distr. cbn [rev]. rewrite !rev_involutive, <- app_assoc. reflexivity.
  - intros p Hp. apply H2. now apply in_rev.
Qed.

(** The cells of a run lie inside the segment. *)
Lemma run_cells_inside st s c :
  0 <= get (m_segment_sizes st) s <= m_segment_capacity st ->
  In c (run_cells st s) ->
  s * m_segment_capacity st <= c < (s + 1) * m_segment_capacity st.
Proof.
  intros Hsz Hc. unfold run_cells, run_start in Hc. apply in_zrange in Hc.
  destruct (s mod 2 =? 0); lia.
Qed.

Lemma segments_apart B s s' : 0 < B -> s' <> s ->
  (s' + 1) * B <= s * B \/ (s + 1) * B <= s' * B.
Proof.
  intros HB Hne. destruct (Z_lt_le_dec s' s).
  - left. apply Z.mul_le_mono_nonneg_r; lia.
  - right. apply Z.mul_le_mono_nonneg_r; lia.
Qed.

(** A run is the same in two states that agree on its segment. *)
Lemma run_unchanged st st' s :
  m_segment_capacity st' = m_segment_capacity st ->
  get (m_segment_sizes st') s = get (m_segment_sizes st) s ->
  0 <= get (m_segment_sizes st) s <= m_segment_capacity st ->
  (forall c, s * m_segment_capacity st <= c < (s + 1) * m_segment_capacity st ->
             entry st' c = entry st c) ->
  run st' s = run st s.
Proof.
  intros HB Hsz Hb Hcells. unfold run.
  assert (Hrc : run_cells st' s = run_cells st s).
  { unfold run_cells, run_start. now rewrite HB, Hsz. }
  rewrite Hrc. apply map_ext_in. intros c Hc. apply Hcells.
  apply (run_cells_inside st s c Hb Hc).
Qed.

Section Room.
Variable t : BTreePMACC7.
Variables s k v : Z.

Local Abbreviation st := (m_storage t).
Local Abbreviation B := (m_segment_capacity (m_storage t)).
Local Abbreviation S_ := (m_number_segments (m_storage t)).
Local Abbreviation sizes := (m_segment_sizes (m_storage t)).
Local Abbreviation sz := (get (m_segment_sizes (m_storage t)) s).

Hypothesis Hs : 0 <= s < S_.
Hypothesis HB : 0 < B.
Hypothesis Hkeys : S_ * B <= len (m_keys st).
Hypothesis Hvalues : S_ * B <= len (m_values st).
Hypothesis Hsizes : S_ <= len sizes.
Hypothesis Hbound : forall s', 0 <= s' < S_ -> 0 <= get sizes s' <= B.
Hypothesis Hroom : sz < B.

Lemma segment_inside : 0 <= s * B /\ (s + 1) * B <= len (m_keys st)
                       /\ (s + 1) * B <= len (m_values st).
Proof.
  assert ((s + 1) * B <= S_ * B) by (apply Z.mul_le_mono_nonneg_r; lia).
  assert (0 <= s * B) by (apply Z.mul_nonneg_nonneg; lia).
  lia.
Qed.

(** The state after the insertion, the even case. *)
Lemma storage_insert_even :
  s mod 2 = 0 ->
  exists i keys' values',
    storage_insert_unsafe t s k v =
      (with_storage t
         (with_cardinality
            (with_sizes (with_values (with_keys st keys') values') (set sizes s (sz + 1)))
            (m_cardinality st + 1)),
       i =? B - sz - 1)
    /\ len keys' = len (m_keys st) /\ len values' = len (m_values st)
    /\ B - sz - 1 <= i <= B - 1
    /\ (forall j, B - sz - 1 <= j < i -> get (m_keys st) (s * B + j + 1) < k)
    /\ (i < B - 1 -> k <= get (m_keys st) (s * B + i + 1))
    /\ (forall c, (get keys' c, get values' c) =
          if c =? s * B + i then (k, v)
          else if (s * B + (B - sz - 1) <=? c) && (c <? s * B + i) then entry st (c + 1)
          else entry st c).
Proof.
  intros Hpar. pose proof (Hbound s Hs) as Hsz. pose proof segment_inside as (H0 & Hk & Hv).
  unfold storage_insert_unsafe. cbv zeta. rewrite Hpar. change (0 =? 0) with true. cbv iota.
  destruct (shift_even_spec (s * B) (B - 1) k
              (Z.to_nat (B - 1 - (B - sz - 1))) (m_keys st) (B - sz - 1))
    as (keys' & i & E & Hr & Hpre & Hpost & L & G); try lia.
  rewrite E. cbv beta iota.
  destruct (fold_shift_left (s * B) (Z.to_nat (i - (B - sz - 1))) (B - sz - 1) (m_values st))
    as [Lv Gv]; try lia.
  eexists i, _, _. split; [reflexivity |].
  split; [rewrite len_set; exact L |]. split; [rewrite len_set; exact Lv |].
  split; [exact Hr |]. split; [exact Hpre |]. split; [exact Hpost |].
  intros c. unfold entry.
  destruct (Z.eqb_spec c (s * B + i)) as [-> | Hne].
  - rewrite !get_set_eq by lia. reflexivity.
  - rewrite !get_set_ne by lia. rewrite G, Gv.
    replace (s * B + (B - sz - 1) + Z.of_nat (Z.to_nat (i - (B - sz - 1)))) with (s * B + i)
      by lia.
    destruct ((s * B + (B - sz - 1) <=? c) && (c <? s * B + i)); reflexivity.
Qed.

(** The state after the insertion, the odd case. *)
Lemma storage_insert_odd :
  s mod 2 <> 0 ->
  exists i keys' values',
    storage_insert_unsafe t s k v =
      (with_storage t
         (with_cardinality
            (with_sizes (with_values (with_keys st keys') values') (set sizes s (sz + 1)))
            (m_cardinality st + 1)),
       i =? 0)
    /\ len keys' = len (m_keys st) /\ len values' = len (m_values st)
    /\ 0 <= i <= sz
    /\ (forall j, i < j <= sz -> k < get (m_keys st) (s * B + j - 1))
    /\ (0 < i -> get (m_keys st) (s * B + i - 1) <= k)
    /\ (forall c, (get keys' c, get values' c) =
          if c =? s * B + i then (k, v)
          else if (s * B + i <? c) && (c <=? s * B + sz) then entry st (c - 1)
          else entry st c).
Proof.
  intros Hpar. pose proof (Hbound s Hs) as Hsz. pose proof segment_inside as (H0 & Hk & Hv).
  unfold storage_insert_unsafe. cbv zeta.
  destruct (Z.eqb_spec (s mod 2) 0) as [He | _]; [contradiction |].
  destruct (shift_odd_spec (s * B) k (Z.to_nat sz) (m_keys st) sz)
    as (keys' & i & E & Hr & Hpre & Hpost & L & G); try lia.
  rewrite E. cbv beta iota.
  destruct (fold_shift_right (s * B) (Z.to_nat (sz - i)) sz (m_values st))
    as [Lv Gv]; try lia.
  eexists i, _, _. split; [reflexivity |].
  split; [rewrite len_set; exact L |]. split; [rewrite len_set; exact Lv |].
  split; [exact Hr |]. split; [exact Hpre |]. split; [exact Hpost |].
  intros c. unfold entry.
  destruct (Z.eqb_spec c (s * B + i)) as [-> | Hne].
  - rewrite !get_set_eq by lia. reflexivity.
  - rewrite !get_set_ne by lia. rewrite G, Gv.
    replace (s * B + sz - Z.of_nat (Z.to_nat (sz - i))) with (s * B + i) by lia.
    destruct ((s * B + i <? c) && (c <=? s * B + sz)); reflexivity.
Qed.

(** The runs after the insertion: the pair is inserted into the run of
    the segment, the other runs are the same. *)
Lemma storage_insert_runs :
  run (m_storage (fst (storage_insert_unsafe t s k v))) s
  = (if s mod 2 =? 0 then insert_first k v (run st s) else insert_last k v (run st s))
  /\ (forall s', 0 <= s' < S_ -> s' <> s ->
        run (m_storage (fst (storage_insert_unsafe t s k v))) s' = run st s')
  /\ (if snd (storage_insert_unsafe t s k v)
      then run (m_storage (fst (storage_insert_unsafe t s k v))) s = (k, v) :: run st s
      else hd_error (run (m_storage (fst (storage_insert_unsafe t s k v))) s)
           = hd_error (run st s)).
Proof.
  pose proof (Hbound s Hs) as Hsz. pose proof segment_inside as (H0 & Hk & Hv).
  destruct (Z.eqb_spec (s mod 2) 0) as [Hpar | Hpar].
  - destruct (storage_insert_even Hpar) as (i & keys' & values' & E & _ & _ & Hr & Hpre & Hpost & G).
    rewrite E. cbn [fst snd]. fields.
    set (st' := with_cardinality _ _).
    assert (Hrun' : run st' s =
              map (entry st) (zrange (s * B + (B - sz - 1) + 1) (Z.to_nat (i - (B - sz - 1))))
              ++ (k, v) :: map (entry st) (zrange (s * B + i + 1) (Z.to_nat (B - 1 - i)))).
    { unfold run, run_cells, run_start. rewrite Hpar. change (0 =? 0) with true. cbv iota.
      change (m_segment_sizes st') with (set sizes s (sz + 1)).
      change (m_segment_capacity st') with B.
      rewrite get_set_eq by lia.
      replace ((s + 1) * B - (sz + 1)) with (s * B + (B - sz - 1)) by lia.
      replace (Z.to_nat (sz + 1))
        with (Z.to_nat (i - (B - sz - 1)) + (1 + Z.to_nat (B - 1 - i)))%nat by lia.
      rewrite zrange_app, map_app. cbn [Nat.add zrange map]. f_equal; [| f_equal].
      - rewrite <- (map_zrange_shift (entry st) (s * B + (B - sz - 1))
                     (s * B + (B - sz - 1) + 1)).
        apply map_ext_in. intros c Hc. apply in_zrange in Hc.
        change (entry st' c) with (get keys' c, get values' c). rewrite G.
        destruct (Z.eqb_spec c (s * B + i)); [lia |].
        destruct (Z.leb_spec (s * B + (B - sz - 1)) c), (Z.ltb_spec c (s * B + i));
          cbn [andb]; try lia.
        f_equal. lia.
      - change (entry st' ?c) with (get keys' c, get values' c). rewrite G.
        replace (s * B + (B - sz - 1) + Z.of_nat (Z.to_nat (i - (B - sz - 1))))
          with (s * B + i) by lia.
        now rewrite Z.eqb_refl.
      - replace (s * B + (B - sz - 1) + Z.of_nat (Z.to_nat (i - (B - sz - 1))) + 1)
          with (s * B + i + 1) by lia.
        apply map_ext_in. intros c Hc. apply in_zrange in Hc.
        change (entry st' c) with (get keys' c, get values' c). rewrite G.
        destruct (Z.eqb_spec c (s * B + i)); [lia |].
        destruct (Z.leb_spec (s * B + (B - sz - 1)) c), (Z.ltb_spec c (s * B + i));
          cbn [andb]; try lia; reflexivity. }
    assert (Hrun : run st s =
              map (entry st) (zrange (s * B + (B - sz - 1) + 1) (Z.to_nat (i - (B - sz - 1))))
              ++ map (entry st) (zrange (s * B + i + 1) (Z.to_nat (B - 1 - i)))).
    { unfold run, run_cells, run_start. rewrite Hpar. change (0 =? 0) with true. cbv iota.
      replace ((s + 1) * B - sz) with (s * B + (B - sz - 1) + 1) by lia.
      replace (Z.to_nat sz)
        with (Z.to_nat (i - (B - sz - 1)) + Z.to_nat (B - 1 - i))%nat by lia.
      rewrite zrange_app, map_app. do 3 f_equal. lia. }
    split; [| split].
    + rewrite Hrun', Hrun. symmetry. apply insert_first_app.
      * intros p Hp. apply in_map_iff in Hp. destruct Hp as (c & <- & Hc).
        apply in_zrange in Hc. cbn [entry fst].
        replace c with (s * B + (c - s * B - 1) + 1) by lia. apply Hpre. lia.
      * destruct (Z.to_nat (B - 1 - i)) eqn:En; cbn [zrange map]; [exact I |].
        cbn [entry fst]. apply Hpost. lia.
    + intros s' Hs' Hne. apply run_unchanged; [reflexivity | | exact (Hbound s' Hs') |].
      * change (m_segment_sizes st') with (set sizes s (sz + 1)).
        apply get_set_ne. lia.
      * intros c Hc. change (entry st' c) with (get keys' c, get values' c). rewrite G.
        destruct (segments_apart B s s' HB Hne).
        -- destruct (Z.eqb_spec c (s * B + i)); [lia |].
           destruct (Z.leb_spec (s * B + (B - sz - 1)) c); cbn [andb]; [lia | reflexivity].
        -- destruct (Z.eqb_spec c (s * B + i)); [lia |].
           destruct (Z.ltb_spec c (s * B + i)); [lia |].
           now rewrite andb_false_r.
    + destruct (Z.eqb_spec i (B - sz - 1)) as [Ei | Ei].
      * rewrite Hrun', Hrun. rewrite Ei.
        replace (Z.to_nat (B - sz - 1 - (B - sz - 1))) with 0%nat by lia. reflexivity.
      * rewrite Hrun', Hrun.
        destruct (Z.to_nat (i - (B - sz - 1))) eqn:En; [lia |]. reflexivity.
  - destruct (storage_insert_odd Hpar) as (i & keys' & values' & E & _ & _ & Hr & Hpre & Hpost & G).
    rewrite E. cbn [fst snd]. fields.
    set (st' := with_cardinality _ _).
    assert (Hrs : forall x, run_start x s = s * m_segment_capacity x).
    { intros x. unfold run_start. destruct (Z.eqb_spec (s mod 2) 0); [contradiction | reflexivity]. }
    assert (Hrun' : run st' s =
              map (entry st) (zrange (s * B) (Z.to_nat i))
              ++ (k, v) :: map (entry st) (zrange (s * B + i) (Z.to_nat (sz - i)))).
    { unfold run, run_cells. rewrite Hrs.
      change (m_segment_sizes st') with (set sizes s (sz + 1)).
      change (m_segment_capacity st') with B.
      rewrite get_set_eq by lia.
      replace (Z.to_nat (sz + 1)) with (Z.to_nat i + (1 + Z.to_nat (sz - i)))%nat by lia.
      rewrite zrange_app, map_app. cbn [Nat.add zrange map]. f_equal; [| f_equal].
      - apply map_ext_in. intros c Hc. apply in_zrange in Hc.
        change (entry st' c) with (get keys' c, get values' c). rewrite G.
        destruct (Z.eqb_spec c (s * B + i)); [lia |].
        destruct (Z.ltb_spec (s * B + i) c); cbn [andb]; [lia | reflexivity].
      - change (entry st' ?c) with (get keys' c, get values' c). rewrite G.
        replace (s * B + Z.of_nat (Z.to_nat i)) with (s * B + i) by lia.
        now rewrite Z.eqb_refl.
      - replace (s * B + Z.of_nat (Z.to_nat i) + 1) with (s * B + i + 1) by lia.
        rewrite <- (map_zrange_shift (entry st) (s * B + i + 1) (s * B + i)).
        apply map_ext_in. intros c Hc. apply in_zrange in Hc.
        change (entry st' c) with (get keys' c, get values' c). rewrite G.
        destruct (Z.eqb_spec c (s * B + i)); [lia |].
        destruct (Z.ltb_spec (s * B + i) c), (Z.leb_spec c (s * B + sz));
          cbn [andb]; try lia.
        f_equal. lia. }
    assert (Hrun : run st s =
              map (entry st) (zrange (s * B) (Z.to_nat i))
              ++ map (entry st) (zrange (s * B + i) (Z.to_nat (sz - i)))).
    { unfold run, run_cells. rewrite Hrs.
      replace (Z.to_nat sz) with (Z.to_nat i + Z.to_nat (sz - i))%nat by lia.
      rewrite zrange_app, map_app. do 3 f_equal. lia. }
    split; [| split].
    + rewrite Hrun', Hrun. symmetry. apply insert_last_app.
      * intros p Hp. apply in_map_iff in Hp. destruct Hp as (c & <- & Hc).
        apply in_zrange in Hc. cbn [entry fst].
        replace c with (s * B + (c - s * B + 1) - 1) by lia. apply Hpre. lia.
      * destruct (Z.to_nat i) as [| n] eqn:En; [exact I |].
        replace (S n) with (n + 1)%nat by lia.
        rewrite zrange_app, map_app, rev_app_distr. cbn [zrange map rev app].
        cbn [entry fst].
        replace (s * B + Z.of_nat n) with (s * B + i - 1) by lia. apply Hpost. lia.
    + intros s' Hs' Hne. apply run_unchanged; [reflexivity | | exact (Hbound s' Hs') |].
      * change (m_segment_sizes st') with (set sizes s (sz + 1)).
        apply get_set_ne. lia.
      * intros c Hc. change (entry st' c) with (get keys' c, get values' c). rewrite G.
        destruct (segments_apart B s s' HB Hne).
        -- destruct (Z.eqb_spec c (s * B + i)); [lia |].
           destruct (Z.ltb_spec (s * B + i) c); cbn [andb]; [lia | reflexivity].
        -- destruct (Z.eqb_spec c (s * B + i)); [lia |].
           destruct (Z.leb_spec c (s * B + sz)); [lia |].
           now rewrite andb_false_r.
    + destruct (Z.eqb_spec i 0) as [Ei | Ei].
      * rewrite Hrun', Hrun. rewrite Ei. reflexivity.
      * rewrite Hrun', Hrun.
        destruct (Z.to_nat i) eqn:En; [lia |]. reflexivity.
Qed.

(** What the insertion leaves alone, and the two counters. *)
Lemma storage_insert_frame :
  m_index (fst (storage_insert_unsafe t s k v)) = m_index t
  /\ m_density_bounds (fst (storage_insert_unsafe t s k v)) = m_density_bounds t
  /\ m_segment_capacity (m_storage (fst (storage_insert_unsafe t s k v))) = B
  /\ m_number_segments (m_storage (fst (storage_insert_unsafe t s k v))) = S_
  /\ m_segment_sizes (m_storage (fst (storage_insert_unsafe t s k v))) = set sizes s (sz + 1)
  /\ m_cardinality (m_storage (fst (storage_insert_unsafe t s k v))) = m_cardinality st + 1
  /\ len (m_keys (m_storage (fst (storage_insert_unsafe t s k v)))) = len (m_keys st)
  /\ len (m_values (m_storage (fst (storage_insert_unsafe t s k v)))) = len (m_values st).
Proof.
  destruct (Z.eqb_spec (s mod 2) 0) as [Hpar | Hpar].
  - destruct (storage_insert_even Hpar) as (i & keys' & values' & E & Lk & Lv & _).
    rewrite E. cbn [fst]. fields. repeat split; assumption.
  - destruct (storage_insert_odd Hpar) as (i & keys' & values' & E & Lk & Lv & _).
    rewrite E. cbn [fst]. fields. repeat split; assumption.
Qed.

End Room.

(* ===================================================================== *)
(** * Non-decreasing key sequences                                        *)
(* ===================================================================== *)

Lemma non_decreasing_cons a l :
  non_decreasing (a :: l) <-> (forall b, In b l -> a <= b) /\ non_decreasing l.
Proof.
  revert a. induction l as [| b l IH]; intros a.
  - cbn. split; [intros _; split; [intros b [] | exact I] | intros _; exact I].
  - change (non_decreasing (a :: b :: l)) with (a <= b /\ non_decreasing (b :: l)).
    split.
    + intros [Hab Hl]. split; [| exact Hl].
      intros c [<- | Hc]; [exact Hab |].
      apply IH in Hl. destruct Hl as [Hb _]. specialize (Hb c Hc). lia.
    + intros [Ha Hl]. split; [apply Ha; now left | exact Hl].
Qed.

Lemma non_decreasing_app l1 l2 :
  non_decreasing (l1 ++ l2) <->
  non_decreasing l1 /\ non_decreasing l2 /\ (forall a b, In a l1 -> In b l2 -> a <= b).
Proof.
  induction l1 as [| x l1 IH]; cbn [app].
  - split; [intros H; split; [exact I | split; [exact H | intros a b []]] | intros (_ & H & _); exact H].
  - rewrite !non_decreasing_cons, IH. split.
    + intros (Hx & H1 & H2 & H12). split; [split; [| exact H1] |]. 
      * intros b Hb. apply Hx. apply in_or_app. now left.
      * split; [exact H2 |]. intros a b [<- | Ha] Hb.
        -- apply Hx. apply in_or_app. now right.
        -- now apply H12.
    + intros ((Hx & H1) & H2 & H12). split; [| split; [exact H1 | split; [exact H2 |]]].
      * intros b Hb. apply in_app_or in Hb. destruct Hb as [Hb | Hb].
        -- now apply Hx.
        -- apply H12; [now left | exact Hb].
      * intros a b Ha Hb. apply H12; [now right | exact Hb].
Qed.

Lemma non_decreasing_head a l b :
  non_decreasing (a :: l) -> In b (a :: l) -> a <= b.
Proof.
  intros H [<- | Hb]; [lia |]. apply non_decreasing_cons in H. now apply H.
Qed.

Lemma non_decreasing_last l a b :
  non_decreasing (l ++ [a]) -> In b (l ++ [a]) -> b <= a.
Proof.
  intros H Hb. apply non_decreasing_app in H. destruct H as (_ & _ & H).
  apply in_app_or in Hb. destruct Hb as [Hb | [<- | []]]; [| lia].
  apply H; [exact Hb | now left].
Qed.

(** A key that fits between the two parts of a non-decreasing sequence. *)
Lemma non_decreasing_insert l1 l2 k :
  non_decreasing (l1 ++ l2) ->
  (forall a, In a l1 -> a <= k) -> (forall b, In b l2 -> k <= b) ->
  non_decreasing (l1 ++ k :: l2).
Proof.
  intros H H1 H2. apply non_decreasing_app in H. destruct H as (N1 & N2 & N12).
  apply non_decreasing_app. split; [exact N1 |]. split.
  - apply non_decreasing_cons. split; [exact H2 | exact N2].
  - intros a b Ha [<- | Hb]; [now apply H1 | now apply N12].
Qed.

(* ===================================================================== *)
(** * The two insertions into a run                                       *)
(* ===================================================================== *)

Lemma insert_first_split k v l :
  exists l1 l2,
    l = l1 ++ l2 /\ insert_first k v l = l1 ++ (k, v) :: l2
    /\ (forall p, In p l1 -> fst p < k)
    /\ match l2 with [] => True | p :: _ => k <= fst p end.
Proof.
  induction l as [| p l (l1 & l2 & E & Ei & H1 & H2)]; cbn [insert_first].
  - exists [], []. repeat split. intros p [].
  - destruct (Z.ltb_spec (fst p) k) as [Hlt | Hge].
    + exists (p :: l1), l2. cbn [app]. rewrite <- E, Ei.
      split; [reflexivity |]. split; [reflexivity |]. split; [| exact H2].
      intros q [<- | Hq]; [exact Hlt | now apply H1].
    + exists [], (p :: l). cbn [app]. repeat split; [intros q [] | exact Hge].
Qed.

Lemma insert_desc_split k v l :
  exists l1 l2,
    l = l1 ++ l2 /\ insert_desc k v l = l1 ++ (k, v) :: l2
    /\ (forall p, In p l1 -> k < fst p)
    /\ match l2 with [] => True | p :: _ => fst p <= k end.
Proof.
  induction l as [| p l (l1 & l2 & E & Ei & H1 & H2)]; cbn [insert_desc].
  - exists [], []. repeat split. intros p [].
  - destruct (Z.ltb_spec k (fst p)) as [Hlt | Hge].
    + exists (p :: l1), l2. cbn [app]. rewrite <- E, Ei.
      split; [reflexivity |]. split; [reflexivity |]. split; [| exact H2].
      intros q [<- | Hq]; [exact Hlt | now apply H1].
    + exists [], (p :: l). cbn [app]. repeat split; [intros q [] | exact Hge].
Qed.

Lemma insert_last_split k v l :
  exists l1 l2,
    l = l1 ++ l2 /\ insert_last k v l = l1 ++ (k, v) :: l2
    /\ (forall p, In p l2 -> k < fst p)
    /\ match rev l1 with [] => True | p :: _ => fst p <= k end.
Proof.
  destruct (insert_desc_split k v (rev l)) as (m1 & m2 & E & Ei & H1 & H2).
  exists (rev m2), (rev m1). unfold insert_last. rewrite Ei.
  split.
  { rewrite <- rev_app_distr, <- E. symmetry. apply rev_involutive. }
  split.
  { rewrite rev_app_distr. cbn [rev]. now rewrite <- app_assoc. }
  split.
  - intros p Hp. apply H1. now apply in_rev.
  - rewrite rev_involutive. exact H2.
Qed.

Lemma insert_first_perm k v l : Permutation (insert_first k v l) ((k, v) :: l).
Proof.
  destruct (insert_first_split k v l) as (l1 & l2 & -> & -> & _).
  symmetry. apply Permutation_middle.
Qed.

Lemma insert_last_perm k v l : Permutation (insert_last k v l) ((k, v) :: l).
Proof.
  destruct (insert_last_split k v l) as (l1 & l2 & -> & -> & _).
  symmetry. apply Permutation_middle.
Qed.

(** Both insertions keep a run non-decreasing, and keep it between the
    keys around it. *)
Lemma insert_first_sorted k v l :
  non_decreasing (map fst l) -> non_decreasing (map fst (insert_first k v l)).
Proof.
  intros H. destruct (insert_first_split k v l) as (l1 & l2 & -> & -> & H1 & H2).
  rewrite map_app in *. cbn [map fst]. apply non_decreasing_insert; [exact H | |].
  - intros a Ha. apply in_map_iff in Ha. destruct Ha as (p & <- & Hp).
    specialize (H1 p Hp). lia.
  - destruct l2 as [| p l2]; [intros b [] |].
    apply non_decreasing_app in H. destruct H as (_ & N2 & _).
    intros b Hb. cbn [map] in *. pose proof (non_decreasing_head _ _ b N2 Hb). lia.
Qed.

Lemma insert_last_sorted k v l :
  non_decreasing (map fst l) -> non_decreasing (map fst (insert_last k v l)).
Proof.
  intros H. destruct (insert_last_split k v l) as (l1 & l2 & -> & -> & H2 & H1).
  rewrite map_app in *. cbn [map fst]. apply non_decreasing_insert; [exact H | |].
  - apply non_decreasing_app in H. destruct H as (N1 & _ & _).
    destruct (rev l1) as [| p r] eqn:Er; [| ].
    + apply (f_equal (@rev (Z * Z))) in Er. rewrite rev_involutive in Er. subst l1.
      intros a [].
    + apply (f_equal (@rev (Z * Z))) in Er. rewrite rev_involutive in Er. subst l1.
      cbn [rev] in *. rewrite map_app in *. cbn [map] in *.
      intros a Ha. pose proof (non_decreasing_last _ _ a N1 Ha). lia.
  - intros b Hb. apply in_map_iff in Hb. destruct Hb as (p & <- & Hp).
    specialize (H2 p Hp). lia.
Qed.

Lemma lookup_insert_first k v l : lookup k (insert_first k v l) = v.
Proof.
  destruct (insert_first_split k v l) as (l1 & l2 & _ & -> & H1 & _).
  unfold lookup. clear -H1. induction l1 as [| p l1 IH]; cbn [app List.find fst].
  - now rewrite Z.eqb_refl.
  - pose proof (H1 p (or_introl eq_refl)).
    destruct (Z.eqb_spec (fst p) k); [lia |]. apply IH. intros q Hq. apply H1. now right.
Qed.

Lemma lookup_insert_last k v l : ~ In k (map fst l) -> lookup k (insert_last k v l) = v.
Proof.
  intros Hn. destruct (insert_last_split k v l) as (l1 & l2 & -> & -> & _).
  unfold lookup. rewrite map_app in Hn.
  assert (H1 : ~ In k (map fst l1)) by (intros H; apply Hn, in_or_app; now left).
  clear -H1. induction l1 as [| p l1 IH]; cbn [app List.find fst].
  - now rewrite Z.eqb_refl.
  - destruct (Z.eqb_spec (fst p) k) as [He | _].
    + exfalso. apply H1. left. exact He.
    + apply IH. intros H. apply H1. now right.
Qed.

(** The place of the new pair in a non-decreasing run, for either
    insertion. *)
Lemma insert_into_sorted (even : bool) k v l :
  non_decreasing (map fst l) ->
  exists l1 l2,
    l = l1 ++ l2
    /\ (if even then insert_first k v l else insert_last k v l) = l1 ++ (k, v) :: l2
    /\ (forall p, In p l1 -> fst p <= k) /\ (forall p, In p l2 -> k <= fst p).
Proof.
  intros H. destruct even.
  - destruct (insert_first_split k v l) as (l1 & l2 & E & Ei & H1 & H2).
    exists l1, l2. split; [exact E |]. split; [exact Ei |]. split.
    + intros p Hp. specialize (H1 p Hp). lia.
    + subst l. rewrite map_app in H. apply non_decreasing_app in H.
      destruct H as (_ & N2 & _). destruct l2 as [| q l2]; [intros p [] |].
      intros p Hp. cbn [map] in N2.
      pose proof (non_decreasing_head _ _ (fst p) N2 (in_map fst _ _ Hp)). lia.
  - destruct (insert_last_split k v l) as (l1 & l2 & E & Ei & H2 & H1).
    exists l1, l2. split; [exact E |]. split; [exact Ei |]. split.
    + subst l. rewrite map_app in H. apply non_decreasing_app in H.
      destruct H as (N1 & _ & _).
      destruct (rev l1) as [| q r] eqn:Er;
        apply (f_equal (@rev (Z * Z))) in Er; rewrite rev_involutive in Er; subst l1.
      * intros p [].
      * cbn [rev] in *. rewrite map_app in N1. cbn [map] in N1.
        intros p Hp.
        assert (Hin : In (fst p) (map fst (rev r) ++ [fst q])).
        { change [fst q] with (map fst [q]). rewrite <- map_app. now apply in_map. }
        pose proof (non_decreasing_last _ _ (fst p) N1 Hin). lia.
    + intros p Hp. specialize (H2 p Hp). lia.
Qed.

(** A run that starts below the key does not get the new pair in front. *)
Lemma insert_not_in_front (even : bool) k v h r :
  fst h < k ->
  (if even then insert_first k v (h :: r) else insert_last k v (h :: r))
  <> (k, v) :: h :: r.
Proof.
  intros Hh E. destruct even.
  - cbn [insert_first] in E. destruct (Z.ltb_spec (fst h) k); [| lia].
    injection E as E _. subst h. cbn in Hh. lia.
  - destruct (insert_last_split k v (h :: r)) as (l1 & l2 & E1 & E2 & H2 & _).
    rewrite E in E2. destruct l1 as [| p l1]; cbn [app] in *.
    + subst l2. specialize (H2 h (or_introl eq_refl)). lia.
    + injection E1 as <- _. injection E2 as E2 _. subst h. cbn in Hh. lia.
Qed.

(* ===================================================================== *)
(** * The segment that the index selects                                  *)
(* ===================================================================== *)

Lemma index_find_from_cases seps : forall i key,
  seps <> [] ->
  (i <= index_find_from seps i key < i + len seps
   /\ nth (Z.to_nat (index_find_from seps i key - i)) seps 0 <= key
   /\ (index_find_from seps i key + 1 < i + len seps ->
       key < nth (Z.to_nat (index_find_from seps i key - i + 1)) seps 0))
  \/ (index_find_from seps i key = 0 /\ forall x, In x seps -> key < x).
Proof.
  unfold len. induction seps as [| s rest IH]; intros i key Hne; [congruence |].
  cbn [index_find_from]. destruct rest as [| s' rest'].
  - destruct (Z.leb_spec s key).
    + left. cbn [length]. replace (Z.to_nat (i - i)) with 0%nat by lia.
      cbn [nth]. lia.
    + right. split; [reflexivity |]. intros x [<- | []]. lia.
  - destruct (Z.leb_spec s key) as [H1 | H1]; cbn [andb].
    + destruct (Z.ltb_spec key s') as [H2 | H2].
      * left. cbn [length]. replace (Z.to_nat (i - i)) with 0%nat by lia.
        replace (Z.to_nat (i - i + 1)) with 1%nat by lia. cbn [nth]. lia.
      * destruct (IH (i + 1) key ltac:(discriminate)) as [(Hr & Hle & Hlt) | (H0 & Hall)].
        -- left. set (r := index_find_from (s' :: rest') (i + 1) key) in *.
           cbn [length] in *. split; [lia |].
           replace (Z.to_nat (r - i)) with (S (Z.to_nat (r - (i + 1)))) by lia.
           replace (Z.to_nat (r - i + 1)) with (S (Z.to_nat (r - (i + 1) + 1))) by lia.
           cbn [nth]. split; [exact Hle |]. intros H. apply Hlt. lia.
        -- exfalso. specialize (Hall s' (or_introl eq_refl)). lia.
    + destruct (IH (i + 1) key ltac:(discriminate)) as [(Hr & Hle & Hlt) | (H0 & Hall)].
      * left. set (r := index_find_from (s' :: rest') (i + 1) key) in *.
        cbn [length] in *. split; [lia |].
        replace (Z.to_nat (r - i)) with (S (Z.to_nat (r - (i + 1)))) by lia.
        replace (Z.to_nat (r - i + 1)) with (S (Z.to_nat (r - (i + 1) + 1))) by lia.
        cbn [nth]. split; [exact Hle |]. intros H. apply Hlt. lia.
      * right. split; [exact H0 |]. intros x [<- | Hx]; [lia | now apply Hall].
Qed.

(** The segment that the index selects for a key: its separator is not
    above the key unless it is segment 0, and the separator of the next
    segment is above the key. *)
Lemma index_find_spec ix key :
  ix <> [] ->
  0 <= index_find ix key < len ix
  /\ (index_find ix key = 0 \/ get ix (index_find ix key) <= key)
  /\ (index_find ix key + 1 < len ix -> key < get ix (index_find ix key + 1)).
Proof.
  intros Hne. unfold index_find.
  destruct (index_find_from_cases ix 0 key Hne) as [(Hr & Hle & Hlt) | (H0 & Hall)].
  - set (r := index_find_from ix 0 key) in *. rewrite Z.sub_0_r in *.
    split; [lia |]. split.
    + right. unfold get. destruct (Z.ltb_spec r 0); [lia | exact Hle].
    + intros H. unfold get. destruct (Z.ltb_spec (r + 1) 0); [lia |]. apply Hlt. lia.
  - rewrite H0. assert (0 < len ix) by (unfold len; destruct ix; [congruence | cbn [length]; lia]).
    split; [lia |]. split; [now left |].
    intros H1. apply Hall. unfold get. cbn [Z.ltb Z.add Z.compare].
    apply nth_In. unfold len in H1. lia.
Qed.

Lemma index_find_set_first ix key :
  ix <> [] -> (1 < len ix -> key < get ix 1) ->
  index_find (set_separator_key ix 0 key) key = 0.
Proof.
  intros Hne H1. unfold index_find, set_separator_key, set.
  change (0 <? 0) with false. cbv iota. change (Z.to_nat 0) with 0%nat.
  destruct ix as [| s rest]; [congruence |]. cbn [set_nth index_find_from].
  destruct rest as [| s' rest'].
  - now rewrite Z.leb_refl.
  - rewrite Z.leb_refl. cbn [andb].
    assert (key < s') by (apply H1; unfold len; cbn [length]; lia).
    destruct (Z.ltb_spec key s'); [reflexivity | lia].
Qed.

(* ===================================================================== *)
(** * The stored pairs, run by run                                        *)
(* ===================================================================== *)

Lemma map_flat_map {A B C} (f : B -> C) (g : A -> list B) l :
  map f (flat_map g l) = flat_map (fun x => map f (g x)) l.
Proof. induction l as [| x l IH]; cbn [flat_map map]; [reflexivity |]. now rewrite map_app, IH. Qed.

Lemma flat_map_ext_within {A B} (f g : A -> list B) l :
  (forall x, In x l -> f x = g x) -> flat_map f l = flat_map g l.
Proof.
  induction l as [| x l IH]; intros H; [reflexivity |].
  cbn [flat_map]. rewrite (H x (or_introl eq_refl)), IH; [reflexivity |].
  intros y Hy. apply H. now right.
Qed.

Lemma contents_runs st :
  contents st = flat_map (run st) (zrange 0 (Z.to_nat (m_number_segments st))).
Proof. rewrite contents_entries. unfold cells. apply map_flat_map. Qed.

Lemma zrange_split s n :
  0 <= s < n ->
  zrange 0 (Z.to_nat n) = zrange 0 (Z.to_nat s) ++ s :: zrange (s + 1) (Z.to_nat (n - s - 1)).
Proof.
  intros H. replace (Z.to_nat n) with (Z.to_nat s + S (Z.to_nat (n - s - 1)))%nat by lia.
  rewrite zrange_app. cbn [zrange]. f_equal. f_equal; [lia | f_equal; lia].
Qed.

(** The pairs before and after the run of segment [s]. *)
Lemma contents_around st s :
  0 <= s < m_number_segments st ->
  contents st =
  flat_map (run st) (zrange 0 (Z.to_nat s)) ++ run st s
  ++ flat_map (run st) (zrange (s + 1) (Z.to_nat (m_number_segments st - s - 1))).
Proof.
  intros Hs. rewrite contents_runs, (zrange_split s _ Hs), flat_map_app.
  reflexivity.
Qed.

Lemma run_head st s :
  0 < get (m_segment_sizes st) s ->
  exists r, run st s = entry st (run_start st s) :: r.
Proof.
  intros H. unfold run, run_cells.
  destruct (Z.to_nat (get (m_segment_sizes st) s)) eqn:E; [lia |].
  cbn [zrange map]. eauto.
Qed.

Lemma get_minimum_run st s :
  get_minimum st s = get (m_keys st) (run_start st s).
Proof. unfold get_minimum, run_start. destruct (s mod 2 =? 0); reflexivity. Qed.

(* ===================================================================== *)
(** * Insertion into a well-formed index, the segment has room            *)
(* ===================================================================== *)

Lemma well_formed_not_empty t : well_formed t -> empty t = false.
Proof.
  intros (Huse & _ & Hcard & _). unfold empty. rewrite Hcard. apply Z.eqb_neq.
  pose proof (first_cell _ Huse) as Hc.
  destruct Huse as (_ & HS & _).
  apply (in_cells _ 0) in Hc; [| lia].
  unfold len. destruct (cells (m_storage t)); [destruct Hc | cbn [length]; lia].
Qed.

Lemma min_of_run st s p r :
  run st s = p :: r -> get_minimum st s = fst p.
Proof.
  intros E. rewrite get_minimum_run. unfold run, run_cells in E.
  destruct (Z.to_nat (get (m_segment_sizes st) s)); [discriminate |].
  cbn [zrange map] in E. injection E as <- _. reflexivity.
Qed.

Section Room.
Variable pf : Platform.
Variable t : BTreePMACC7.
Variables k v : Z.

Local Abbreviation st := (m_storage t).
Local Abbreviation B := (m_segment_capacity (m_storage t)).
Local Abbreviation S_ := (m_number_segments (m_storage t)).
Local Abbreviation sizes := (m_segment_sizes (m_storage t)).
Local Abbreviation s := (index_find (m_index t) k).
Local Abbreviation r := (storage_insert_unsafe t (index_find (m_index t) k) k v).

Hypothesis Hwf : well_formed t.
Hypothesis Hroom : get sizes s < B.

Lemma room_index_nonempty : m_index t <> [].
Proof.
  destruct Hwf as ((_ & HS & _) & _ & _ & _ & (Hl & _)).
  intros E. rewrite E in Hl. cbn in Hl. lia.
Qed.

Lemma room_segment :
  0 <= s < S_ /\ (s = 0 \/ get (m_index t) s <= k)
  /\ (s + 1 < S_ -> k < get (m_index t) (s + 1)).
Proof.
  destruct Hwf as (_ & _ & _ & _ & (Hl & _)).
  pose proof (index_find_spec (m_index t) k room_index_nonempty) as H.
  rewrite Hl in H. exact H.
Qed.

Lemma room_bounds : forall s', 0 <= s' < S_ -> 0 <= get sizes s' <= B.
Proof.
  destruct Hwf as ((_ & _ & _ & _ & _ & Hsz & _) & _).
  intros s' Hs'. specialize (Hsz s' Hs'). lia.
Qed.

Lemma insert_room_eq :
  insert pf t k v =
  if snd r then with_index (fst r) (set_separator_key (m_index (fst r)) s k) else fst r.
Proof.
  unfold insert, insert_common. rewrite (well_formed_not_empty t Hwf).
  destruct (Z.eqb_spec (get sizes s) B) as [E | _]; [lia |].
  destruct r as [t1 m]. reflexivity.
Qed.

Lemma insert_room_storage : m_storage (insert pf t k v) = m_storage (fst r).
Proof. rewrite insert_room_eq. destruct (snd r); reflexivity. Qed.

Lemma insert_room_runs :
  run (m_storage (fst r)) s
  = (if s mod 2 =? 0 then insert_first k v (run st s) else insert_last k v (run st s))
  /\ (forall s', 0 <= s' < S_ -> s' <> s -> run (m_storage (fst r)) s' = run st s')
  /\ (if snd r then run (m_storage (fst r)) s = (k, v) :: run st s
      else hd_error (run (m_storage (fst r)) s) = hd_error (run st s)).
Proof.
  destruct Hwf as ((HB & _ & Hkeys & _ & HsS & _) & Hvals & _).
  destruct room_segment as (Hs & _).
  exact (storage_insert_runs t s k v Hs HB Hkeys Hvals HsS room_bounds Hroom).
Qed.

Lemma insert_room_frame :
  m_index (fst r) = m_index t
  /\ m_density_bounds (fst r) = m_density_bounds t
  /\ m_segment_capacity (m_storage (fst r)) = B
  /\ m_number_segments (m_storage (fst r)) = S_
  /\ m_segment_sizes (m_storage (fst r)) = set sizes s (get sizes s + 1)
  /\ m_cardinality (m_storage (fst r)) = m_cardinality st + 1
  /\ len (m_keys (m_storage (fst r))) = len (m_keys st)
  /\ len (m_values (m_storage (fst r))) = len (m_values st).
Proof.
  destruct Hwf as ((HB & _ & Hkeys & _ & HsS & _) & Hvals & _).
  destruct room_segment as (Hs & _).
  exact (storage_insert_frame t s k v Hs HB Hkeys Hvals room_bounds Hroom).
Qed.

(** The pairs around the run of [s] are the same after the insertion. *)
Lemma insert_room_contents :
  exists A C l1 l2,
    contents st = A ++ (l1 ++ l2) ++ C
    /\ contents (m_storage (fst r)) = A ++ (l1 ++ (k, v) :: l2) ++ C
    /\ (forall p, In p (A ++ l1) -> fst p <= k)
    /\ (forall p, In p (l2 ++ C) -> k <= fst p).
Proof.
  destruct room_segment as (Hs & Hlow & Hhigh).
  destruct insert_room_runs as (Hrun & Hothers & _).
  destruct insert_room_frame as (_ & _ & _ & HS' & _).
  pose proof Hwf as (Huse & _ & _ & Hsorted & (Hixl & Hixm)).
  destruct Huse as (_ & _ & _ & _ & _ & Hsz & _).
  rewrite traversal_contents, (contents_around st s Hs), !map_app in Hsorted.
  set (A := flat_map (run st) (zrange 0 (Z.to_nat s))) in *.
  set (C := flat_map (run st) (zrange (s + 1) (Z.to_nat (S_ - s - 1)))) in *.
  assert (HR : non_decreasing (map fst (run st s))).
  { apply non_decreasing_app in Hsorted. destruct Hsorted as (_ & H & _).
    apply non_decreasing_app in H. tauto. }
  destruct (insert_into_sorted (s mod 2 =? 0) k v (run st s) HR)
    as (l1 & l2 & E & Ei & H1 & H2).
  exists A, C, l1, l2.
  split; [rewrite (contents_around st s Hs), E; reflexivity |].
  split.
  { rewrite (contents_around (m_storage (fst r)) s) by (rewrite HS'; exact Hs).
    rewrite HS', Hrun. fold A C.
    replace (if s mod 2 =? 0 then insert_first k v (run st s) else insert_last k v (run st s))
      with (l1 ++ (k, v) :: l2) by (rewrite <- Ei; destruct (s mod 2 =? 0); reflexivity).
    f_equal; [| f_equal].
    - apply flat_map_ext_within. intros s' Hs'. apply in_zrange in Hs'. apply Hothers; lia.
    - apply flat_map_ext_within. intros s' Hs'. apply in_zrange in Hs'. apply Hothers; lia. }
  destruct (run_head st s (proj1 (Hsz s Hs))) as (R' & Hhd).
  split.
  - intros p Hp. apply in_app_or in Hp. destruct Hp as [Hp | Hp]; [| now apply H1].
    assert (Hs0 : s <> 0).
    { intros E0. unfold A in Hp. rewrite E0 in Hp. exact Hp. }
    destruct Hlow as [? | Hlow]; [contradiction |].
    assert (Hmin : get (m_index t) s = fst (entry st (run_start st s))).
    { rewrite <- (min_of_run st s _ _ Hhd). apply (Hixm s Hs). }
    apply non_decreasing_app in Hsorted. destruct Hsorted as (_ & _ & H).
    specialize (H (fst p) (fst (entry st (run_start st s)))).
    rewrite Hhd in H. cbn [map app] in H.
    specialize (H (in_map fst _ _ Hp) (or_introl eq_refl)). lia.
  - intros p Hp. apply in_app_or in Hp. destruct Hp as [Hp | Hp]; [now apply H2 |].
    assert (Hs1 : s + 1 < S_).
    { destruct (Z_lt_le_dec (s + 1) S_) as [? | Hge]; [assumption |].
      unfold C in Hp. replace (Z.to_nat (S_ - s - 1)) with 0%nat in Hp by lia.
      destruct Hp. }
    specialize (Hhigh Hs1).
    destruct (run_head st (s + 1) (proj1 (Hsz (s + 1) ltac:(lia)))) as (R1 & Hhd1).
    assert (Hmin : get (m_index t) (s + 1) = fst (entry st (run_start st (s + 1)))).
    { rewrite <- (min_of_run st (s + 1) _ _ Hhd1). apply (Hixm (s + 1)). lia. }
    apply non_decreasing_app in Hsorted. destruct Hsorted as (_ & H & _).
    apply non_decreasing_app in H. destruct H as (_ & H & _).
    unfold C in H, Hp.
    replace (Z.to_nat (S_ - s - 1)) with (S (Z.to_nat (S_ - s - 2))) in H, Hp by lia.
    cbn [zrange flat_map] in H, Hp. rewrite Hhd1 in H, Hp. cbn [map app] in H.
    pose proof (non_decreasing_head _ _ (fst p) H (in_map fst _ _ Hp)). lia.
Qed.

Lemma insert_room_index :
  m_index (insert pf t k v)
  = if snd r then set_separator_key (m_index t) s k else m_index t.
Proof.
  rewrite insert_room_eq. destruct insert_room_frame as (Hix & _).
  destruct (snd r); cbn [with_index m_index]; rewrite Hix; reflexivity.
Qed.

Lemma regroup {A} (a l1 l2 c : list A) (x : A) :
  a ++ (l1 ++ x :: l2) ++ c = (a ++ l1) ++ x :: (l2 ++ c)
  /\ a ++ (l1 ++ l2) ++ c = (a ++ l1) ++ (l2 ++ c).
Proof. rewrite <- !app_assoc. split; reflexivity. Qed.

Lemma insert_room_permutation :
  Permutation (contents (m_storage (insert pf t k v))) ((k, v) :: contents st).
Proof.
  rewrite insert_room_storage.
  destruct insert_room_contents as (A & C & l1 & l2 & Ec & Ec' & _).
  rewrite Ec, Ec'. destruct (regroup A l1 l2 C (k, v)) as [-> ->].
  symmetry. apply Permutation_middle.
Qed.

Lemma insert_room_sorted :
  non_decreasing (traversal (m_storage (insert pf t k v))).
Proof.
  rewrite insert_room_storage, traversal_contents.
  destruct insert_room_contents as (A & C & l1 & l2 & Ec & Ec' & Hlow & Hhigh).
  pose proof Hwf as (_ & _ & _ & Hsorted & _).
  rewrite traversal_contents, Ec in Hsorted. rewrite Ec'.
  destruct (regroup A l1 l2 C (k, v)) as [E1 E2]. rewrite E1. rewrite E2 in Hsorted.
  rewrite map_app in *. cbn [map fst].
  apply non_decreasing_insert; [exact Hsorted | |].
  - intros a Ha. apply in_map_iff in Ha. destruct Ha as (p & <- & Hp). now apply Hlow.
  - intros b Hb. apply in_map_iff in Hb. destruct Hb as (p & <- & Hp). now apply Hhigh.
Qed.

Lemma insert_room_in_use : segments_in_use (m_storage (insert pf t k v)).
Proof.
  rewrite insert_room_storage.
  destruct insert_room_frame as (_ & _ & HB' & HS' & Hsz' & _ & Lk & _).
  destruct room_segment as (Hs & _).
  pose proof Hwf as ((HB & HS & Hkeys & Hs2 & HsS & Hsz & Hsent) & _).
  unfold segments_in_use. rewrite HB', HS', Hsz', Lk, len_set.
  split; [exact HB |]. split; [exact HS |]. split; [exact Hkeys |].
  split; [exact Hs2 |]. split; [exact HsS |]. split.
  - intros s' Hs'. destruct (Z.eq_dec s' s) as [-> | Hne].
    + rewrite get_set_eq by lia. specialize (Hsz s Hs). lia.
    + rewrite get_set_ne by lia. exact (Hsz s' Hs').
  - intros H1. rewrite get_set_ne by lia. exact (Hsent H1).
Qed.

Lemma insert_room_cardinality :
  m_cardinality (m_storage (insert pf t k v)) = m_cardinality st + 1.
Proof.
  rewrite insert_room_storage. destruct insert_room_frame as (_ & _ & _ & _ & _ & H & _).
  exact H.
Qed.

Lemma len_cells_contents x : len (cells x) = len (contents x).
Proof. unfold contents, len. now rewrite length_map. Qed.

Lemma insert_room_index_exact : index_exact (insert pf t k v).
Proof.
  pose proof Hwf as ((_ & _ & _ & _ & _ & Hsz & _) & _ & _ & _ & (Hixl & Hixm)).
  destruct room_segment as (Hs & _).
  destruct insert_room_runs as (_ & Hothers & Hflag).
  destruct insert_room_frame as (_ & _ & _ & HS' & _).
  unfold index_exact. rewrite insert_room_storage, insert_room_index, HS'.
  split.
  { destruct (snd r); [unfold set_separator_key; rewrite len_set |]; exact Hixl. }
  intros s' Hs'. unfold get_separator_key.
  destruct (Z.eq_dec s' s) as [-> | Hne].
  - destruct (snd r).
    + unfold set_separator_key. rewrite get_set_eq by lia.
      symmetry. exact (min_of_run _ _ _ _ Hflag).
    + destruct (run_head st s (proj1 (Hsz s Hs))) as (R' & Hhd).
      rewrite Hhd in Hflag. cbn [hd_error] in Hflag.
      destruct (run (m_storage (fst r)) s) as [| p R1] eqn:E1; [discriminate |].
      cbn [hd_error] in Hflag. injection Hflag as ->.
      rewrite (min_of_run _ _ _ _ E1), <- (min_of_run _ _ _ _ Hhd). apply (Hixm s Hs).
  - transitivity (get (m_index t) s').
    { destruct (snd r); [apply get_set_ne; lia | reflexivity]. }
    destruct (run_head st s' (proj1 (Hsz s' Hs'))) as (R' & Hhd).
    pose proof (Hothers s' Hs' Hne) as Hsame. rewrite Hhd in Hsame.
    rewrite (min_of_run _ _ _ _ Hsame), <- (min_of_run _ _ _ _ Hhd). apply (Hixm s' Hs').
Qed.

Lemma insert_room_well_formed : well_formed (insert pf t k v).
Proof.
  unfold well_formed.
  split; [exact insert_room_in_use |]. split.
  { rewrite insert_room_storage.
    destruct insert_room_frame as (_ & _ & HB' & HS' & _ & _ & _ & Lv).
    rewrite HB', HS', Lv. destruct Hwf as (_ & H & _). exact H. }
  split.
  { rewrite insert_room_cardinality, len_cells_contents.
    unfold len. rewrite (Permutation_length insert_room_permutation).
    destruct Hwf as (_ & _ & -> & _). rewrite len_cells_contents. unfold len.
    cbn [length]. lia. }
  split; [exact insert_room_sorted | exact insert_room_index_exact].
Qed.

(** The key is found after the insertion. *)
Lemma insert_room_find : ~ stored st k -> find (insert pf t k v) k = v.
Proof.
  intros Hns.
  pose proof Hwf as ((_ & _ & _ & _ & _ & Hsz & _) & _ & _ & _ & (Hixl & Hixm)).
  destruct room_segment as (Hs & Hlow & Hhigh).
  destruct insert_room_runs as (Hrun & _ & Hflag).
  destruct insert_room_frame as (_ & _ & _ & HS' & _).
  assert (Habs : ~ In k (map fst (run st s))).
  { rewrite keys_of_run. intros Hin. apply in_map_iff in Hin.
    destruct Hin as (c & Hc & Hcell). exact (not_stored_cell _ _ _ c Hns Hs Hcell Hc). }
  assert (Hsel : index_find (m_index (insert pf t k v)) k = s).
  { rewrite insert_room_index. destruct (snd r) eqn:Er; [| reflexivity].
    destruct (run_head st s (proj1 (Hsz s Hs))) as (R' & Hhd).
    assert (Hs0 : s = 0).
    { destruct Hlow as [? | Hlow]; [assumption |]. exfalso.
      assert (Hmin : get (m_index t) s = fst (entry st (run_start st s))).
      { rewrite <- (min_of_run st s _ _ Hhd). apply (Hixm s Hs). }
      assert (Hlt : fst (entry st (run_start st s)) < k).
      { destruct (Z.eq_dec (fst (entry st (run_start st s))) k) as [E | Hne]; [| lia].
        exfalso. apply Habs. rewrite Hhd. cbn [map]. now left. }
      rewrite Hrun, Hhd in Hflag.
      exact (insert_not_in_front (s mod 2 =? 0) k v _ R' Hlt Hflag). }
    rewrite Hs0 in *.
    apply index_find_set_first; [exact room_index_nonempty |].
    rewrite Hixl. intros H1. apply Hhigh. lia. }
  rewrite find_in_selected_segment.
  - rewrite Hsel, insert_room_storage, Hrun.
    destruct (s mod 2 =? 0); [apply lookup_insert_first | now apply lookup_insert_last].
  - apply well_formed_not_empty. exact insert_room_well_formed.
  - rewrite Hsel. pose proof insert_room_in_use as (_ & _ & _ & _ & _ & Hsz' & _).
    rewrite insert_room_storage in Hsz'. rewrite HS' in Hsz'.
    rewrite insert_room_storage. specialize (Hsz' s Hs). lia.
Qed.

End Room.

(** X4. [storage_insert_unsafe] on a segment with room: the pair enters
    the run of the segment, before the first pair whose key is not below
    the new key in an even segment and after the last pair whose key is
    not above it in an odd segment; the other runs, the geometry and the
    index are the same, the size of the segment and the cardinality grow
    by one, and the flag that is returned says whether the pair is the new
    head of the run. *)
Theorem storage_insert_unsafe_spec (t : BTreePMACC7) (s k v : Z) :
  0 <= s < m_number_segments (m_storage t) ->
  0 < m_segment_capacity (m_storage t) ->
  m_number_segments (m_storage t) * m_segment_capacity (m_storage t)
    <= len (m_keys (m_storage t)) ->
  m_number_segments (m_storage t) * m_segment_capacity (m_storage t)
    <= len (m_values (m_storage t)) ->
  m_number_segments (m_storage t) <= len (m_segment_sizes (m_storage t)) ->
  (forall s', 0 <= s' < m_number_segments (m_storage t) ->
              0 <= get (m_segment_sizes (m_storage t)) s'
                <= m_segment_capacity (m_storage t)) ->
  get (m_segment_sizes (m_storage t)) s < m_segment_capacity (m_storage t) ->
  run (m_storage (fst (storage_insert_unsafe t s k v))) s
  = (if s mod 2 =? 0 then insert_first k v (run (m_storage t) s)
     else insert_last k v (run (m_storage t) s))
  /\ (forall s', 0 <= s' < m_number_segments (m_storage t) -> s' <> s ->
        run (m_storage (fst (storage_insert_unsafe t s k v))) s' = run (m_storage t) s')
  /\ (if snd (storage_insert_unsafe t s k v)
      then run (m_storage (fst (storage_insert_unsafe t s k v))) s
           = (k, v) :: run (m_storage t) s
      else hd_error (run (m_storage (fst (storage_insert_unsafe t s k v))) s)
           = hd_error (run (m_storage t) s))
  /\ m_index (fst (storage_insert_unsafe t s k v)) = m_index t
  /\ m_number_segments (m_storage (fst (storage_insert_unsafe t s k v)))
     = m_number_segments (m_storage t)
  /\ get (m_segment_sizes (m_storage (fst (storage_insert_unsafe t s k v)))) s
     = get (m_segment_sizes (m_storage t)) s + 1
  /\ size (fst (storage_insert_unsafe t s k v)) = size t + 1.
Proof.
  intros Hs HB Hk Hv HsS Hb Hroom.
  destruct (storage_insert_runs t s k v Hs HB Hk Hv HsS Hb Hroom) as (H1 & H2 & H3).
  destruct (storage_insert_frame t s k v Hs HB Hk Hv Hb Hroom)
    as (Hix & _ & _ & HS & Hsz & Hc & _).
  split; [exact H1 |]. split; [exact H2 |]. split; [exact H3 |].
  split; [exact Hix |]. split; [exact HS |]. split.
  - rewrite Hsz. apply get_set_eq. lia.
  - unfold size. exact Hc.
Qed.

(** X5. [insert] into a well-formed index when the segment that the index
    selects has room: the index stays well-formed (segments in use,
    cardinality, non-decreasing keys, exact separators), the stored pairs
    are those of before and the new pair, and the size grows by one. *)
Theorem insert_with_room (pf : Platform) (t : BTreePMACC7) (k v : Z) :
  well_formed t ->
  get (m_segment_sizes (m_storage t)) (index_find (m_index t) k)
    < m_segment_capacity (m_storage t) ->
  well_formed (insert pf t k v)
  /\ Permutation (contents (m_storage (insert pf t k v))) ((k, v) :: contents (m_storage t))
  /\ size (insert pf t k v) = size t + 1.
Proof.
  intros Hwf Hroom.
  split; [exact (insert_room_well_formed pf t k v Hwf Hroom) |].
  split; [exact (insert_room_permutation pf t k v Hwf Hroom) |].
  exact (insert_room_cardinality pf t k v Hwf Hroom).
Qed.

(** X6. [insert(k, v)] of a key that is not stored, into a well-formed
    index when the segment that the index selects has room, followed by
    [find(k)]: the value [v] is returned. *)
Theorem insert_with_room_then_find (pf : Platform) (t : BTreePMACC7) (k v : Z) :
  well_formed t ->
  get (m_segment_sizes (m_storage t)) (index_find (m_index t) k)
    < m_segment_capacity (m_storage t) ->
  ~ stored (m_storage t) k ->
  find (insert pf t k v) k = v.
Proof. intros Hwf Hroom Hns. exact (insert_room_find pf t k v Hwf Hroom Hns). Qed.

(* ===================================================================== *)
(** * The properties at concrete states                                   *)
(* ===================================================================== *)

Lemma sparse_head_segments : m_number_segments (m_storage sparse_head) = 2.
Proof. vm_compute. reflexivity. Qed.

Lemma sparse_head_well_formed : well_formed sparse_head.
Proof.
  unfold well_formed.
  split; [exact sparse_head_in_use |].
  split; [vm_compute; discriminate |].
  split; [vm_compute; reflexivity |].
  split.
  { apply (proj1 (non_decreasingb_spec (traversal (m_storage sparse_head)))).
    vm_compute. reflexivity. }
  unfold index_exact. rewrite sparse_head_segments.
  split; [vm_compute; reflexivity |].
  intros s Hs. assert (Hs' : s = 0 \/ s = 1) by lia.
  destruct Hs' as [-> | ->]; vm_compute; reflexivity.
Qed.

Lemma sparse_head_bounds s :
  0 <= s < m_number_segments (m_storage sparse_head) ->
  0 <= get (m_segment_sizes (m_storage sparse_head)) s
    <= m_segment_capacity (m_storage sparse_head).
Proof.
  rewrite sparse_head_segments. intros Hs. assert (Hs' : s = 0 \/ s = 1) by lia.
  destruct Hs' as [-> | ->]; vm_compute; split; discriminate.
Qed.

Lemma find_in_selected_segment_witness :
  find sparse_head 20
  = lookup 20 (run (m_storage sparse_head) (index_find (m_index sparse_head) 20)).
Proof.
  apply (find_in_selected_segment sparse_head 20).
  - vm_compute. reflexivity.
  - vm_compute. discriminate.
Defined.

Lemma find_missing_key_witness : find sparse_head 5 = -1.
Proof.
  apply (find_missing_key sparse_head 5).
  - vm_compute. reflexivity.
  - vm_compute. discriminate.
  - intros s Hs. exact (proj1 (sparse_head_bounds s Hs)).
  - exact (existsb_eqb_false 5 (traversal (m_storage sparse_head))
             (eq_refl false <: existsb (Z.eqb 5) (traversal (m_storage sparse_head)) = false)).
Defined.

Lemma storage_insert_unsafe_spec_witness :
  run (m_storage (fst (storage_insert_unsafe sparse_head 1 20 7))) 1
  = (if 1 mod 2 =? 0 then insert_first 20 7 (run (m_storage sparse_head) 1)
     else insert_last 20 7 (run (m_storage sparse_head) 1))
  /\ size (fst (storage_insert_unsafe sparse_head 1 20 7)) = size sparse_head + 1.
Proof.
  destruct (storage_insert_unsafe_spec sparse_head 1 20 7) as (H & _ & _ & _ & _ & _ & Hc).
  - vm_compute. split; [discriminate | reflexivity].
  - vm_compute. reflexivity.
  - vm_compute. discriminate.
  - vm_compute. discriminate.
  - vm_compute. discriminate.
  - exact sparse_head_bounds.
  - vm_compute. reflexivity.
  - split; [exact H | exact Hc].
Defined.

Lemma insert_with_room_witness :
  well_formed (insert linux_4k sparse_head 5 55)
  /\ Permutation (contents (m_storage (insert linux_4k sparse_head 5 55)))
       ((5, 55) :: contents (m_storage sparse_head))
  /\ size (insert linux_4k sparse_head 5 55) = size sparse_head + 1.
Proof.
  apply (insert_with_room linux_4k sparse_head 5 55).
  - exact sparse_head_well_formed.
  - vm_compute. reflexivity.
Defined.

Lemma insert_with_room_then_find_witness :
  find (insert linux_4k sparse_head 5 55) 5 = 55.
Proof.
  apply (insert_with_room_then_find linux_4k sparse_head 5 55).
  - exact sparse_head_well_formed.
  - vm_compute. reflexivity.
  - exact (existsb_eqb_false 5 (traversal (m_storage sparse_head))
             (eq_refl false <: existsb (Z.eqb 5) (traversal (m_storage sparse_head)) = false)).
Defined.

(* ===================================================================== *)
(** * The cells in use, in increasing order                               *)
(* ===================================================================== *)

Lemma increasing_cons a l :
  increasing (a :: l) <-> (forall b, In b l -> a < b) /\ increasing l.
Proof.
  revert a. induction l as [| b l IH]; intros a.
  - cbn. split; [intros _; split; [intros b [] | exact I] | intros _; exact I].
  - change (increasing (a :: b :: l)) with (a < b /\ increasing (b :: l)).
    split.
    + intros [Hab Hl]. split; [| exact Hl].
      intros c [<- | Hc]; [exact Hab |].
      apply IH in Hl. destruct Hl as [Hb _]. specialize (Hb c Hc). lia.
    + intros [Ha Hl]. split; [apply Ha; now left | exact Hl].
Qed.

Lemma increasing_app l1 l2 :
  increasing l1 -> increasing l2 -> (forall a b, In a l1 -> In b l2 -> a < b) ->
  increasing (l1 ++ l2).
Proof.
  induction l1 as [| x l1 IH]; intros H1 H2 H12; cbn [app]; [exact H2 |].
  apply increasing_cons in H1. destruct H1 as [Hx H1].
  apply increasing_cons. split.
  - intros b Hb. apply in_app_or in Hb. destruct Hb as [Hb | Hb].
    + now apply Hx.
    + apply H12; [now left | exact Hb].
  - apply IH; [exact H1 | exact H2 |]. intros a b Ha Hb. apply H12; [now right | exact Hb].
Qed.

Lemma increasing_zrange a n : increasing (zrange a n).
Proof.
  revert a. induction n as [| n IH]; intros a; [exact I |].
  cbn [zrange]. apply increasing_cons. split; [| apply IH].
  intros b Hb. apply in_zrange in Hb. lia.
Qed.

Lemma increasing_flat_map (f : Z -> list Z) B n : forall a,
  0 < B ->
  (forall s, increasing (f s)) ->
  (forall s c, In c (f s) -> s * B <= c < (s + 1) * B) ->
  increasing (flat_map f (zrange a n)).
Proof.
  induction n as [| n IH]; intros a HB Hinc Hin; [exact I |].
  cbn [zrange flat_map]. apply increasing_app; [apply Hinc | now apply IH |].
  intros x y Hx Hy. apply in_flat_map in Hy. destruct Hy as (s' & Hs' & Hy).
  apply in_zrange in Hs'. specialize (Hin _ _ Hx) as Hx'. specialize (Hin _ _ Hy) as Hy'.
  assert ((a + 1) * B <= s' * B) by (apply Z.mul_le_mono_nonneg_r; lia). lia.
Qed.

(** A function that is non-decreasing along an increasing list is
    monotone on its elements. *)
Lemma monotone_on_increasing (f : Z -> Z) l :
  increasing l -> non_decreasing (map f l) ->
  forall a b, In a l -> In b l -> a <= b -> f a <= f b.
Proof.
  induction l as [| x l IH]; intros Hi Hn a b Ha Hb Hab; [destruct Ha |].
  apply increasing_cons in Hi. destruct Hi as [Hx Hi].
  cbn [map] in Hn. apply non_decreasing_cons in Hn. destruct Hn as [Hfx Hn].
  destruct Ha as [<- | Ha], Hb as [<- | Hb].
  - lia.
  - apply Hfx. now apply in_map.
  - specialize (Hx a Ha). lia.
  - now apply IH.
Qed.

Section Cells.
Variable st : PMA.
Hypothesis Huse : segments_in_use st.

Local Abbreviation B := (m_segment_capacity st).
Local Abbreviation S_ := (m_number_segments st).
Local Abbreviation sizes := (m_segment_sizes st).
Local Abbreviation K := (get (m_keys st)).

Lemma use_bounds s : 0 <= s < S_ -> 0 < get sizes s <= B.
Proof. destruct Huse as (_ & _ & _ & _ & _ & H & _). apply H. Qed.

Lemma use_capacity : 0 < B.
Proof. destruct Huse as (H & _). exact H. Qed.

Lemma use_segments : 1 <= S_.
Proof. destruct Huse as (_ & H & _). lia. Qed.

Lemma cell_segment c :
  In c (cells st) <-> exists s, 0 <= s < S_ /\ In c (run_cells st s).
Proof.
  unfold cells. rewrite in_flat_map. split; intros (s & Hs & Hc); exists s; split; auto.
  - apply in_zrange in Hs. lia.
  - apply in_zrange. lia.
Qed.

Lemma run_cells_range s c :
  In c (run_cells st s) <-> run_start st s <= c < run_start st s + Z.of_nat (Z.to_nat (get sizes s)).
Proof. unfold run_cells. apply in_zrange. Qed.

Lemma run_inside s c : 0 <= s < S_ -> In c (run_cells st s) -> s * B <= c < (s + 1) * B.
Proof.
  intros Hs Hc. apply (run_cells_inside st s c); [| exact Hc].
  pose proof (use_bounds s Hs). lia.
Qed.

Lemma cells_increasing : increasing (cells st).
Proof.
  assert (H : forall n a, 0 <= a -> a + Z.of_nat n <= S_ ->
                increasing (flat_map (run_cells st) (zrange a n))).
  { induction n as [| n IH]; intros a Ha Hn; [exact I |].
    cbn [zrange flat_map]. apply increasing_app.
    - apply increasing_zrange.
    - apply IH; lia.
    - intros x y Hx Hy. apply in_flat_map in Hy. destruct Hy as (s' & Hs' & Hy).
      apply in_zrange in Hs'.
      pose proof (run_inside a x ltac:(lia) Hx). pose proof (run_inside s' y ltac:(lia) Hy).
      pose proof use_capacity.
      assert ((a + 1) * B <= s' * B) by (apply Z.mul_le_mono_nonneg_r; lia). lia. }
  unfold cells. apply H; [lia |]. pose proof use_segments. lia.
Qed.

(** The keys grow with the cells, when the traversal is non-decreasing. *)
Lemma keys_monotone :
  non_decreasing (traversal st) ->
  forall a b, In a (cells st) -> In b (cells st) -> a <= b -> K a <= K b.
Proof.
  intros Hs. apply monotone_on_increasing; [exact cells_increasing | exact Hs].
Qed.

Lemma run_start_cell s : 0 <= s < S_ -> In (run_start st s) (run_cells st s).
Proof. intros Hs. apply run_cells_range. pose proof (use_bounds s Hs). lia. Qed.

Lemma run_cell_in_cells s c : 0 <= s < S_ -> In c (run_cells st s) -> In c (cells st).
Proof. intros Hs Hc. apply cell_segment. eauto. Qed.

(** Cells of different segments are ordered like their segments. *)
Lemma cells_by_segment s s' c c' :
  0 <= s < S_ -> 0 <= s' < S_ -> In c (run_cells st s) -> In c' (run_cells st s') ->
  s < s' -> c < c'.
Proof.
  intros Hs Hs' Hc Hc' Hlt.
  pose proof (run_inside s c Hs Hc). pose proof (run_inside s' c' Hs' Hc').
  pose proof use_capacity.
  assert ((s + 1) * B <= s' * B) by (apply Z.mul_le_mono_nonneg_r; lia). lia.
Qed.

End Cells.

(* ===================================================================== *)
(** * The two ends of a key interval                                      *)
(* ===================================================================== *)

Lemma parity_flip s : negb (s mod 2 =? 0) = ((s + 1) mod 2 =? 0).
Proof.
  rewrite (Z.add_mod s 1 2) by lia.
  pose proof (Z.mod_pos_bound s 2 ltac:(lia)) as H.
  assert (Hc : s mod 2 = 0 \/ s mod 2 = 1) by lia.
  destruct Hc as [-> | ->]; reflexivity.
Qed.

Lemma skip_below_spec keys stop key_min n : forall offset,
  stop - offset <= Z.of_nat n -> offset <= stop ->
  offset <= skip_below n keys offset stop key_min <= stop
  /\ (forall x, offset <= x < skip_below n keys offset stop key_min -> get keys x < key_min)
  /\ (skip_below n keys offset stop key_min < stop ->
      key_min <= get keys (skip_below n keys offset stop key_min)).
Proof.
  induction n as [| n IH]; intros offset Hn Ho; cbn [skip_below].
  - split; [lia |]. split; [intros; lia | lia].
  - destruct (Z.ltb_spec offset stop) as [Hlt | Hge]; cbn [andb].
    + destruct (Z.ltb_spec (get keys offset) key_min) as [Hk | Hk].
      * destruct (IH (offset + 1)) as (Hr & Hpre & Hpost); try lia.
        split; [lia |]. split; [| exact Hpost].
        intros x Hx. destruct (Z.eq_dec x offset) as [-> | Hne]; [exact Hk |].
        apply Hpre. lia.
      * split; [lia |]. split; [intros; lia | intros _; exact Hk].
    + split; [lia |]. split; [intros; lia | lia].
Qed.

Lemma skip_above_spec keys stop key_max n : forall offset,
  offset - stop + 1 <= Z.of_nat n -> stop - 1 <= offset ->
  stop - 1 <= skip_above n keys offset stop key_max <= offset
  /\ (forall x, skip_above n keys offset stop key_max < x <= offset -> key_max < get keys x)
  /\ (stop <= skip_above n keys offset stop key_max ->
      get keys (skip_above n keys offset stop key_max) <= key_max).
Proof.
  induction n as [| n IH]; intros offset Hn Ho; cbn [skip_above].
  - split; [lia |]. split; [intros; lia | lia].
  - destruct (Z.leb_spec stop offset) as [Hle | Hgt]; cbn [andb].
    + destruct (Z.ltb_spec key_max (get keys offset)) as [Hk | Hk].
      * destruct (IH (offset - 1)) as (Hr & Hpre & Hpost); try lia.
        split; [lia |]. split; [| exact Hpost].
        intros x Hx. destruct (Z.eq_dec x offset) as [-> | Hne]; [exact Hk |].
        apply Hpre. lia.
      * split; [lia |]. split; [intros; lia | intros _; exact Hk].
    + split; [lia |]. split; [intros; lia | lia].
Qed.

Section Intervals.
Variable st : PMA.
Hypothesis Huse : segments_in_use st.

Local Abbreviation B := (m_segment_capacity st).
Local Abbreviation S_ := (m_number_segments st).
Local Abbreviation sizes := (m_segment_sizes st).
Local Abbreviation K := (get (m_keys st)).

(** The search for the first key that is not below [key_min], from the
    segment of the cursor on. *)
Lemma lower_interval_spec key_min n : forall c,
  c_notfound c = true ->
  c_segment_even c = (c_segment_id c mod 2 =? 0) ->
  0 <= c_segment_id c ->
  S_ - c_segment_id c <= Z.of_nat n ->
  (c_notfound (lower_interval n st key_min c) = true
   /\ forall s x, c_segment_id c <= s < S_ -> In x (run_cells st s) -> K x < key_min)
  \/ (c_notfound (lower_interval n st key_min c) = false
      /\ c_segment_id c <= c_segment_id (lower_interval n st key_min c) < S_
      /\ c_segment_even (lower_interval n st key_min c)
         = (c_segment_id (lower_interval n st key_min c) mod 2 =? 0)
      /\ In (c_offset (lower_interval n st key_min c))
            (run_cells st (c_segment_id (lower_interval n st key_min c)))
      /\ key_min <= K (c_offset (lower_interval n st key_min c))
      /\ (forall s x, c_segment_id c <= s < c_segment_id (lower_interval n st key_min c) ->
                      In x (run_cells st s) -> K x < key_min)
      /\ (forall x, In x (run_cells st (c_segment_id (lower_interval n st key_min c))) ->
                    x < c_offset (lower_interval n st key_min c) -> K x < key_min)
      /\ c_stop (lower_interval n st key_min c)
         = run_start st (c_segment_id (lower_interval n st key_min c))
           + get sizes (c_segment_id (lower_interval n st key_min c))).
Proof.
  induction n as [| n IH]; intros c Hnf Hpar Hseg Hn.
  - left. cbn [lower_interval]. split; [exact Hnf |]. intros s x Hs. lia.
  - cbn [lower_interval]. rewrite Hnf. cbn [andb].
    destruct (Z.ltb_spec (c_segment_id c) S_) as [Hlt | Hge].
    2:{ left. split; [exact Hnf |]. intros s x Hs. lia. }
    set (seg := c_segment_id c) in *.
    pose proof (use_bounds st Huse seg ltac:(lia)) as Hsz.
    assert (Hbounds :
      (if c_segment_even c
       then ((seg + 1) * B - get sizes seg, (seg + 1) * B)
       else (seg * B, seg * B + get sizes seg))
      = (run_start st seg, run_start st seg + get sizes seg)).
    { rewrite Hpar. unfold run_start. destruct (seg mod 2 =? 0); f_equal; lia. }
    rewrite Hbounds. clear Hbounds.
    set (start := run_start st seg) in *. set (stop := start + get sizes seg) in *.
    destruct (skip_below_spec (m_keys st) stop key_min (Z.to_nat (stop - start)) start)
      as (Hr & Hpre & Hpost); try lia.
    set (r := skip_below (Z.to_nat (stop - start)) (m_keys st) start stop key_min) in *.
    destruct (Z.eqb_spec r stop) as [Heq | Hne].
    + (* nothing in this segment *)
      match goal with |- context [lower_interval n st key_min ?x] => set (c1 := x) end.
      assert (Hrun : forall x, In x (run_cells st seg) -> K x < key_min).
      { intros x Hx. apply run_cells_range in Hx. apply Hpre. fold start in Hx. lia. }
      destruct (IH c1) as [(Hnf' & Hall) | (Hnf' & Hr' & Hpar' & Hin' & Hk' & Hall' & Hbefore' & Hstop')];
        try reflexivity.
      * unfold c1. cbn [c_segment_even c_segment_id]. rewrite Hpar. apply parity_flip.
      * unfold c1. cbn [c_segment_id]. lia.
      * unfold c1. cbn [c_segment_id]. lia.
      * left. split; [exact Hnf' |]. intros s x Hs Hx.
        destruct (Z.eq_dec s seg) as [-> | Hns]; [now apply Hrun |].
        apply (Hall s x); [unfold c1; cbn [c_segment_id]; lia | exact Hx].
      * right. change (c_segment_id c1) with (seg + 1) in Hr', Hall'.
        split; [exact Hnf' |]. split; [lia |]. split; [exact Hpar' |].
        split; [exact Hin' |]. split; [exact Hk' |]. split; [| split; [exact Hbefore' | exact Hstop']].
        intros s x Hs Hx. destruct (Z.eq_dec s seg) as [-> | Hns]; [now apply Hrun |].
        apply (Hall' s x); [lia | exact Hx].
    + (* found in this segment *)
      rewrite lower_interval_found by reflexivity.
      right. cbn [c_notfound c_segment_id c_segment_even c_offset c_stop].
      split; [reflexivity |]. split; [lia |]. split; [exact Hpar |].
      split; [apply run_cells_range; fold start; lia |].
      split; [apply Hpost; lia |].
      split; [intros s x Hs; lia |].
      split; [| reflexivity].
      intros x Hx Hlt'. apply run_cells_range in Hx. fold start in Hx. apply Hpre. lia.
Qed.

(** The search for the last key that is not above [key_max], in a
    segment whose first key is not above it. *)
Lemma upper_interval_first key_max lowest n c :
  c_notfound c = true ->
  c_segment_even c = (c_segment_id c mod 2 =? 0) ->
  lowest <= c_segment_id c -> 0 <= c_segment_id c < S_ -> (1 <= n)%nat ->
  K (run_start st (c_segment_id c)) <= key_max ->
  In (c_offset (upper_interval n st key_max lowest c)) (run_cells st (c_segment_id c))
  /\ K (c_offset (upper_interval n st key_max lowest c)) <= key_max
  /\ (forall x, In x (run_cells st (c_segment_id c)) ->
                c_offset (upper_interval n st key_max lowest c) < x -> key_max < K x).
Proof.
  intros Hnf Hpar Hlow Hseg Hn Hfirst.
  destruct n as [| n]; [lia |]. cbn [upper_interval]. rewrite Hnf. cbn [andb].
  destruct (Z.leb_spec lowest (c_segment_id c)) as [_ | Hgt]; [| lia].
  set (seg := c_segment_id c) in *.
  pose proof (use_bounds st Huse seg Hseg) as Hsz.
  assert (Hbounds :
    (if c_segment_even c
     then ((seg + 1) * B - 1, (seg + 1) * B - 1 - get sizes seg)
     else (seg * B + get sizes seg - 1, seg * B))
    = (run_start st seg + get sizes seg - 1,
       if seg mod 2 =? 0 then run_start st seg - 1 else run_start st seg)).
  { rewrite Hpar. unfold run_start. destruct (seg mod 2 =? 0); f_equal; lia. }
  rewrite Hbounds. clear Hbounds.
  set (start := run_start st seg) in *.
  set (stop := if seg mod 2 =? 0 then start - 1 else start).
  assert (Hstop : start - 1 <= stop <= start) by (unfold stop; destruct (seg mod 2 =? 0); lia).
  destruct (skip_above_spec (m_keys st) stop key_max
              (Z.to_nat (start + get sizes seg - 1 - stop + 1)) (start + get sizes seg - 1))
    as (Hr & Hpre & Hpost); try lia.
  set (r := skip_above _ (m_keys st) (start + get sizes seg - 1) stop key_max) in *.
  assert (Hge : start <= r).
  { destruct (Z_lt_le_dec r start) as [Hlt | ?]; [| assumption].
    specialize (Hpre start ltac:(lia)). lia. }
  destruct (Z.ltb_spec r stop) as [Hlt | _]; [lia |].
  rewrite upper_interval_found by reflexivity. cbn [c_offset].
  split; [apply run_cells_range; fold start; lia |].
  split; [apply Hpost; lia |].
  intros x Hx Hlt. apply run_cells_range in Hx. fold start in Hx. apply Hpre. lia.
Qed.

End Intervals.

(* ===================================================================== *)
(** * The candidate segments of a key interval                            *)
(* ===================================================================== *)

Lemma index_find_first_from_spec seps : forall i key,
  seps <> [] ->
  i <= index_find_first_from seps i key < i + len seps
  /\ forall j, i <= j < index_find_first_from seps i key ->
               nth (Z.to_nat (j - i + 1)) seps 0 < key.
Proof.
  unfold len. induction seps as [| x rest IH]; intros i key Hne; [congruence |].
  cbn [index_find_first_from]. destruct rest as [| s' rest'].
  - cbn [length]. split; [lia | intros; lia].
  - destruct (Z.leb_spec key s') as [Hle | Hgt].
    + cbn [length]. split; [lia | intros; lia].
    + destruct (IH (i + 1) key ltac:(discriminate)) as [Hr Hall].
      set (r := index_find_first_from (s' :: rest') (i + 1) key) in *.
      cbn [length] in *. split; [lia |].
      intros j Hj. destruct (Z.eq_dec j i) as [-> | Hne'].
      * replace (Z.to_nat (i - i + 1)) with 1%nat by lia. exact Hgt.
      * replace (Z.to_nat (j - i + 1)) with (S (Z.to_nat (j - (i + 1) + 1))) by lia.
        cbn [nth]. apply Hall. lia.
Qed.

(** The first candidate: the separators of the segments up to it are
    below the key. *)
Lemma index_find_first_spec ix key :
  ix <> [] ->
  0 <= index_find_first ix key < len ix
  /\ forall j, 0 <= j < index_find_first ix key -> get ix (j + 1) < key.
Proof.
  intros Hne. unfold index_find_first.
  destruct (index_find_first_from_spec ix 0 key Hne) as [Hr Hall].
  split; [lia |]. intros j Hj. specialize (Hall j Hj).
  unfold get. destruct (Z.ltb_spec (j + 1) 0); [lia |].
  now rewrite Z.sub_0_r in Hall.
Qed.

Lemma index_find_last_from_spec seps : forall i best key,
  (index_find_last_from seps i best key = best
   /\ forall x, In x seps -> key < x)
  \/ (i <= index_find_last_from seps i best key < i + len seps
      /\ nth (Z.to_nat (index_find_last_from seps i best key - i)) seps 0 <= key
      /\ forall j, index_find_last_from seps i best key < j < i + len seps ->
                   key < nth (Z.to_nat (j - i)) seps 0).
Proof.
  unfold len. induction seps as [| x rest IH]; intros i best key.
  - left. split; [reflexivity | intros x []].
  - cbn [index_find_last_from].
    destruct (IH (i + 1) (if x <=? key then i else best) key)
      as [(Hr & Hall) | (Hr & Hle & Hall)].
    + rewrite Hr. destruct (Z.leb_spec x key) as [Hx | Hx].
      * right. cbn [length]. replace (Z.to_nat (i - i)) with 0%nat by lia. cbn [nth].
        split; [lia |]. split; [exact Hx |].
        intros j Hj. replace (Z.to_nat (j - i)) with (S (Z.to_nat (j - i - 1))) by lia.
        cbn [nth]. apply Hall. apply nth_In. lia.
      * left. split; [reflexivity |]. intros y [<- | Hy]; [exact Hx | now apply Hall].
    + right. set (r := index_find_last_from rest (i + 1) _ key) in *.
      cbn [length]. split; [lia |].
      replace (Z.to_nat (r - i)) with (S (Z.to_nat (r - (i + 1)))) by lia. cbn [nth].
      split; [exact Hle |].
      intros j Hj. replace (Z.to_nat (j - i)) with (S (Z.to_nat (j - (i + 1)))) by lia.
      cbn [nth]. apply Hall. lia.
Qed.

(** The last candidate: the separators of the segments after it are above
    the key, and its own is not when some separator is not. *)
Lemma index_find_last_spec ix key :
  ix <> [] ->
  0 <= index_find_last ix key < len ix
  /\ (forall j, index_find_last ix key < j < len ix -> key < get ix j)
  /\ ((exists j, 0 <= j < len ix /\ get ix j <= key) ->
      get ix (index_find_last ix key) <= key).
Proof.
  intros Hne. unfold index_find_last.
  assert (Hlen : 0 < len ix) by (unfold len; destruct ix; [congruence | cbn [length]; lia]).
  destruct (index_find_last_from_spec ix 0 0 key) as [(Hr & Hall) | (Hr & Hle & Hall)].
  - rewrite Hr. split; [lia |]. split.
    + intros j Hj. apply Hall. unfold get. destruct (Z.ltb_spec j 0); [lia |].
      apply nth_In. unfold len in Hj. lia.
    + intros (j & Hj & Hk). exfalso.
      assert (key < get ix j); [| lia].
      apply Hall. unfold get. destruct (Z.ltb_spec j 0); [lia |].
      apply nth_In. unfold len in Hj. lia.
  - set (r := index_find_last_from ix 0 0 key) in *. rewrite Z.sub_0_r in Hle.
    split; [lia |]. split.
    + intros j Hj. specialize (Hall j ltac:(lia)). rewrite Z.sub_0_r in Hall.
      unfold get. destruct (Z.ltb_spec j 0); [lia | exact Hall].
    + intros _. unfold get. destruct (Z.ltb_spec r 0); [lia | exact Hle].
Qed.

(* ===================================================================== *)
(** * The stored pairs of a key interval                                  *)
(* ===================================================================== *)

Lemma filter_none {A} (f : A -> bool) l :
  (forall x, In x l -> f x = false) -> filter f l = [].
Proof.
  induction l as [| x l IH]; intros H; [reflexivity |].
  cbn [filter]. rewrite (H x (or_introl eq_refl)). apply IH. intros y Hy. apply H. now right.
Qed.

Lemma filter_map_swap {A B} (f : B -> bool) (g : A -> B) l :
  filter f (map g l) = map g (filter (fun x => f (g x)) l).
Proof.
  induction l as [| x l IH]; [reflexivity |]. cbn [map filter].
  destruct (f (g x)); cbn [map]; now rewrite IH.
Qed.

Section KeyInterval.
Variable t : BTreePMACC7.
Variables min max : Z.
Hypothesis Hwf : well_formed t.

Local Abbreviation st := (m_storage t).
Local Abbreviation B := (m_segment_capacity (m_storage t)).
Local Abbreviation S_ := (m_number_segments (m_storage t)).
Local Abbreviation sizes := (m_segment_sizes (m_storage t)).
Local Abbreviation K := (get (m_keys (m_storage t))).
Local Abbreviation first_segment := (index_find_first (m_index t) min).
Local Abbreviation last_segment := (index_find_last (m_index t) max).

Lemma wf_use : segments_in_use st.
Proof. destruct Hwf as (H & _). exact H. Qed.

Lemma wf_sorted : non_decreasing (traversal st).
Proof. destruct Hwf as (_ & _ & _ & H & _). exact H. Qed.

Lemma wf_index_length : len (m_index t) = S_.
Proof. destruct Hwf as (_ & _ & _ & _ & (H & _)). exact H. Qed.

Lemma wf_index_nonempty : m_index t <> [].
Proof.
  pose proof wf_index_length as Hl. pose proof (use_segments st wf_use).
  intros E. rewrite E in Hl. cbn in Hl. lia.
Qed.

Lemma wf_separator s : 0 <= s < S_ -> get (m_index t) s = K (run_start st s).
Proof.
  intros Hs. destruct Hwf as (_ & _ & _ & _ & (_ & H)).
  rewrite <- get_minimum_run. apply (H s Hs).
Qed.

Lemma wf_monotone a b : In a (cells st) -> In b (cells st) -> a <= b -> K a <= K b.
Proof. apply (keys_monotone st wf_use wf_sorted). Qed.

(** The first key of a segment bounds the keys around it. *)
Lemma above_separator s x :
  0 <= s < S_ -> In x (run_cells st s) -> get (m_index t) s <= K x.
Proof.
  intros Hs Hx. rewrite (wf_separator s Hs).
  apply wf_monotone.
  - apply (run_cell_in_cells st s _ Hs). apply (run_start_cell st wf_use s Hs).
  - apply (run_cell_in_cells st s _ Hs Hx).
  - apply run_cells_range in Hx. lia.
Qed.

Lemma below_next_separator s x :
  0 <= s -> s + 1 < S_ -> In x (run_cells st s) -> K x <= get (m_index t) (s + 1).
Proof.
  intros Hs Hs1 Hx. rewrite (wf_separator (s + 1)) by lia.
  pose proof (run_start_cell st wf_use (s + 1) ltac:(lia)) as Hh.
  apply wf_monotone.
  - apply (run_cell_in_cells st s _ ltac:(lia) Hx).
  - apply (run_cell_in_cells st (s + 1) _ ltac:(lia) Hh).
  - pose proof (cells_by_segment st wf_use s (s + 1) x _ ltac:(lia) ltac:(lia) Hx Hh). lia.
Qed.

Lemma first_segment_range : 0 <= first_segment < S_.
Proof.
  pose proof (index_find_first_spec (m_index t) min wf_index_nonempty) as [H _].
  rewrite wf_index_length in H. exact H.
Qed.

Lemma last_segment_range : 0 <= last_segment < S_.
Proof.
  pose proof (index_find_last_spec (m_index t) max wf_index_nonempty) as [H _].
  rewrite wf_index_length in H. exact H.
Qed.

(** The segments before the first candidate hold keys below [min]. *)
Lemma before_first_segment s x :
  0 <= s < first_segment -> In x (run_cells st s) -> K x < min.
Proof.
  intros Hs Hx.
  pose proof (index_find_first_spec (m_index t) min wf_index_nonempty) as [_ H].
  pose proof first_segment_range.
  specialize (H s Hs). pose proof (below_next_separator s x ltac:(lia) ltac:(lia) Hx). lia.
Qed.

(** The segments after the last candidate hold keys above [max]. *)
Lemma after_last_segment s x :
  last_segment < s < S_ -> In x (run_cells st s) -> max < K x.
Proof.
  intros Hs Hx.
  pose proof (index_find_last_spec (m_index t) max wf_index_nonempty) as (_ & H & _).
  pose proof last_segment_range.
  rewrite wf_index_length in H. specialize (H s Hs).
  pose proof (above_separator s x ltac:(lia) Hx). lia.
Qed.

Lemma nothing_in_range :
  (forall x, In x (cells st) -> K x < min \/ max < K x) ->
  filter (in_range min max) (contents st) = [].
Proof.
  intros H. rewrite contents_entries, filter_map_swap.
  rewrite filter_none; [reflexivity |].
  intros x Hx. unfold in_range, entry. cbn [fst].
  destruct (H x Hx); [destruct (Z.leb_spec min (K x)); [lia | reflexivity] |].
  destruct (Z.leb_spec (K x) max); [lia | apply andb_false_r].
Qed.

(** Inverted candidates: no stored key lies in the interval. *)
Lemma inverted_candidates :
  last_segment < first_segment -> filter (in_range min max) (contents st) = [].
Proof.
  intros Hinv. apply nothing_in_range. intros x Hx.
  apply (cell_segment st) in Hx. destruct Hx as (s & Hs & Hx).
  destruct (Z_lt_le_dec s first_segment) as [Hlt | Hge].
  - left. apply (before_first_segment s x); [lia | exact Hx].
  - right. apply (after_last_segment s x); [lia | exact Hx].
Qed.

(** The pairs of the interval are those of the cells between the first
    cell [lo] whose key is not below [min] and the last cell [hi] whose key
    is not above [max]. *)
Lemma interval_cells lo hi :
  In lo (cells st) -> In hi (cells st) ->
  min <= K lo -> K hi <= max ->
  (forall x, In x (cells st) -> x < lo -> K x < min) ->
  (forall x, In x (cells st) -> hi < x -> max < K x) ->
  filter (in_range min max) (contents st)
  = map (entry st) (filter (fun x => (lo <=? x) && (x <=? hi)) (cells st)).
Proof.
  intros Hlo Hhi Hklo Hkhi Hbelow Habove.
  rewrite contents_entries, filter_map_swap. f_equal.
  apply filter_ext_in. intros x Hx. unfold in_range, entry. cbn [fst].
  destruct (Z.leb_spec lo x) as [H1 | H1], (Z.leb_spec x hi) as [H2 | H2]; cbn [andb].
  - pose proof (wf_monotone lo x Hlo Hx H1). pose proof (wf_monotone x hi Hx Hhi H2).
    destruct (Z.leb_spec min (K x)), (Z.leb_spec (K x) max); try lia; reflexivity.
  - specialize (Habove x Hx H2).
    destruct (Z.leb_spec (K x) max); [lia | apply andb_false_r].
  - specialize (Hbelow x Hx H1).
    destruct (Z.leb_spec min (K x)); [lia | reflexivity].
  - specialize (Hbelow x Hx H1).
    destruct (Z.leb_spec min (K x)); [lia | reflexivity].
Qed.

End KeyInterval.

(* ===================================================================== *)
(** * The accumulation loop of sum                                        *)
(* ===================================================================== *)

Lemma accumulate_nil st acc : accumulate st acc [] = acc.
Proof. destruct acc. unfold accumulate, len. cbn. now rewrite Z.add_0_r. Qed.

Lemma accumulate_app st acc l1 l2 :
  accumulate st (accumulate st acc l1) l2 = accumulate st acc (l1 ++ l2).
Proof.
  unfold accumulate, len.
  cbn [m_first_key m_last_key m_num_elements m_sum_keys m_sum_values].
  rewrite !fold_left_app, length_app. f_equal. lia.
Qed.

Lemma u64_add_l a b : u64 (u64 a + b) = u64 (a + b).
Proof. unfold u64. apply Z.add_mod_idemp_l. lia. Qed.

Lemma i64_add_l a b : i64 (i64 a + b) = i64 (a + b).
Proof.
  unfold i64. f_equal.
  replace ((a + 2 ^ 63) mod 2 ^ 64 - 2 ^ 63 + b + 2 ^ 63) with ((a + 2 ^ 63) mod 2 ^ 64 + b)
    by lia.
  rewrite Z.add_mod_idemp_l by lia. f_equal. lia.
Qed.

Lemma u64_small a : 0 <= a < 2 ^ 64 -> u64 a = a.
Proof. intros H. unfold u64. now apply Z.mod_small. Qed.

Lemma i64_small a : int64_min <= a <= int64_max -> i64 a = a.
Proof.
  unfold int64_min, int64_max, i64. intros H. rewrite Z.mod_small; lia.
Qed.

(** Adding with wrap-around is adding, then wrapping. *)
Lemma fold_i64 (g : Z -> Z) l : forall a,
  fold_left (fun a i => i64 (a + g i)) l (i64 a)
  = i64 (fold_left (fun a i => a + g i) l a).
Proof.
  induction l as [| x l IH]; intros a; [reflexivity |].
  cbn [fold_left]. rewrite i64_add_l. apply IH.
Qed.

Lemma truncated_representable r : representable r -> truncated r = r.
Proof.
  intros (Hn & Hk & Hv). destruct r as [f l n k v].
  unfold truncated. cbn [m_first_key m_last_key m_num_elements m_sum_keys m_sum_values] in *.
  rewrite u64_small, !i64_small by assumption. reflexivity.
Qed.

Lemma sum_loop_done n st end_ sid offset stop acc :
  end_ <= offset -> sum_loop n st end_ sid offset stop acc = acc.
Proof.
  intros H. destruct n; [reflexivity |]. cbn [sum_loop].
  destruct (Z.ltb_spec offset end_); [lia | reflexivity].
Qed.

Lemma flat_map_nil {A B} (f : A -> list B) l :
  (forall x, In x l -> f x = []) -> flat_map f l = [].
Proof.
  induction l as [| x l IH]; intros H; [reflexivity |]. cbn [flat_map].
  rewrite (H x (or_introl eq_refl)), IH; [reflexivity |]. intros y Hy. apply H. now right.
Qed.

Section Accumulation.
Variable st : PMA.
Hypothesis Huse : segments_in_use st.
Variable end_ : Z.
Hypothesis Hend : end_ <= pair_end st (pairs_of st - 1).

Local Abbreviation B := (m_segment_capacity st).
Local Abbreviation S_ := (m_number_segments st).
Local Abbreviation sizes := (m_segment_sizes st).
Local Abbreviation P := (pairs_of st).

Lemma pair_start_bounds q : 0 <= q < P -> 2 * q * B <= run_start st (2 * q) < pair_end st q.
Proof.
  intros Hq. destruct (pair_size_pos st Huse q Hq) as [H0 H1].
  rewrite run_start_even. unfold pair_end. lia.
Qed.

Lemma pairs_apart q q' : 0 <= q -> q < q' < P -> pair_end st q <= run_start st (2 * q').
Proof.
  intros Hq Hq'. pose proof (pair_end_bounds st Huse q ltac:(lia)).
  pose proof (pair_start_bounds q' ltac:(lia)). pose proof (use_capacity st Huse).
  assert ((2 * q + 2) * B <= 2 * q' * B) by (apply Z.mul_le_mono_nonneg_r; lia). lia.
Qed.

Lemma next_pair_segment q :
  0 <= q < P -> (2 * (q + 1) <? S_) = (q + 1 <? P).
Proof.
  intros Hq. destruct (pairs_of_spec st Huse) as [[H1 HP] | [H1 HP]].
  - rewrite H1, HP. destruct (Z.ltb_spec (2 * (q + 1)) 1), (Z.ltb_spec (q + 1) 1); lia.
  - rewrite HP. destruct (Z.ltb_spec (2 * (q + 1)) (2 * P)), (Z.ltb_spec (q + 1) P); lia.
Qed.

(** The loop adds up the cells of the pairs of segments from the cell
    [o] of the pair [q] to the cell before [end_]. *)
Lemma sum_loop_pairs n : forall q sid o stop acc,
  sid = 2 * q \/ sid = 2 * q + 1 ->
  0 <= q < P -> P - q <= Z.of_nat n ->
  o <= pair_end st q -> stop = Z.min end_ (pair_end st q) ->
  sum_loop n st end_ sid o stop (truncated acc)
  = truncated
      (accumulate st acc
         (pair_part st end_ q o
          ++ flat_map (fun q' => pair_part st end_ q' (run_start st (2 * q')))
               (zrange (q + 1) (Z.to_nat (P - q - 1))))).
Proof.
  induction n as [| n IH]; intros q sid o stop acc Hsid Hq Hn Ho Hstop; [lia |].
  cbn [sum_loop]. destruct (Z.ltb_spec o end_) as [Hlt | Hge].
  - assert (Hnext : sid + 1 + b2z (sid mod 2 =? 0) = 2 * (q + 1)).
    { destruct Hsid as [-> | ->].
      - replace ((2 * q) mod 2) with 0
          by (symmetry; rewrite Z.mul_comm; apply Z.mod_mul; lia).
        change (0 =? 0) with true. unfold b2z. lia.
      - replace ((2 * q + 1) mod 2) with 1
          by (symmetry; rewrite Z.add_comm, Z.mul_comm, Z.mod_add by lia; reflexivity).
        change (1 =? 0) with false. unfold b2z. lia. }
    rewrite Hnext, (next_pair_segment q Hq).
    match goal with
    | |- context [sum_loop n st end_ _ _ _ ?a] =>
        replace a with (truncated (accumulate st acc (pair_part st end_ q o)))
    end.
    2:{ unfold truncated, accumulate, pair_part, len.
        cbn [m_first_key m_last_key m_num_elements m_sum_keys m_sum_values].
        rewrite length_zrange, <- Hstop, !fold_i64, u64_add_l.
        f_equal. f_equal. lia. }
    destruct (Z.ltb_spec (q + 1) P) as [Hq1 | Hq1].
    + rewrite (IH (q + 1) (2 * (q + 1)) _ _ _ (or_introl eq_refl)); try lia.
      * rewrite accumulate_app. f_equal. f_equal.
        replace ((2 * (q + 1) + 1) * B - get sizes (2 * (q + 1)))
          with (run_start st (2 * (q + 1))) by (rewrite run_start_even; lia).
        replace (Z.to_nat (P - q - 1)) with (S (Z.to_nat (P - (q + 1) - 1))) by lia.
        cbn [zrange flat_map]. reflexivity.
      * replace ((2 * (q + 1) + 1) * B - get sizes (2 * (q + 1)))
          with (run_start st (2 * (q + 1))) by (rewrite run_start_even; lia).
        pose proof (pair_start_bounds (q + 1) ltac:(lia)). lia.
      * rewrite (pair_end_spec st (q + 1)). rewrite run_start_even. f_equal. lia.
    + rewrite sum_loop_done.
      * replace (Z.to_nat (P - q - 1)) with 0%nat by lia. cbn [zrange flat_map].
        now rewrite app_nil_r.
      * replace q with (P - 1) in Hstop by lia. lia.
  - unfold pair_part at 1.
    replace (Z.to_nat (Z.min end_ (pair_end st q) - o)) with 0%nat by lia.
    cbn [zrange app]. rewrite flat_map_nil; [now rewrite accumulate_nil |].
    intros q' Hq'. apply in_zrange in Hq'. unfold pair_part.
    pose proof (pairs_apart q q' ltac:(lia) ltac:(lia)).
    replace (Z.to_nat (Z.min end_ (pair_end st q') - run_start st (2 * q'))) with 0%nat by lia.
    reflexivity.
Qed.

End Accumulation.

(* ===================================================================== *)
(** * The cells between two cells in use                                  *)
(* ===================================================================== *)

Lemma filter_zrange lo e n : forall a,
  filter (fun x => (lo <=? x) && (x <? e)) (zrange a n)
  = zrange (Z.max a lo) (Z.to_nat (Z.min (a + Z.of_nat n) e - Z.max a lo)).
Proof.
  induction n as [| n IH]; intros a.
  - cbn [zrange filter]. replace (Z.to_nat _) with 0%nat by lia. reflexivity.
  - cbn [zrange filter]. rewrite IH.
    destruct (Z.leb_spec lo a) as [H1 | H1], (Z.ltb_spec a e) as [H2 | H2]; cbn [andb].
    + replace (Z.max a lo) with a by lia.
      replace (Z.to_nat (Z.min (a + Z.of_nat (S n)) e - a))
        with (S (Z.to_nat (Z.min (a + 1 + Z.of_nat n) e - Z.max (a + 1) lo))) by lia.
      cbn [zrange]. do 2 f_equal. lia.
    + replace (Z.to_nat (Z.min (a + 1 + Z.of_nat n) e - Z.max (a + 1) lo)) with 0%nat by lia.
      replace (Z.to_nat (Z.min (a + Z.of_nat (S n)) e - Z.max a lo)) with 0%nat by lia.
      reflexivity.
    + f_equal; [lia | f_equal; lia].
    + replace (Z.to_nat (Z.min (a + 1 + Z.of_nat n) e - Z.max (a + 1) lo)) with 0%nat by lia.
      replace (Z.to_nat (Z.min (a + Z.of_nat (S n)) e - Z.max a lo)) with 0%nat by lia.
      reflexivity.
Qed.

Lemma filter_flat_map {A B} (f : B -> bool) (g : A -> list B) l :
  filter f (flat_map g l) = flat_map (fun x => filter f (g x)) l.
Proof.
  induction l as [| x l IH]; [reflexivity |]. cbn [flat_map].
  now rewrite filter_app, IH.
Qed.

Lemma filter_range_head lo hi l :
  increasing l -> In lo l -> lo <= hi ->
  exists r, filter (fun x => (lo <=? x) && (x <=? hi)) l = lo :: r.
Proof.
  induction l as [| x l IH]; intros Hi Hlo Hle; [destruct Hlo |].
  apply increasing_cons in Hi. destruct Hi as [Hx Hi]. cbn [filter].
  destruct Hlo as [-> | Hlo].
  - destruct (Z.leb_spec lo lo), (Z.leb_spec lo hi); try lia; cbn [andb]; eauto.
  - specialize (Hx lo Hlo). destruct (Z.leb_spec lo x); [lia |]. cbn [andb].
    now apply IH.
Qed.

Lemma filter_range_last lo hi l d :
  increasing l -> In hi l -> lo <= hi ->
  last (filter (fun x => (lo <=? x) && (x <=? hi)) l) d = hi.
Proof.
  induction l as [| x l IH]; intros Hi Hhi Hle; [destruct Hhi |].
  apply increasing_cons in Hi. destruct Hi as [Hx Hi]. cbn [filter].
  destruct Hhi as [-> | Hhi].
  - rewrite (filter_none _ l).
    + destruct (Z.leb_spec lo hi), (Z.leb_spec hi hi); try lia; reflexivity.
    + intros y Hy. specialize (Hx y Hy). destruct (Z.leb_spec y hi); [lia | apply andb_false_r].
  - specialize (IH Hi Hhi Hle).
    assert (Hne : filter (fun x => (lo <=? x) && (x <=? hi)) l <> []).
    { intros E. assert (Hin : In hi (filter (fun x => (lo <=? x) && (x <=? hi)) l)).
      { apply filter_In. split; [exact Hhi |].
        destruct (Z.leb_spec lo hi), (Z.leb_spec hi hi); try lia; reflexivity. }
      rewrite E in Hin. destruct Hin. }
    destruct ((lo <=? x) && (x <=? hi)); [| exact IH].
    destruct (filter (fun x => (lo <=? x) && (x <=? hi)) l) eqn:E; [congruence |].
    exact IH.
Qed.

Lemma last_map {A B} (f : A -> B) l d : last (map f l) (f d) = f (last l d).
Proof.
  induction l as [| x l IH]; [reflexivity |]. cbn [map].
  destruct l as [| y l]; [reflexivity |]. exact IH.
Qed.

Lemma fold_keys_entries st l a :
  fold_left (fun a q => a + fst q) (map (entry st) l) a
  = fold_left (fun a i => a + get (m_keys st) i) l a.
Proof. revert a. induction l as [| x l IH]; intros a; [reflexivity |]. cbn. apply IH. Qed.

Lemma fold_values_entries st l a :
  fold_left (fun a q => a + snd q) (map (entry st) l) a
  = fold_left (fun a i => a + get (m_values st) i) l a.
Proof. revert a. induction l as [| x l IH]; intros a; [reflexivity |]. cbn. apply IH. Qed.

Section Between.
Variable st : PMA.
Hypothesis Huse : segments_in_use st.
Variables lo hi sid : Z.
Hypothesis Hsid : 0 <= sid < m_number_segments st.
Hypothesis Hlo : In lo (run_cells st sid).

Local Abbreviation B := (m_segment_capacity st).
Local Abbreviation P := (pairs_of st).
Local Abbreviation q := (sid / 2).

Lemma segment_pair : (sid = 2 * q \/ sid = 2 * q + 1) /\ 0 <= q < P.
Proof.
  pose proof (Z.div_mod sid 2 ltac:(lia)) as Hd.
  pose proof (Z.mod_pos_bound sid 2 ltac:(lia)) as Hm.
  split; [lia |].
  destruct (pairs_of_spec st Huse) as [[H1 HP] | [H1 HP]]; lia.
Qed.

Lemma cell_in_pair : run_start st (2 * q) <= lo < pair_end st q.
Proof.
  destruct segment_pair as [Hq Hr].
  destruct (pair_size_pos st Huse q Hr) as [H0 H1].
  pose proof (run_cells_range st sid lo) as Hc. apply Hc in Hlo.
  pose proof (use_bounds st Huse sid Hsid) as Hsz.
  destruct Hq as [E | E].
  - rewrite E in Hlo at 1 2. rewrite <- E in H0.
    rewrite run_start_even in *. unfold pair_end. rewrite <- E in *. lia.
  - assert (Hrs : run_start st sid = (2 * q + 1) * B) by (rewrite E at 1; apply run_start_odd).
    rewrite Hrs in Hlo. rewrite run_start_even. unfold pair_end. rewrite <- E. lia.
Qed.

(** The cells in use between [lo] and [hi], pair by pair. *)
Lemma cells_between :
  filter (fun x => (lo <=? x) && (x <=? hi)) (cells st)
  = pair_part st (hi + 1) q lo
    ++ flat_map (fun q' => pair_part st (hi + 1) q' (run_start st (2 * q')))
         (zrange (q + 1) (Z.to_nat (P - q - 1))).
Proof.
  destruct segment_pair as [_ Hq]. pose proof cell_in_pair as Hin.
  rewrite (filter_ext _ (fun x => (lo <=? x) && (x <? hi + 1))).
  2:{ intros x. f_equal. destruct (Z.leb_spec x hi), (Z.ltb_spec x (hi + 1)); lia. }
  rewrite (cells_pairs st Huse), filter_flat_map, (zrange_split q P Hq), flat_map_app.
  cbn [flat_map].
  assert (Hpair : forall p, 0 <= p < P ->
            filter (fun x => (lo <=? x) && (x <? hi + 1)) (pair_cells st p)
            = zrange (Z.max (run_start st (2 * p)) lo)
                (Z.to_nat (Z.min (pair_end st p) (hi + 1) - Z.max (run_start st (2 * p)) lo))).
  { intros p Hp. unfold pair_cells. rewrite filter_zrange.
    destruct (pair_size_pos st Huse p Hp) as [H0 H1].
    rewrite (pair_end_spec st p). do 3 f_equal. lia. }
  rewrite flat_map_nil, app_nil_l.
  2:{ intros p Hp. apply in_zrange in Hp. rewrite Hpair by lia.
      pose proof (pairs_apart st Huse p q ltac:(lia) ltac:(lia)).
      replace (Z.to_nat _) with 0%nat by lia. reflexivity. }
  f_equal.
  - rewrite Hpair by lia. unfold pair_part.
    replace (Z.max (run_start st (2 * q)) lo) with lo by lia.
    now rewrite Z.min_comm.
  - apply flat_map_ext_within. intros p Hp. apply in_zrange in Hp.
    rewrite Hpair by lia. unfold pair_part.
    pose proof (pairs_apart st Huse q p ltac:(lia) ltac:(lia)).
    replace (Z.max (run_start st (2 * p)) lo) with (run_start st (2 * p)) by lia.
    now rewrite Z.min_comm.
Qed.

End Between.

(* ===================================================================== *)
(** * The aggregate of a key interval                                     *)
(* ===================================================================== *)

Lemma aggregate_entries st x r :
  aggregate (map (entry st) (x :: r))
  = {| m_first_key := get (m_keys st) x;
       m_last_key := get (m_keys st) (last (x :: r) x);
       m_num_elements := 0 + len (x :: r);
       m_sum_keys := fold_left (fun a i => a + get (m_keys st) i) (x :: r) 0;
       m_sum_values := fold_left (fun a i => a + get (m_values st) i) (x :: r) 0 |}.
Proof.
  change (map (entry st) (x :: r)) with (entry st x :: map (entry st) r).
  unfold aggregate.
  change (entry st x :: map (entry st) r) with (map (entry st) (x :: r)).
  rewrite last_map, fold_keys_entries, fold_values_entries.
  unfold len. rewrite length_map. reflexivity.
Qed.

Section Sum.
Variable t : BTreePMACC7.
Variables min max : Z.
Hypothesis Hwf : well_formed t.
Hypothesis Hmm : min <= max.

Local Abbreviation st := (m_storage t).
Local Abbreviation B := (m_segment_capacity (m_storage t)).
Local Abbreviation S_ := (m_number_segments (m_storage t)).
Local Abbreviation sizes := (m_segment_sizes (m_storage t)).
Local Abbreviation K := (get (m_keys (m_storage t))).
Local Abbreviation first_segment := (index_find_first (m_index t) min).
Local Abbreviation last_segment := (index_find_last (m_index t) max).
Local Abbreviation lower :=
  (lower_interval (Z.to_nat (S_ - first_segment)) st min
     {| c_notfound := true; c_segment_id := first_segment;
        c_segment_even := first_segment mod 2 =? 0;
        c_start := -1; c_stop := -1; c_offset := -1 |}).

Lemma sum_well_formed :
  sum t min max = truncated (aggregate (filter (in_range min max) (contents st))).
Proof.
  pose proof (wf_use t Hwf) as Huse.
  pose proof (first_segment_range t min Hwf) as Hfirst.
  pose proof (last_segment_range t max Hwf) as Hlast.
  unfold sum. destruct (Z.ltb_spec max min) as [? | _]; [lia |].
  rewrite (well_formed_not_empty t Hwf). cbn [orb]. cbv zeta.
  destruct (Z.ltb_spec last_segment first_segment) as [Hinv | Hord].
  { now rewrite (inverted_candidates t min max Hwf Hinv). }
  destruct (lower_interval_spec st Huse min (Z.to_nat (S_ - first_segment))
              {| c_notfound := true; c_segment_id := first_segment;
                 c_segment_even := first_segment mod 2 =? 0;
                 c_start := -1; c_stop := -1; c_offset := -1 |}
              eq_refl eq_refl)
    as [(Hnf & Hall) | (Hnf & Hr & Hpar & Hin & Hk & Hall & Hbefore & Hstop)];
    cbn [c_segment_id] in *; try lia.
  - (* no key reaches [min] *)
    rewrite Hnf. cbn [orb]. rewrite (nothing_in_range t min max); [reflexivity |].
    intros x Hx. left. apply (cell_segment st) in Hx. destruct Hx as (s & Hs & Hx).
    destruct (Z_lt_le_dec s first_segment) as [Hlt | Hge].
    + apply (before_first_segment t min Hwf s x); [lia | exact Hx].
    + apply (Hall s x); [lia | exact Hx].
  - set (sid := c_segment_id lower) in *. set (lo := c_offset lower) in *.
    rewrite Hnf. cbn [orb].
    assert (Hlo : In lo (cells st)) by (apply (run_cell_in_cells st sid); [lia | exact Hin]).
    assert (Hbelow : forall x, In x (cells st) -> x < lo -> K x < min).
    { intros x Hx Hlt. apply (cell_segment st) in Hx. destruct Hx as (s & Hs & Hx).
      destruct (Z_lt_le_dec s first_segment) as [H1 | H1].
      { apply (before_first_segment t min Hwf s x); [lia | exact Hx]. }
      destruct (Z_lt_le_dec s sid) as [H2 | H2]; [apply (Hall s x); [lia | exact Hx] |].
      destruct (Z.eq_dec s sid) as [-> | Hne]; [now apply Hbefore |].
      pose proof (cells_by_segment st Huse sid s lo x ltac:(lia) Hs Hin Hx ltac:(lia)). lia. }
    destruct (Z.ltb_spec max (K lo)) as [Hgt | Hle].
    { (* the first key that reaches [min] is above [max] *)
      rewrite (nothing_in_range t min max); [reflexivity |].
      intros x Hx. destruct (Z_lt_le_dec x lo) as [H1 | H1].
      - left. now apply Hbelow.
      - right. pose proof (wf_monotone t Hwf lo x Hlo Hx H1). lia. }
    assert (Hseplo : get (m_index t) sid <= max).
    { rewrite (wf_separator t Hwf sid) by lia.
      pose proof (run_start_cell st Huse sid ltac:(lia)) as Hh.
      pose proof (wf_monotone t Hwf (run_start st sid) lo
                    (run_cell_in_cells st sid _ ltac:(lia) Hh) Hlo) as Hm.
      apply run_cells_range in Hin. lia. }
    pose proof (index_find_last_spec (m_index t) max (wf_index_nonempty t Hwf))
      as (_ & Hafter & Hsome).
    rewrite (wf_index_length t Hwf) in Hafter, Hsome.
    assert (Hsl : sid <= last_segment).
    { destruct (Z_lt_le_dec last_segment sid) as [Hlt | ?]; [| assumption].
      specialize (Hafter sid ltac:(lia)). lia. }
    assert (Hsephi : K (run_start st last_segment) <= max).
    { rewrite <- (wf_separator t Hwf last_segment Hlast). apply Hsome.
      exists sid. split; [lia | exact Hseplo]. }
    destruct (upper_interval_first st Huse max sid
                (Z.to_nat (last_segment - sid + 1))
                {| c_notfound := true; c_segment_id := last_segment;
                   c_segment_even := last_segment mod 2 =? 0;
                   c_start := 0; c_stop := 0; c_offset := 0 |}
                eq_refl eq_refl)
      as (Hin' & Hk' & Hafter'); cbn [c_segment_id] in *; try lia; try exact Hsephi.
    match goal with
    | |- context [c_offset ?u + 1] => set (hi := c_offset u) in *
    end.
    assert (Hhi : In hi (cells st))
      by (apply (run_cell_in_cells st last_segment); [lia | exact Hin']).
    assert (Habove : forall x, In x (cells st) -> hi < x -> max < K x).
    { intros x Hx Hlt. apply (cell_segment st) in Hx. destruct (Hx) as (s & Hs & Hx').
      destruct (Z_lt_le_dec last_segment s) as [H1 | H1].
      { apply (after_last_segment t max Hwf s x); [lia | exact Hx']. }
      destruct (Z.eq_dec s last_segment) as [-> | Hne]; [now apply Hafter' |].
      pose proof (cells_by_segment st Huse s last_segment x hi Hs ltac:(lia) Hx' Hin'
                    ltac:(lia)). lia. }
    assert (Hlohi : lo <= hi).
    { destruct (Z_lt_le_dec hi lo) as [Hlt | ?]; [| assumption].
      specialize (Habove lo Hlo Hlt). lia. }
    destruct (Z.leb_spec (hi + 1) lo) as [? | _]; [lia |].
    rewrite (interval_cells t min max Hwf lo hi Hlo Hhi Hk Hk' Hbelow Habove).
    rewrite (cells_between st Huse lo hi sid ltac:(lia) Hin).
    destruct (segment_pair st Huse sid ltac:(lia)) as [Hq Hqr].
    pose proof (cell_in_pair st Huse lo sid ltac:(lia) Hin) as Hcell.
    (* the end of the first pair *)
    match goal with
    | |- context [Z.min ?raw (hi + 1)] => assert (Hraw : raw = pair_end st (sid / 2))
    end.
    { rewrite Hpar, Hstop.
      destruct (pairs_of_spec st Huse) as [[H1 HP] | [H1 HP]].
      - assert (E0 : sid = 0) by lia. rewrite E0 in *.
        change (0 mod 2 =? 0) with true. cbn [andb].
        destruct (Z.ltb_spec 0 (S_ - 1)) as [? | _]; [lia |].
        destruct Huse as (_ & _ & _ & _ & _ & _ & Hsent).
        change (0 / 2) with 0. unfold pair_end, run_start.
        change (0 mod 2 =? 0) with true. cbv iota.
        change (2 * 0 + 1) with 1. rewrite (Hsent H1). lia.
      - destruct Hq as [E | E].
        + assert (Hm : sid mod 2 = 0)
            by (rewrite E at 1; rewrite Z.mul_comm; apply Z.mod_mul; lia).
          rewrite Hm. change (0 =? 0) with true. cbn [andb].
          destruct (Z.ltb_spec sid (S_ - 1)) as [_ | ?]; [| lia].
          unfold pair_end. rewrite <- E. reflexivity.
        + assert (Hm : sid mod 2 = 1).
          { rewrite E at 1. rewrite Z.add_comm, Z.mul_comm, Z.mod_add by lia. reflexivity. }
          rewrite Hm. change (1 =? 0) with false. cbn [andb].
          unfold pair_end. rewrite <- E.
          assert (Hrs : run_start st sid = sid * B).
          { unfold run_start. rewrite Hm. reflexivity. }
          rewrite Hrs. reflexivity. }
    rewrite Hraw.
    assert (Hend : hi + 1 <= pair_end st (pairs_of st - 1)).
    { destruct (segment_pair st Huse last_segment Hlast) as [_ Hqr'].
      pose proof (cell_in_pair st Huse hi last_segment Hlast Hin') as Hc.
      pose proof (pair_end_last st Huse (last_segment / 2) Hqr'). lia. }
    match goal with
    | |- context [sum_loop _ _ _ _ _ _ ?a] => change a with (truncated a)
    end.
    rewrite (sum_loop_pairs st Huse (hi + 1) Hend _ (sid / 2) sid lo _ _ Hq Hqr);
      [| | lia | apply Z.min_comm].
    2:{ pose proof (Z.div_mod sid 2 ltac:(lia)). pose proof (Z.mod_pos_bound sid 2 ltac:(lia)).
        destruct (pairs_of_spec st Huse) as [[H1 HP] | [H1 HP]]; lia. }
    rewrite <- (cells_between st Huse lo hi sid ltac:(lia) Hin).
    destruct (filter_range_head lo hi (cells st) (cells_increasing st Huse) Hlo Hlohi)
      as (r & Hhead).
    pose proof (filter_range_last lo hi (cells st) lo (cells_increasing st Huse) Hhi Hlohi)
      as Hlst.
    rewrite Hhead in *. rewrite aggregate_entries, Hlst.
    unfold truncated, accumulate.
    cbn [m_first_key m_last_key m_num_elements m_sum_keys m_sum_values].
    replace (hi + 1 - 1) with hi by lia. reflexivity.
Qed.

End Sum.

Lemma non_decreasing_filter (f : Z * Z -> bool) l :
  non_decreasing (map fst l) -> non_decreasing (map fst (filter f l)).
Proof.
  induction l as [| p l IH]; intros H; [exact I |].
  cbn [map] in H. apply non_decreasing_cons in H. destruct H as [Hp Hl].
  cbn [filter]. destruct (f p); [| now apply IH].
  cbn [map]. apply non_decreasing_cons. split; [| now apply IH].
  intros b Hb. apply Hp. apply in_map_iff in Hb. destruct Hb as (q & <- & Hq).
  apply filter_In in Hq. apply in_map. tauto.
Qed.

Lemma non_decreasing_ends (p : Z * Z) l q :
  non_decreasing (map fst (p :: l)) -> In q (p :: l) ->
  fst p <= fst q <= fst (last (p :: l) p).
Proof.
  intros H Hq. split.
  - apply (non_decreasing_head (fst p) (map fst l)); [exact H |].
    change (fst p :: map fst l) with (map fst (p :: l)). now apply in_map.
  - destruct (exists_last (l := p :: l) ltac:(discriminate)) as (l' & z & E).
    rewrite E in *. rewrite last_last. rewrite map_app in H. cbn [map] in H.
    apply (non_decreasing_last (map fst l') (fst z)); [exact H |].
    change [fst z] with (map fst [z]). rewrite <- map_app. now apply in_map.
Qed.

(** X7. [sum(min, max)] on a well-formed index, [min <= max]: the result
    is the aggregate of the stored pairs whose key lies in [[min, max]] as
    the 64-bit fields of [SumResult] hold it: their number modulo 2^64,
    the sums of their keys and of their values in two's complement, and
    as first and last key the smallest and the largest of their keys (all
    fields 0 when there is none).  The number and the sums are exact when
    they fit their fields. *)
Theorem sum_on_well_formed (t : BTreePMACC7) (min max : Z) :
  well_formed t -> min <= max ->
  sum t min max
  = truncated (aggregate (filter (in_range min max) (contents (m_storage t))))
  /\ (representable (aggregate (filter (in_range min max) (contents (m_storage t)))) ->
      sum t min max = aggregate (filter (in_range min max) (contents (m_storage t))))
  /\ forall p, In p (filter (in_range min max) (contents (m_storage t))) ->
               m_first_key (sum t min max) <= fst p <= m_last_key (sum t min max).
Proof.
  intros Hwf Hmm. pose proof (sum_well_formed t min max Hwf Hmm) as E.
  split; [exact E |].
  split; [intros Hr; rewrite E; apply truncated_representable; exact Hr |].
  rewrite E. intros p Hp.
  assert (Hs : non_decreasing
                 (map fst (filter (in_range min max) (contents (m_storage t))))).
  { apply non_decreasing_filter. rewrite <- traversal_contents.
    destruct Hwf as (_ & _ & _ & H & _). exact H. }
  destruct (filter (in_range min max) (contents (m_storage t))) as [| h l]; [destruct Hp |].
  cbn [truncated aggregate m_first_key m_last_key]. exact (non_decreasing_ends h l p Hs Hp).
Qed.

Lemma sum_on_well_formed_witness :
  sum sparse_head 15 20
  = truncated (aggregate (filter (in_range 15 20) (contents (m_storage sparse_head))))
  /\ (representable (aggregate (filter (in_range 15 20) (contents (m_storage sparse_head)))) ->
      sum sparse_head 15 20
      = aggregate (filter (in_range 15 20) (contents (m_storage sparse_head))))
  /\ forall p, In p (filter (in_range 15 20) (contents (m_storage sparse_head))) ->
               m_first_key (sum sparse_head 15 20) <= fst p
               <= m_last_key (sum sparse_head 15 20).
Proof.
  apply (sum_on_well_formed sparse_head 15 20).
  - exact sparse_head_well_formed.
  - lia.
Defined.

(** C3. The example of the claim holds: after the inserts of the keys 1
    to 100 in order with the key as value (B = 32, one page per extent),
    [sum(10, 20)] is [{count 11, sum_keys 165, sum_values 165, first_key
    10, last_key 20}].  The general statement fails at a state that the
    operations reach: after the rewired spread of one-segment extents
    ([overflown_512]) 16 stored pairs have their key in [[500, 1000]], and
    [sum(500, 1000)] returns the count 142 and the last key 0. *)
Theorem sum_after_broken_spread :
  sum (ascending 100) 10 20
  = {| m_first_key := 10; m_last_key := 20; m_num_elements := 11;
       m_sum_keys := 165; m_sum_values := 165 |}
  /\ len (filter (in_range 500 1000) (contents (m_storage overflown_512))) = 16
  /\ m_num_elements (sum overflown_512 500 1000) = 142
  /\ m_last_key (sum overflown_512 500 1000) = 0.
Proof.
  split; [vm_compute; reflexivity |].
  split; [vm_compute; reflexivity |].
  split; vm_compute; reflexivity.
Qed.

(* ===================================================================== *)
(** * The first insertion                                                 *)
(* ===================================================================== *)

Section FirstInsert.
Variable pf : Platform.
Variable t : BTreePMACC7.
Variables k v : Z.
Hypothesis Hempty : empty_index t.
Hypothesis Hindex : len (m_index t) = 1.

Local Abbreviation st := (m_storage t).
Local Abbreviation B := (m_segment_capacity (m_storage t)).

Lemma insert_empty_eq : insert pf t k v = insert_empty t k v.
Proof. unfold insert, empty. destruct Hempty as (-> & _). reflexivity. Qed.

Lemma insert_empty_fields :
  m_number_segments (m_storage (insert_empty t k v)) = 1
  /\ m_segment_capacity (m_storage (insert_empty t k v)) = B
  /\ m_cardinality (m_storage (insert_empty t k v)) = 1
  /\ m_segment_sizes (m_storage (insert_empty t k v)) = set (m_segment_sizes st) 0 1
  /\ m_keys (m_storage (insert_empty t k v)) = set (m_keys st) (B - 1) k
  /\ m_values (m_storage (insert_empty t k v)) = set (m_values st) (B - 1) v
  /\ m_index (insert_empty t k v) = set_separator_key (m_index t) 0 k.
Proof.
  destruct Hempty as (_ & HS & _). unfold insert_empty. fields.
  repeat split; auto.
Qed.

Lemma insert_empty_cells : cells (m_storage (insert_empty t k v)) = [B - 1].
Proof.
  destruct insert_empty_fields as (HS & HB & _ & Hsz & _).
  destruct Hempty as (_ & _ & _ & HB32 & _ & _ & Hs2 & _).
  unfold cells. rewrite HS. change (Z.to_nat 1) with 1%nat. cbn [zrange flat_map].
  rewrite app_nil_r. unfold run_cells, run_start. rewrite HB, Hsz.
  change (0 mod 2 =? 0) with true. cbv iota. rewrite get_set_eq by lia.
  change (Z.to_nat 1) with 1%nat. cbn [zrange]. f_equal. lia.
Qed.

Lemma insert_empty_contents : contents (m_storage (insert_empty t k v)) = [(k, v)].
Proof.
  destruct insert_empty_fields as (_ & _ & _ & _ & Hk & Hv & _).
  destruct Hempty as (_ & _ & _ & HB32 & Hlk & Hlv & _).
  rewrite contents_entries, insert_empty_cells. cbn [map]. unfold entry.
  rewrite Hk, Hv, !get_set_eq by lia. reflexivity.
Qed.

Lemma insert_empty_well_formed : well_formed (insert_empty t k v).
Proof.
  destruct insert_empty_fields as (HS & HB & Hc & Hsz & Hk & Hv & Hix).
  destruct Hempty as (_ & _ & _ & HB32 & Hlk & Hlv & Hs2 & Hsent).
  unfold well_formed. split; [| split; [| split; [| split]]].
  - unfold segments_in_use. rewrite HS, HB, Hsz, Hk, !len_set.
    split; [lia |]. split; [now left |]. split; [lia |]. split; [lia |]. split; [lia |].
    split.
    + intros s Hs. assert (s = 0) by lia. subst s. rewrite get_set_eq by lia. lia.
    + intros _. rewrite get_set_ne by lia. exact Hsent.
  - rewrite HS, HB, Hv, len_set. lia.
  - rewrite Hc, insert_empty_cells. reflexivity.
  - rewrite traversal_contents, insert_empty_contents. exact I.
  - unfold index_exact. rewrite HS, Hix. unfold set_separator_key. rewrite len_set.
    split; [exact Hindex |].
    intros s Hs. assert (s = 0) by lia. subst s. unfold get_separator_key.
    rewrite get_set_eq by lia. rewrite get_minimum_run.
    unfold run_start. rewrite HB, Hsz, Hk.
    change (0 mod 2 =? 0) with true. cbv iota. rewrite get_set_eq by lia.
    replace ((0 + 1) * B - 1) with (B - 1) by lia. rewrite get_set_eq by lia. reflexivity.
Qed.

Lemma insert_empty_find : find (insert_empty t k v) k = v.
Proof.
  destruct insert_empty_fields as (HS & HB & Hc & Hsz & Hk & Hv & Hix).
  destruct Hempty as (_ & _ & _ & HB32 & Hlk & Hlv & Hs2 & Hsent).
  assert (Hsel : index_find (m_index (insert_empty t k v)) k = 0).
  { rewrite Hix. apply index_find_set_first.
    - intros E. rewrite E in Hindex. discriminate Hindex.
    - intros H. lia. }
  rewrite find_in_selected_segment.
  - rewrite Hsel. unfold run.
    assert (Hrc : run_cells (m_storage (insert_empty t k v)) 0 = [B - 1]).
    { pose proof insert_empty_cells as E. unfold cells in E. rewrite HS in E.
      change (Z.to_nat 1) with 1%nat in E. cbn [zrange flat_map] in E.
      now rewrite app_nil_r in E. }
    rewrite Hrc. cbn [map]. unfold lookup, entry. cbn [List.find fst snd].
    rewrite Hk, Hv, !get_set_eq by lia. now rewrite Z.eqb_refl.
  - apply well_formed_not_empty. exact insert_empty_well_formed.
  - rewrite Hsel, Hsz, get_set_eq by lia. lia.
Qed.

End FirstInsert.

(** X8. The first [insert(k, v)] into an empty index of one segment: the
    index is well-formed afterwards, it stores exactly the pair [(k, v)],
    its size is 1 and [find(k)] returns [v]. *)
Theorem insert_into_empty (pf : Platform) (t : BTreePMACC7) (k v : Z) :
  empty_index t -> len (m_index t) = 1 ->
  well_formed (insert pf t k v)
  /\ contents (m_storage (insert pf t k v)) = [(k, v)]
  /\ size (insert pf t k v) = 1
  /\ find (insert pf t k v) k = v.
Proof.
  intros He Hix. rewrite (insert_empty_eq pf t k v He).
  split; [exact (insert_empty_well_formed t k v He Hix) |].
  split; [exact (insert_empty_contents t k v He) |].
  split; [| exact (insert_empty_find t k v He Hix)].
  unfold size. destruct (insert_empty_fields t k v He) as (_ & _ & Hc & _). exact Hc.
Qed.

Lemma insert_into_empty_witness :
  well_formed (insert linux_4k (ascending 0) 42 7)
  /\ contents (m_storage (insert linux_4k (ascending 0) 42 7)) = [(42, 7)]
  /\ size (insert linux_4k (ascending 0) 42 7) = 1
  /\ find (insert linux_4k (ascending 0) 42 7) 42 = 7.
Proof.
  apply (insert_into_empty linux_4k (ascending 0) 42 7).
  - exact new_index_32_empty.
  - vm_compute. reflexivity.
Defined.

(* ===================================================================== *)
(** * Point lookups in a well-formed index                                *)
(* ===================================================================== *)

Lemma lookup_skip k l1 l2 : ~ In k (map fst l1) -> lookup k (l1 ++ l2) = lookup k l2.
Proof.
  intros H. unfold lookup. induction l1 as [| p l1 IH]; [reflexivity |].
  cbn [app List.find]. destruct (Z.eqb_spec (fst p) k) as [E | _].
  - exfalso. apply H. left. exact E.
  - apply IH. intros Hin. apply H. now right.
Qed.

Lemma lookup_stop k l1 l2 : ~ In k (map fst l2) -> lookup k (l1 ++ l2) = lookup k l1.
Proof.
  intros H. unfold lookup. induction l1 as [| p l1 IH].
  - cbn [app]. fold (lookup k l2). rewrite (lookup_absent k l2 H). reflexivity.
  - cbn [app List.find]. destruct (fst p =? k); [reflexivity | exact IH].
Qed.

Lemma strictly_monotone_on_increasing (f : Z -> Z) l :
  increasing l -> increasing (map f l) ->
  forall a b, In a l -> In b l -> a < b -> f a < f b.
Proof.
  induction l as [| x l IH]; intros Hi Hn a b Ha Hb Hab; [destruct Ha |].
  apply increasing_cons in Hi. destruct Hi as [Hx Hi].
  cbn [map] in Hn. apply increasing_cons in Hn. destruct Hn as [Hfx Hn].
  destruct Ha as [<- | Ha], Hb as [<- | Hb].
  - lia.
  - apply Hfx. now apply in_map.
  - specialize (Hx a Ha). lia.
  - now apply IH.
Qed.

Section Lookup.
Variable t : BTreePMACC7.
Variable k : Z.
Hypothesis Hwf : well_formed t.
Hypothesis Hunique : increasing (traversal (m_storage t)).

Local Abbreviation st := (m_storage t).
Local Abbreviation S_ := (m_number_segments (m_storage t)).
Local Abbreviation K := (get (m_keys (m_storage t))).
Local Abbreviation s := (index_find (m_index t) k).

Lemma selected_segment :
  0 <= s < S_ /\ (s = 0 \/ get (m_index t) s <= k)
  /\ (s + 1 < S_ -> k < get (m_index t) (s + 1)).
Proof.
  pose proof (index_find_spec (m_index t) k (wf_index_nonempty t Hwf)) as H.
  rewrite (wf_index_length t Hwf) in H. exact H.
Qed.

Lemma pair_of_runs a n p :
  In p (flat_map (run st) (zrange a n)) ->
  exists s' x, a <= s' < a + Z.of_nat n /\ In x (run_cells st s') /\ p = entry st x.
Proof.
  intros Hp. apply in_flat_map in Hp. destruct Hp as (s' & Hs' & Hp).
  apply in_zrange in Hs'. unfold run in Hp. apply in_map_iff in Hp.
  destruct Hp as (x & <- & Hx). eauto.
Qed.

Lemma key_not_before : ~ In k (map fst (flat_map (run st) (zrange 0 (Z.to_nat s)))).
Proof.
  pose proof (wf_use t Hwf) as Huse.
  destruct selected_segment as (Hs & Hlow & _).
  intros Hin. apply in_map_iff in Hin. destruct Hin as (p & Hk & Hp).
  apply pair_of_runs in Hp. destruct Hp as (s' & x & Hs' & Hx & ->).
  destruct Hlow as [E0 | Hlow]; [lia |].
  rewrite (wf_separator t Hwf s Hs) in Hlow.
  pose proof (run_start_cell st Huse s Hs) as Hh.
  pose proof (cells_by_segment st Huse s' s x _ ltac:(lia) Hs Hx Hh ltac:(lia)) as Hlt.
  pose proof (strictly_monotone_on_increasing K (cells st) (cells_increasing st Huse) Hunique
                x (run_start st s)
                (run_cell_in_cells st s' x ltac:(lia) Hx)
                (run_cell_in_cells st s _ Hs Hh) Hlt) as Hstrict.
  cbn [entry fst] in Hk. lia.
Qed.

Lemma key_not_after :
  ~ In k (map fst (flat_map (run st) (zrange (s + 1) (Z.to_nat (S_ - s - 1))))).
Proof.
  destruct selected_segment as (Hs & _ & Hhigh).
  intros Hin. apply in_map_iff in Hin. destruct Hin as (p & Hk & Hp).
  apply pair_of_runs in Hp. destruct Hp as (s' & x & Hs' & Hx & ->).
  specialize (Hhigh ltac:(lia)).
  pose proof (below_next_separator t Hwf s) as _.
  pose proof (above_separator t Hwf s' x ltac:(lia) Hx) as Hab.
  pose proof (wf_use t Hwf) as Huse.
  assert (Hsep : get (m_index t) (s + 1) <= get (m_index t) s').
  { rewrite (wf_separator t Hwf (s + 1)), (wf_separator t Hwf s') by lia.
    pose proof (run_start_cell st Huse (s + 1) ltac:(lia)) as H1.
    pose proof (run_start_cell st Huse s' ltac:(lia)) as H2.
    apply (wf_monotone t Hwf);
      [apply (run_cell_in_cells st (s + 1)); [lia | exact H1]
      | apply (run_cell_in_cells st s'); [lia | exact H2] |].
    destruct (Z.eq_dec s' (s + 1)) as [-> | Hne]; [lia |].
    pose proof (cells_by_segment st Huse (s + 1) s' _ _ ltac:(lia) ltac:(lia) H1 H2
                  ltac:(lia)). lia. }
  cbn [entry fst] in Hk. lia.
Qed.

Lemma find_in_contents : find t k = lookup k (contents st).
Proof.
  destruct selected_segment as (Hs & _).
  pose proof (wf_use t Hwf) as Huse.
  rewrite (find_in_selected_segment t k (well_formed_not_empty t Hwf)).
  2:{ pose proof (use_bounds st Huse s Hs). lia. }
  rewrite (contents_around st s Hs).
  rewrite (lookup_skip k _ _ key_not_before).
  rewrite (lookup_stop k _ _ key_not_after). reflexivity.
Qed.

End Lookup.

(** X9. [find(key)] on a well-formed index with distinct keys returns the
    value that is stored with the key, and the sentinel -1 when the key
    is not stored. *)
Theorem find_on_well_formed (t : BTreePMACC7) (key : Z) :
  well_formed t -> increasing (traversal (m_storage t)) ->
  find t key = lookup key (contents (m_storage t)).
Proof. intros Hwf Hu. exact (find_in_contents t key Hwf Hu). Qed.

Lemma find_on_well_formed_witness :
  find sparse_head 30 = lookup 30 (contents (m_storage sparse_head)).
Proof.
  apply (find_on_well_formed sparse_head 30).
  - exact sparse_head_well_formed.
  - apply (proj1 (increasingb_spec (traversal (m_storage sparse_head)))).
    vm_compute. reflexivity.
Defined.

(* ===================================================================== *)
(** * The iterator over a key interval                                    *)
(* ===================================================================== *)

(** With [min <= max] the first candidate segment is not after the last
    one: the constructor of the iterator does not raise. *)
Lemma candidates_ordered ix min max :
  ix <> [] -> min <= max -> index_find_first ix min <= index_find_last ix max.
Proof.
  intros Hne Hmm.
  destruct (index_find_first_spec ix min Hne) as [Hf Hbefore].
  destruct (index_find_last_spec ix max Hne) as (Hl & Hafter & _).
  destruct (Z_lt_le_dec (index_find_last ix max) (index_find_first ix min)) as [Hlt | ?];
    [| assumption].
  specialize (Hbefore (index_find_last ix max) ltac:(lia)).
  specialize (Hafter (index_find_last ix max + 1) ltac:(lia)). lia.
Qed.

(** The cells up to [m_stop] are read one by one, then [next_sequence]
    runs. *)
Lemma drain_cells k : forall n it,
  (1 <= k)%nat -> Iterator.m_offset it + Z.of_nat k = Iterator.m_stop it ->
  Iterator.drain (k + n) it =
  map (entry (Iterator.m_pma it)) (zrange (Iterator.m_offset it) k)
  ++ Iterator.drain n
       (Iterator.next_sequence
          {| Iterator.m_pma := Iterator.m_pma it;
             Iterator.m_next_segment := Iterator.m_next_segment it;
             Iterator.m_offset := Iterator.m_stop it;
             Iterator.m_stop := Iterator.m_stop it;
             Iterator.m_index_max := Iterator.m_index_max it |}).
Proof.
  induction k as [| k IH]; intros n it Hk Ho; [lia |].
  destruct it as [pma ns o stop imax].
  cbn [Iterator.m_offset Iterator.m_stop Iterator.m_pma Iterator.m_next_segment
       Iterator.m_index_max] in *.
  cbn [Nat.add Iterator.drain zrange map app].
  unfold Iterator.hasNext, Iterator.next.
  cbn [Iterator.m_offset Iterator.m_stop Iterator.m_pma Iterator.m_next_segment
       Iterator.m_index_max].
  destruct (Z.ltb_spec o stop) as [_ | Hge]; [| lia].
  destruct k as [| k].
  - destruct (Z.leb_spec stop (o + 1)) as [_ | Hlt]; [| lia].
    replace (o + 1) with stop by lia. reflexivity.
  - destruct (Z.leb_spec stop (o + 1)) as [Hle | _]; [lia |].
    unfold entry at 1. f_equal.
    exact (IH n {| Iterator.m_pma := pma; Iterator.m_next_segment := ns;
                   Iterator.m_offset := o + 1; Iterator.m_stop := stop;
                   Iterator.m_index_max := imax |} ltac:(lia) ltac:(cbn; lia)).
Qed.

Lemma lower_offset_nonneg st key_min :
  segments_in_use st ->
  forall n c,
  0 <= c_segment_id c ->
  c_segment_even c = (c_segment_id c mod 2 =? 0) ->
  0 <= c_offset c
  \/ (c_notfound c = true /\ c_segment_id c < m_number_segments st /\ (1 <= n)%nat) ->
  0 <= c_offset (lower_interval n st key_min c).
Proof.
  intros Huse. induction n as [| n IH]; intros c Hseg Hpar H; cbn [lower_interval].
  - destruct H as [H | (_ & _ & H)]; lia.
  - destruct (c_notfound c) eqn:Hnf; cbn [andb].
    2:{ destruct H as [H | (H & _)]; [exact H | discriminate]. }
    destruct (Z.ltb_spec (c_segment_id c) (m_number_segments st)) as [Hlt | Hge].
    2:{ destruct H as [H | (_ & H & _)]; [exact H | lia]. }
    set (seg := c_segment_id c) in *.
    pose proof (use_bounds st Huse seg ltac:(lia)) as Hsz.
    pose proof (use_capacity st Huse) as HB.
    assert (Hbounds :
      (if c_segment_even c
       then ((seg + 1) * m_segment_capacity st - get (m_segment_sizes st) seg,
             (seg + 1) * m_segment_capacity st)
       else (seg * m_segment_capacity st,
             seg * m_segment_capacity st + get (m_segment_sizes st) seg))
      = (run_start st seg, run_start st seg + get (m_segment_sizes st) seg)).
    { rewrite Hpar. unfold run_start. destruct (seg mod 2 =? 0); f_equal; lia. }
    rewrite Hbounds. clear Hbounds.
    assert (Hrs : 0 <= run_start st seg).
    { unfold run_start. destruct (seg mod 2 =? 0); nia. }
    set (start := run_start st seg) in *.
    set (stop := start + get (m_segment_sizes st) seg) in *.
    destruct (skip_below_spec (m_keys st) stop key_min (Z.to_nat (stop - start)) start)
      as (Hr & _); try lia.
    cbv beta iota.
    set (r := skip_below (Z.to_nat (stop - start)) (m_keys st) start stop key_min) in *.
    apply IH.
    + cbn [c_segment_id]. destruct (r =? stop); lia.
    + cbn [c_segment_even c_segment_id]. destruct (r =? stop); [| exact Hpar].
      rewrite Hpar. apply parity_flip.
    + left. cbn [c_offset]. lia.
Qed.

Section Bounded.
Variable st : PMA.
Hypothesis Huse : segments_in_use st.
Variable end_ : Z.

Local Abbreviation B := (m_segment_capacity st).
Local Abbreviation S_ := (m_number_segments st).
Local Abbreviation sizes := (m_segment_sizes st).
Local Abbreviation P := (pairs_of st).
Local Abbreviation rest_from :=
  (fun p => flat_map (fun q' => pair_part st end_ q' (run_start st (2 * q')))
              (zrange (p + 1) (Z.to_nat (P - p - 1)))).

Lemma next_sequence_upto p o :
  0 <= p < P - 1 ->
  Iterator.next_sequence (cursor_upto st end_ p o) =
  cursor_upto st end_ (p + 1) (run_start st (2 * (p + 1))).
Proof.
  intros Hp. destruct (pairs_of_spec st Huse) as [[H1 HP] | [H1 HP]]; [lia |].
  unfold Iterator.next_sequence, cursor_upto.
  cbn [Iterator.m_offset Iterator.m_stop Iterator.m_pma Iterator.m_next_segment
       Iterator.m_index_max].
  destruct (Z.eqb_spec S_ 1) as [He | _]; [lia |].
  destruct (Z.ltb_spec (2 * (p + 1)) S_) as [_ | Hge]; [| lia].
  replace ((2 * (p + 1)) mod 2) with 0
    by (symmetry; rewrite Z.mul_comm; apply Z.mod_mul; lia).
  cbn [Z.eqb].
  destruct (Z.ltb_spec (2 * (p + 1) + 1) S_) as [_ | Hge]; [| lia].
  f_equal.
  - lia.
  - rewrite run_start_even. lia.
  - unfold pair_end. lia.
Qed.

Lemma next_sequence_upto_last o :
  Iterator.next_sequence (cursor_upto st end_ (P - 1) o) = cursor_upto st end_ (P - 1) o.
Proof.
  unfold Iterator.next_sequence, cursor_upto.
  cbn [Iterator.m_offset Iterator.m_stop Iterator.m_pma Iterator.m_next_segment
       Iterator.m_index_max].
  destruct (pairs_of_spec st Huse) as [[H1 HP] | [H1 HP]].
  - destruct (Z.eqb_spec S_ 1) as [_ | Hne]; [| lia].
    destruct (Z.ltb_spec 1 S_) as [Hlt | _]; [lia | reflexivity].
  - destruct (Z.eqb_spec S_ 1) as [He | _]; [lia |].
    destruct (Z.ltb_spec (2 * (P - 1 + 1)) S_) as [Hlt | _]; [lia | reflexivity].
Qed.

(** Nothing is left when the interval ends before the pair [p + 1]. *)
Lemma rest_empty p :
  0 <= p -> (p + 1 < P -> end_ <= run_start st (2 * (p + 1))) -> rest_from p = [].
Proof.
  intros Hp Hle. apply flat_map_nil. intros q Hq. apply in_zrange in Hq.
  unfold pair_part.
  assert (Hrs : run_start st (2 * (p + 1)) <= run_start st (2 * q)).
  { destruct (Z.eq_dec q (p + 1)) as [-> | Hne]; [lia |].
    pose proof (pairs_apart st Huse (p + 1) q ltac:(lia) ltac:(lia)).
    pose proof (pair_start_bounds st Huse (p + 1) ltac:(lia)). lia. }
  specialize (Hle ltac:(lia)).
  replace (Z.to_nat (Z.min end_ (pair_end st q) - run_start st (2 * q))) with 0%nat by lia.
  reflexivity.
Qed.

Lemma rest_step p :
  0 <= p -> p + 1 < P ->
  rest_from p = pair_part st end_ (p + 1) (run_start st (2 * (p + 1))) ++ rest_from (p + 1).
Proof.
  intros Hp Hlt. cbv beta.
  replace (Z.to_nat (P - p - 1)) with (S (Z.to_nat (P - (p + 1) - 1))) by lia.
  reflexivity.
Qed.

(** The iterator yields the cells from [o] to the cell before [end_]. *)
Lemma drain_upto m : forall p n o,
  (1 <= m)%nat -> 0 <= p -> p + Z.of_nat m = P ->
  o < Z.min end_ (pair_end st p) ->
  (length (pair_part st end_ p o ++ rest_from p) <= n)%nat ->
  Iterator.drain n (cursor_upto st end_ p o)
  = map (entry st) (pair_part st end_ p o ++ rest_from p).
Proof.
  induction m as [| m IH]; intros p n o Hm Hp HP Ho Hn; [lia |].
  rewrite length_app in Hn. unfold pair_part at 1 in Hn. rewrite length_zrange in Hn.
  unfold pair_part at 1.
  set (k := Z.to_nat (Z.min end_ (pair_end st p) - o)) in *.
  replace n with (k + (n - k))%nat by lia.
  rewrite drain_cells; [| lia | cbn [cursor_upto Iterator.m_offset Iterator.m_stop]; lia].
  cbn [cursor_upto Iterator.m_offset Iterator.m_stop Iterator.m_pma
       Iterator.m_next_segment Iterator.m_index_max].
  change {| Iterator.m_pma := st;
            Iterator.m_next_segment := if S_ =? 1 then 1 else 2 * (p + 1);
            Iterator.m_offset := Z.min end_ (pair_end st p);
            Iterator.m_stop := Z.min end_ (pair_end st p);
            Iterator.m_index_max := end_ |}
    with (cursor_upto st end_ p (Z.min end_ (pair_end st p))).
  rewrite map_app. f_equal.
  destruct m as [| m].
  - replace p with (P - 1) by lia.
    rewrite next_sequence_upto_last, (rest_empty (P - 1)) by lia.
    apply drain_exhausted. unfold Iterator.hasNext, cursor_upto.
    cbn [Iterator.m_offset Iterator.m_stop]. apply Z.ltb_irrefl.
  - rewrite next_sequence_upto by lia.
    destruct (Z_lt_le_dec (run_start st (2 * (p + 1))) (Z.min end_ (pair_end st (p + 1))))
      as [Hlt | Hge].
    + rewrite (rest_step p) in * by lia. apply IH; try lia.
    + pose proof (pair_start_bounds st Huse (p + 1) ltac:(lia)).
      rewrite (rest_empty p) by lia.
      apply drain_exhausted. unfold Iterator.hasNext, cursor_upto.
      cbn [Iterator.m_offset Iterator.m_stop].
      destruct (Z.ltb_spec (run_start st (2 * (p + 1))) (Z.min end_ (pair_end st (p + 1))));
        [lia | reflexivity].
Qed.

End Bounded.

Section Range.
Variable t : BTreePMACC7.
Variables min max : Z.
Hypothesis Hwf : well_formed t.
Hypothesis Hmm : min <= max.

Local Abbreviation st := (m_storage t).
Local Abbreviation B := (m_segment_capacity (m_storage t)).
Local Abbreviation S_ := (m_number_segments (m_storage t)).
Local Abbreviation sizes := (m_segment_sizes (m_storage t)).
Local Abbreviation K := (get (m_keys (m_storage t))).
Local Abbreviation first_segment := (index_find_first (m_index t) min).
Local Abbreviation last_segment := (index_find_last (m_index t) max).
Local Abbreviation lower :=
  (lower_interval (Z.to_nat (S_ - first_segment)) st min
     {| c_notfound := true; c_segment_id := first_segment;
        c_segment_even := first_segment mod 2 =? 0;
        c_start := -1; c_stop := -1; c_offset := -1 |}).

Lemma exhausted_to_list (it : Iterator.t) :
  Iterator.m_stop it <= Iterator.m_offset it -> Iterator.to_list it = [].
Proof.
  intros H. unfold Iterator.to_list. apply drain_exhausted. unfold Iterator.hasNext.
  destruct (Z.ltb_spec (Iterator.m_offset it) (Iterator.m_stop it)); [lia | reflexivity].
Qed.

Lemma find_range_well_formed :
  exists it, find_range t min max = inr it
             /\ Iterator.to_list it = filter (in_range min max) (contents st).
Proof.
  pose proof (wf_use t Hwf) as Huse.
  pose proof (first_segment_range t min Hwf) as Hfirst.
  pose proof (last_segment_range t max Hwf) as Hlast.
  pose proof (candidates_ordered (m_index t) min max (wf_index_nonempty t Hwf) Hmm) as Hord.
  unfold find_range. rewrite (well_formed_not_empty t Hwf).
  unfold Iterator.make.
  destruct (Z.ltb_spec last_segment first_segment) as [? | _]; [lia |].
  destruct (Z.leb_spec S_ last_segment) as [? | _]; [lia |].
  cbv zeta.
  pose proof (lower_offset_nonneg st min Huse (Z.to_nat (S_ - first_segment))
                {| c_notfound := true; c_segment_id := first_segment;
                   c_segment_even := first_segment mod 2 =? 0;
                   c_start := -1; c_stop := -1; c_offset := -1 |}
                ltac:(cbn [c_segment_id]; lia) eq_refl
                ltac:(right; cbn [c_notfound c_segment_id]; split; [reflexivity | lia]))
    as Hnonneg.
  destruct (lower_interval_spec st Huse min (Z.to_nat (S_ - first_segment))
              {| c_notfound := true; c_segment_id := first_segment;
                 c_segment_even := first_segment mod 2 =? 0;
                 c_start := -1; c_stop := -1; c_offset := -1 |}
              eq_refl eq_refl)
    as [(Hnf & Hall) | (Hnf & Hr & Hpar & Hin & Hk & Hall & Hbefore & Hstop)];
    cbn [c_segment_id] in *; try lia.
  - (* no key reaches [min] *)
    rewrite Hnf. cbn [orb].
    rewrite (nothing_in_range t min max).
    2:{ intros x Hx. left. apply (cell_segment st) in Hx. destruct Hx as (s & Hs & Hx).
        destruct (Z_lt_le_dec s first_segment) as [Hlt | Hge].
        + apply (before_first_segment t min Hwf s x); [lia | exact Hx].
        + apply (Hall s x); [lia | exact Hx]. }
    destruct (c_segment_even lower && (c_segment_id lower + 1 <? S_));
      (eexists; split; [reflexivity |]); apply exhausted_to_list;
      cbn [Iterator.m_stop Iterator.m_offset]; exact Hnonneg.
  - set (sid := c_segment_id lower) in *. set (lo := c_offset lower) in *.
    rewrite Hnf. cbn [orb].
    assert (Hlo : In lo (cells st)) by (apply (run_cell_in_cells st sid); [lia | exact Hin]).
    assert (Hbelow : forall x, In x (cells st) -> x < lo -> K x < min).
    { intros x Hx Hlt. apply (cell_segment st) in Hx. destruct Hx as (s & Hs & Hx).
      destruct (Z_lt_le_dec s first_segment) as [H1 | H1].
      { apply (before_first_segment t min Hwf s x); [lia | exact Hx]. }
      destruct (Z_lt_le_dec s sid) as [H2 | H2]; [apply (Hall s x); [lia | exact Hx] |].
      destruct (Z.eq_dec s sid) as [-> | Hne]; [now apply Hbefore |].
      pose proof (cells_by_segment st Huse sid s lo x ltac:(lia) Hs Hin Hx ltac:(lia)). lia. }
    destruct (segment_pair st Huse sid ltac:(lia)) as [Hq Hqr].
    pose proof (cell_in_pair st Huse lo sid ltac:(lia) Hin) as Hcell.
    (* the end of the first pair and the next segment *)
    match goal with
    | |- context [if ?b then (?a1, ?a2) else (?b1, ?b2)] =>
        assert (Hraw : (if b then (a1, a2) else (b1, b2))
                       = (pair_end st (sid / 2),
                          if S_ =? 1 then 1 else 2 * (sid / 2 + 1)))
    end.
    { rewrite Hpar, Hstop.
      destruct (pairs_of_spec st Huse) as [[H1 HP] | [H1 HP]].
      - assert (E0 : sid = 0) by lia. rewrite E0 in *.
        change (0 mod 2 =? 0) with true. cbn [andb].
        destruct (Z.ltb_spec (0 + 1) S_) as [? | _]; [lia |].
        destruct (Z.eqb_spec S_ 1) as [_ | ?]; [| lia].
        destruct Huse as (_ & _ & _ & _ & _ & _ & Hsent).
        change (0 / 2) with 0. unfold pair_end, run_start.
        change (0 mod 2 =? 0) with true. cbv iota.
        change (2 * 0 + 1) with 1. rewrite (Hsent H1). f_equal. lia.
      - destruct (Z.eqb_spec S_ 1) as [? | _]; [lia |].
        destruct Hq as [E | E].
        + assert (Hm : sid mod 2 = 0)
            by (rewrite E at 1; rewrite Z.mul_comm; apply Z.mod_mul; lia).
          rewrite Hm. change (0 =? 0) with true. cbn [andb].
          destruct (Z.ltb_spec (sid + 1) S_) as [_ | ?]; [| lia].
          unfold pair_end. rewrite <- E. f_equal. lia.
        + assert (Hm : sid mod 2 = 1).
          { rewrite E at 1. rewrite Z.add_comm, Z.mul_comm, Z.mod_add by lia. reflexivity. }
          rewrite Hm. change (1 =? 0) with false. cbn [andb].
          unfold pair_end. rewrite <- E.
          assert (Hrs : run_start st sid = sid * B).
          { unfold run_start. rewrite Hm. reflexivity. }
          rewrite Hrs. f_equal. lia. }
    rewrite Hraw. cbv beta iota.
    destruct (Z.ltb_spec max (K lo)) as [Hgt | Hle].
    { (* the first key that reaches [min] is above [max] *)
      rewrite (nothing_in_range t min max).
      2:{ intros x Hx. destruct (Z_lt_le_dec x lo) as [H1 | H1].
          - left. now apply Hbelow.
          - right. pose proof (wf_monotone t Hwf lo x Hlo Hx H1). lia. }
      eexists; split; [reflexivity |]. apply exhausted_to_list.
      cbn [Iterator.m_stop Iterator.m_offset]. exact Hnonneg. }
    assert (Hseplo : get (m_index t) sid <= max).
    { rewrite (wf_separator t Hwf sid) by lia.
      pose proof (run_start_cell st Huse sid ltac:(lia)) as Hh.
      pose proof (wf_monotone t Hwf (run_start st sid) lo
                    (run_cell_in_cells st sid _ ltac:(lia) Hh) Hlo) as Hm.
      apply run_cells_range in Hin. lia. }
    pose proof (index_find_last_spec (m_index t) max (wf_index_nonempty t Hwf))
      as (_ & Hafter & Hsome).
    rewrite (wf_index_length t Hwf) in Hafter, Hsome.
    assert (Hsl : sid <= last_segment).
    { destruct (Z_lt_le_dec last_segment sid) as [Hlt | ?]; [| assumption].
      specialize (Hafter sid ltac:(lia)). lia. }
    assert (Hsephi : K (run_start st last_segment) <= max).
    { rewrite <- (wf_separator t Hwf last_segment Hlast). apply Hsome.
      exists sid. split; [lia | exact Hseplo]. }
    destruct (upper_interval_first st Huse max sid
                (Z.to_nat (last_segment - sid + 1))
                {| c_notfound := true; c_segment_id := last_segment;
                   c_segment_even := last_segment mod 2 =? 0;
                   c_start := c_start lower; c_stop := c_stop lower; c_offset := lo |}
                eq_refl eq_refl)
      as (Hin' & Hk' & Hafter'); cbn [c_segment_id] in *; try lia; try exact Hsephi.
    match goal with
    | |- context [c_offset ?u + 1] => set (hi := c_offset u) in *
    end.
    assert (Hhi : In hi (cells st))
      by (apply (run_cell_in_cells st last_segment); [lia | exact Hin']).
    assert (Habove : forall x, In x (cells st) -> hi < x -> max < K x).
    { intros x Hx Hlt. apply (cell_segment st) in Hx. destruct (Hx) as (s & Hs & Hx').
      destruct (Z_lt_le_dec last_segment s) as [H1 | H1].
      { apply (after_last_segment t max Hwf s x); [lia | exact Hx']. }
      destruct (Z.eq_dec s last_segment) as [-> | Hne]; [now apply Hafter' |].
      pose proof (cells_by_segment st Huse s last_segment x hi Hs ltac:(lia) Hx' Hin'
                    ltac:(lia)). lia. }
    assert (Hlohi : lo <= hi).
    { destruct (Z_lt_le_dec hi lo) as [Hlt | ?]; [| assumption].
      specialize (Habove lo Hlo Hlt). lia. }
    destruct (Z.ltb_spec hi lo) as [? | _]; [lia |].
    exists (cursor_upto st (hi + 1) (sid / 2) lo). split; [reflexivity |].
    rewrite (interval_cells t min max Hwf lo hi Hlo Hhi Hk Hk' Hbelow Habove).
    pose proof (filter_length_le (fun x => (lo <=? x) && (x <=? hi)) (cells st)) as Hflen.
    pose proof (length_cells_le st Huse) as Hclen.
    rewrite (cells_between st Huse lo hi sid ltac:(lia) Hin) in Hflen.
    rewrite (cells_between st Huse lo hi sid ltac:(lia) Hin).
    unfold Iterator.to_list. cbn [cursor_upto Iterator.m_pma].
    change {| Iterator.m_pma := st;
              Iterator.m_next_segment := if S_ =? 1 then 1 else 2 * (sid / 2 + 1);
              Iterator.m_offset := lo;
              Iterator.m_stop := Z.min (hi + 1) (pair_end st (sid / 2));
              Iterator.m_index_max := hi + 1 |}
      with (cursor_upto st (hi + 1) (sid / 2) lo).
    apply (drain_upto st Huse (hi + 1) (Z.to_nat (pairs_of st - sid / 2))); lia.
Qed.

End Range.

(** X10. [find(min, max)] with [min <= max] on a well-formed index raises
    no exception, and the loop [while(hasNext()) next()] over the
    iterator that it returns yields exactly the stored pairs whose key
    lies in [[min, max]], in segment order. *)
Theorem find_range_on_well_formed (t : BTreePMACC7) (min max : Z) :
  well_formed t -> min <= max ->
  exists it, find_range t min max = inr it
             /\ Iterator.to_list it = filter (in_range min max) (contents (m_storage t)).
Proof. intros Hwf Hmm. exact (find_range_well_formed t min max Hwf Hmm). Qed.

Lemma find_range_on_well_formed_witness :
  exists it, find_range sparse_head 15 20 = inr it
             /\ Iterator.to_list it
                = filter (in_range 15 20) (contents (m_storage sparse_head)).
Proof.
  apply (find_range_on_well_formed sparse_head 15 20).
  - exact sparse_head_well_formed.
  - lia.
Defined.

(* ===================================================================== *)
(** * Remove: the deletion inside the segment and the rebalance           *)
(* ===================================================================== *)

Lemma scan_key_hit n keys base stop key : forall i,
  (exists j, i <= j < stop /\ get keys (base + j) = key) ->
  stop - i <= Z.of_nat n ->
  i <= scan_key n keys base i stop key < stop.
Proof.
  induction n as [| n IH]; intros i (j & Hj & Hk) Hn; cbn [scan_key]; [lia |].
  destruct (Z.ltb_spec i stop) as [Hlt | Hge]; [| lia].
  destruct (Z.eqb_spec (get keys (base + i)) key) as [E | Hne]; [lia |].
  assert (Hij : j <> i) by (intros ->; contradiction).
  destruct (IH (i + 1)) as [H1 H2]; [exists j; split; [lia | exact Hk] | lia | lia].
Qed.

(** The value that the deletion inside the segment hands back is the
    value that [find] returns. *)
Lemma remove_local_value t k :
  empty t = false -> snd (fst (fst (remove_local t k))) = find t k.
Proof.
  intros He. unfold find, remove_local. rewrite He. cbv zeta.
  destruct (index_find (m_index t) k mod 2 =? 0).
  - replace (m_segment_capacity (m_storage t)
             - (m_segment_capacity (m_storage t)
                - get (m_segment_sizes (m_storage t)) (index_find (m_index t) k)))
      with (get (m_segment_sizes (m_storage t)) (index_find (m_index t) k)) by lia.
    destruct (_ <? _); reflexivity.
  - replace (get (m_segment_sizes (m_storage t)) (index_find (m_index t) k) - 0)
      with (get (m_segment_sizes (m_storage t)) (index_find (m_index t) k)) by lia.
    destruct (_ <? _); reflexivity.
Qed.

Section Deletion.
Variable t : BTreePMACC7.
Variable k : Z.

Local Abbreviation st := (m_storage t).
Local Abbreviation B := (m_segment_capacity (m_storage t)).
Local Abbreviation s := (index_find (m_index t) k).
Local Abbreviation sz := (get (m_segment_sizes (m_storage t)) (index_find (m_index t) k)).
Local Abbreviation t' := (fst (fst (fst (remove_local t k)))).

Hypothesis Hseg : 0 <= s < len (m_segment_sizes st).
Hypothesis Hsz : 0 <= sz.
Hypothesis Hin : In k (map fst (run st s)).

(** The deletion inside the segment that holds the key: the segment
    loses one element, the geometry and the density bounds stay. *)
Lemma remove_local_found :
  snd (fst (remove_local t k)) = s
  /\ snd (remove_local t k) = sz - 1
  /\ get (m_segment_sizes (m_storage t')) s = sz - 1
  /\ m_cardinality (m_storage t') = m_cardinality st - 1
  /\ m_number_segments (m_storage t') = m_number_segments st
  /\ m_segment_capacity (m_storage t') = B
  /\ m_height (m_storage t') = m_height st
  /\ m_density_bounds t' = m_density_bounds t.
Proof.
  rewrite keys_of_run in Hin. apply in_map_iff in Hin. destruct Hin as (c & Hc & Hcell).
  unfold run_cells in Hcell. apply in_zrange in Hcell.
  unfold run_start in Hcell.
  unfold remove_local. cbv zeta.
  destruct (s mod 2 =? 0).
  - destruct (scan_key_hit (Z.to_nat (B - (B - sz))) (m_keys st) (s * B) B k (B - sz))
      as [H1 H2]; [exists (c - s * B); split; [lia | rewrite <- Hc; f_equal; lia] | lia |].
    destruct (Z.ltb_spec (scan_key (Z.to_nat (B - (B - sz))) (m_keys st) (s * B) (B - sz) B k) B)
      as [_ | ?]; [| lia].
    cbn [fst snd]. fields. rewrite get_set_eq by exact Hseg. repeat split; reflexivity.
  - destruct (scan_key_hit (Z.to_nat sz) (m_keys st) (s * B) sz k 0)
      as [H1 H2]; [exists (c - s * B); split; [lia | rewrite <- Hc; f_equal; lia] | lia |].
    destruct (Z.ltb_spec (scan_key (Z.to_nat sz) (m_keys st) (s * B) 0 sz k) sz)
      as [_ | ?]; [| lia].
    cbn [fst snd]. fields. rewrite get_set_eq by exact Hseg. repeat split; reflexivity.
Qed.

End Deletion.

(** C6 (amended).  [remove(k)] on an index that is not empty, when the
    key is found in the run of the segment [s] that the index selects for
    it.  The deletion inside the segment leaves [seg_size[s]] one smaller
    and the value of the first pair with the key is returned.  The
    rebalance of [s] follows exactly when this value is not the missing
    sentinel -1, the index has more than one segment and the new
    [seg_size[s]] is below [max (floor (rho_1 * B)) 1]; otherwise the
    state after the deletion is the result. *)
Theorem remove_rebalances_iff (pf : Platform) (t : BTreePMACC7) (k : Z) :
  let st := m_storage t in
  let s := index_find (m_index t) k in
  empty t = false ->
  0 <= s < len (m_segment_sizes st) ->
  0 <= get (m_segment_sizes st) s ->
  In k (map fst (run st s)) ->
  let t' := fst (fst (fst (remove_local t k))) in
  let new_size := get (m_segment_sizes (m_storage t')) s in
  let value := lookup k (run st s) in
  let rho_1 := fst (thresholds (m_density_bounds t) (m_height st) 1) in
  let due :=
    value <> -1 /\ 1 < m_number_segments st
    /\ new_size < Z.max (Qfloor (rho_1 * inject_Z (m_segment_capacity st))) 1 in
  new_size = get (m_segment_sizes st) s - 1
  /\ m_cardinality (m_storage t') = m_cardinality st - 1
  /\ snd (remove pf t k) = value
  /\ (due -> fst (remove pf t k) = rebalance pf t' s None)
  /\ (~ due -> fst (remove pf t k) = t').
Proof.
  intros st s He Hseg Hsz Hin t' new_size value rho_1 due.
  subst st s t' new_size value rho_1 due.
  destruct (remove_local_found t k Hseg Hsz Hin)
    as (Hs & Hret & Hnew & Hcard & HS & HB & Hh & Hdb).
  pose proof (remove_local_value t k He) as Hv.
  rewrite (find_in_selected_segment t k He Hsz) in Hv.
  assert (Hr : remove_local t k
               = (fst (fst (fst (remove_local t k))),
                  lookup k (run (m_storage t) (index_find (m_index t) k)),
                  index_find (m_index t) k,
                  get (m_segment_sizes (m_storage (fst (fst (fst (remove_local t k))))))
                      (index_find (m_index t) k))).
  { rewrite Hnew, <- Hret, <- Hv. rewrite <- Hs.
    destruct (remove_local t k) as [[[a b] c] d]. reflexivity. }
  pose proof (remove_shall_rebalance pf t _ k _ _ _ He Hr) as Hrm. cbv zeta in Hrm.
  rewrite HS, HB, Hh, Hdb in Hrm.
  split; [exact Hnew |]. split; [exact Hcard |].
  rewrite Hrm. cbn [fst snd]. split; [reflexivity |].
  destruct (Z.eqb_spec (lookup k (run (m_storage t) (index_find (m_index t) k))) (-1))
    as [E1 | E1]; cbn [negb andb].
  { split; [intros [H _]; contradiction | reflexivity]. }
  destruct (Z.ltb_spec 1 (m_number_segments (m_storage t))) as [E2 | E2]; cbn [andb].
  2:{ split; [intros (_ & H & _); lia | reflexivity]. }
  match goal with
  | |- context [if ?a <? ?b then _ else _] => destruct (Z.ltb_spec a b) as [E3 | E3]
  end.
  - split; [reflexivity |]. intros H. exfalso. apply H. auto.
  - split; [intros (_ & _ & H); lia | reflexivity].
Qed.

Lemma remove_rebalances_iff_witness :
  (get (m_segment_sizes (m_storage (fst (fst (fst (remove_local thin_head 15))))))
       (index_find (m_index thin_head) 15)
   = get (m_segment_sizes (m_storage thin_head)) (index_find (m_index thin_head) 15) - 1
   /\ remove linux_4k thin_head 15
      = (rebalance linux_4k (fst (fst (fst (remove_local thin_head 15))))
           (index_find (m_index thin_head) 15) None,
         lookup 15 (run (m_storage thin_head) (index_find (m_index thin_head) 15))))
  /\ (get (m_segment_sizes (m_storage (fst (fst (fst (remove_local sparse_head 14))))))
          (index_find (m_index sparse_head) 14)
      = get (m_segment_sizes (m_storage sparse_head)) (index_find (m_index sparse_head) 14) - 1
      /\ remove linux_4k sparse_head 14
         = (fst (fst (fst (remove_local sparse_head 14))),
            lookup 14 (run (m_storage sparse_head) (index_find (m_index sparse_head) 14)))).
Proof.
  split.
  - assert (He : empty thin_head = false) by (vm_compute; reflexivity).
    assert (Hseg : 0 <= index_find (m_index thin_head) 15
                   < len (m_segment_sizes (m_storage thin_head)))
      by (vm_compute; split; [discriminate | reflexivity]).
    assert (Hsz : 0 <= get (m_segment_sizes (m_storage thin_head))
                         (index_find (m_index thin_head) 15))
      by (vm_compute; discriminate).
    assert (Hin : In 15 (map fst (run (m_storage thin_head)
                                    (index_find (m_index thin_head) 15))))
      by (vm_compute; left; reflexivity).
    destruct (remove_rebalances_iff linux_4k thin_head 15 He Hseg Hsz Hin)
      as (Hnew & _ & Hv & Hdue & _).
    split; [exact Hnew |].
    rewrite (surjective_pairing (remove linux_4k thin_head 15)), Hv, Hdue; [reflexivity |].
    split; [vm_compute; discriminate |].
    split; vm_compute; reflexivity.
  - assert (He : empty sparse_head = false) by (vm_compute; reflexivity).
    assert (Hseg : 0 <= index_find (m_index sparse_head) 14
                   < len (m_segment_sizes (m_storage sparse_head)))
      by (vm_compute; split; [discriminate | reflexivity]).
    assert (Hsz : 0 <= get (m_segment_sizes (m_storage sparse_head))
                         (index_find (m_index sparse_head) 14))
      by (vm_compute; discriminate).
    assert (Hin : In 14 (map fst (run (m_storage sparse_head)
                                    (index_find (m_index sparse_head) 14))))
      by (vm_compute; left; reflexivity).
    destruct (remove_rebalances_iff linux_4k sparse_head 14 He Hseg Hsz Hin)
      as (Hnew & _ & Hv & _ & Hnot).
    split; [exact Hnew |].
    rewrite (surjective_pairing (remove linux_4k sparse_head 14)), Hv, Hnot; [reflexivity |].
    intros (_ & _ & Hlt). vm_compute in Hlt. discriminate.
Defined.
